(** * Celebrity era recognition game: estimator, session routes, metrics

    A shallow embedding of the TypeScript sources
    - [services/tmdb]  (relevance-window estimator),
    - [routes/api]     (session store routes and the results computation),
    - [frontend/App]   (client-side answer state machine),
    together with the properties the specification states about them.

    Numbers.  Years, indices and counts are JavaScript numbers holding
    integers: they are modelled as [Z].  Rates are modelled as exact
    rationals [Q]; a division whose divisor is zero (JavaScript: [NaN] or
    [Infinity], a value JSON cannot carry) is the failure [None] of the
    option monad, as is reading an array out of its bounds and then
    taking a field of the result (JavaScript: a [TypeError]).  Rational
    results are compared with [==] ([Qeq]).

    Three metrics depend on how each arithmetic operation is rounded:
    the peak decade between decades of nearly equal mean, and the
    centre of gravity and the overall rate at half-way values.  For
    these the results computation is modelled a second time, in
    [Binary64], where a number is the rational value of a finite
    binary64 number and every sum, product and quotient is rounded to
    the nearest such value, halves to the even significand.  Magnitudes
    of [2^1024] and more, which binary64 turns into [Infinity], are not
    modelled: rates are at most 1 and counts and years are small. *)

From Stdlib Require Import ZArith QArith Qround Qpower Qabs Lia Lqa Ascii String.
From stdpp Require Import base option list list_numbers strings pretty gmap sorting.

Local Open Scope Z_scope.

(** ** services/tmdb *)

Module Tmdb.

Record Window := { start : Z; end_ : Z }.

Record Celebrity := {
  id : Z;
  name : string;
  image_url : string;
  relevance_window : Window;
  occupation : string;
  popularity_score : Z;
  top_works : list string;
}.

Record TMDBKnownFor := {
  kf_id : Z;
  title : option string;
  kf_name : option string;
  release_date : option string;
  first_air_date : option string;
  media_type : string;
}.

(** [parseInt(s, 10)] on a string of ASCII characters: leading white
    space is skipped, one sign is accepted, then the longest run of
    decimal digits is read; [None] stands for [NaN]. *)
Definition isWhiteSpace (c : ascii) : bool :=
  let n := Z.of_nat (nat_of_ascii c) in
  (n =? 32) || ((9 <=? n) && (n <=? 13)).

Fixpoint skipWhiteSpace (s : string) : string :=
  match s with
  | String c s' => if isWhiteSpace c then skipWhiteSpace s' else s
  | EmptyString => s
  end.

Definition digitValue (c : ascii) : option Z :=
  let n := Z.of_nat (nat_of_ascii c) in
  if (48 <=? n) && (n <=? 57) then Some (n - 48) else None.

Fixpoint readDigits (s : string) (acc : option Z) : option Z :=
  match s with
  | String c s' =>
      match digitValue c with
      | Some d => readDigits s' (Some (10 * default 0 acc + d))
      | None => acc
      end
  | EmptyString => acc
  end.

Definition parseInt (s : string) : option Z :=
  match skipWhiteSpace s with
  | String "+" r => readDigits r None
  | String "-" r => Z.opp <$> readDigits r None
  | r => readDigits r None
  end.

(** [dateStr.split('-')[0]] *)
Fixpoint firstSegment (s : string) : string :=
  match s with
  | String c s' => if Ascii.eqb c "-" then EmptyString else String c (firstSegment s')
  | EmptyString => EmptyString
  end.

Definition getYear (dateStr : option string) : option Z :=
  match dateStr with
  | None => None
  | Some EmptyString => None
  | Some s => parseInt (firstSegment s)
  end.

(** [a || b] on [number | null]: [null] and [0] are falsy. *)
Definition orElse (a b : option Z) : option Z :=
  match a with
  | Some y => if y =? 0 then b else a
  | None => b
  end.

Definition workYear (work : TMDBKnownFor) : option Z :=
  orElse (getYear (release_date work)) (getYear (first_air_date work)).

(** The [for (const work of knownFor)] loop: [years.push(year)] for the
    truthy years within [[1920, currentYear]]. *)
Definition collectYears (currentYear : Z) (knownFor : list TMDBKnownFor) : list Z :=
  foldl (fun years work =>
           match workYear work with
           | Some year =>
               if negb (year =? 0) && (1920 <=? year) && (year <=? currentYear)
               then years ++ [year] else years
           | None => years
           end) [] knownFor.

(** The constants [start] and [end] of the source, computed from the
    non-empty [years] array [y :: ys] ([Math.min(...years)] and
    [Math.max(...years)] are folds over its elements). *)
Definition clampedWindow (currentYear y : Z) (ys : list Z) : Window :=
  let minYear := foldl Z.min y ys in
  let maxYear := foldl Z.max y ys in
  {| start := Z.max 1950 (minYear - 3);
     end_ := Z.min currentYear (maxYear + 3) |}.

(** [currentYear] is what [getCurrentYear()] returns at the call;
    [None] is the source's [null]. *)
Definition estimateRelevanceWindow (currentYear : Z) (knownFor : list TMDBKnownFor)
  : option Window :=
  match collectYears currentYear knownFor with
  | [] => None
  | y :: ys =>
      let w := clampedWindow currentYear y ys in
      if end_ w - start w <? 5 then
        let mid := (start w + end_ w) `div` 2 in
        Some {| start := mid - 3; end_ := mid + 3 |}
      else Some w
  end.

End Tmdb.

(** ** routes/api *)

Module Api.
Import Tmdb.

Inductive Status := Intro | Playing | Reveal | Results.

Record Response := {
  celebrityId : Z;
  recognized : bool;
  timestamp : string;
}.

(** A row of the [sessions] table, with its two JSON columns parsed. *)
Record Session := {
  status : Status;
  celebrities : list Celebrity;
  current_index : nat;
  responses : list Response;
  completed_at : option string;
}.

Inductive Reply (A : Type) :=
| Json (body : A)
| Error (code : Z) (message : string).
Arguments Json {A} body.
Arguments Error {A} code message.

Record RespondBody := {
  revealed : Celebrity;
  rb_recognized : bool;
  nextIndex : nat;
  isComplete : bool;
  nextCelebrity : option Celebrity;
}.

(** [POST /session/:id/respond].  [now] is [new Date().toISOString()];
    the result is the reply together with the table after the request.
    Reading [celebrities[currentIndex].id] past the array throws, which
    the framework answers with status 500. *)
Definition respond (now : string) (db : gmap string Session)
    (sessionId : string) (body_recognized : bool)
  : Reply RespondBody * gmap string Session :=
  match db !! sessionId with
  | None => (Error 404 "Session not found", db)
  | Some result =>
      let celebrities := celebrities result in
      let currentIndex := current_index result in
      let responses := responses result in
      if bool_decide (length celebrities ≤ currentIndex)%nat then
        (Error 400 "Session already complete", db)
      else
        match celebrities !! currentIndex with
        | None => (Error 500 "Internal Server Error", db)
        | Some currentCelebrity =>
            let responses :=
              responses ++ [{| celebrityId := id currentCelebrity;
                               recognized := body_recognized;
                               timestamp := now |}] in
            let nextIndex := (currentIndex + 1)%nat in
            let isComplete := bool_decide (length celebrities ≤ nextIndex)%nat in
            (Json {| revealed := currentCelebrity;
                     rb_recognized := body_recognized;
                     nextIndex := nextIndex;
                     isComplete := isComplete;
                     nextCelebrity :=
                       if isComplete then None else celebrities !! nextIndex |},
             <[sessionId :=
                 {| status := if isComplete then Results else Playing;
                    celebrities := celebrities;
                    current_index := nextIndex;
                    responses := responses;
                    completed_at := if isComplete then Some now else None |}]> db)
        end
  end.

(** The row [POST /session/start] inserts for the selected celebrities. *)
Definition newSession (selected : list Celebrity) : Session :=
  {| status := Playing; celebrities := selected; current_index := 0;
     responses := []; completed_at := None |}.

(** Rows the server can hold: inserted by [start] (at least five
    celebrities), then rewritten by [respond]. *)
Inductive stored : Session → Prop :=
| stored_start selected :
    (5 ≤ length selected)%nat → stored (newSession selected)
| stored_respond now db sessionId recognized s s' :
    stored s →
    db !! sessionId = Some s →
    (respond now db sessionId recognized).2 !! sessionId = Some s' →
    stored s'.

(** *** [GET /session/:id/results] *)

(** A loop whose body may fail. *)
Fixpoint foldlM {A B : Type} (f : B → A → option B) (b : B) (l : list A)
  : option B :=
  match l with
  | [] => Some b
  | a :: l => b' ← f b a; foldlM f b' l
  end.

(** [a / b]; [None] when JavaScript would produce [NaN] or [Infinity]. *)
Definition jsdiv (a b : Q) : option Q :=
  if Qeq_bool b 0 then None else Some (a / b)%Q.

Definition Qltb (a b : Q) : bool := negb (Qle_bool b a).

(** [Math.round]: the nearest integer, halves towards [+∞]. *)
Definition mathRound (x : Q) : Z := Qfloor (x + (1 # 2))%Q.

(** [Math.max(...xs)] and [Math.min(...xs)]; [None] on no argument,
    where JavaScript gives [-Infinity] and [Infinity]. *)
Definition mathMax (xs : list Z) : option Z :=
  match xs with [] => None | x :: xs => Some (foldl Z.max x xs) end.
Definition mathMin (xs : list Z) : option Z :=
  match xs with [] => None | x :: xs => Some (foldl Z.min x xs) end.
Definition Qmax (a b : Q) : Q := if Qle_bool a b then b else a.
Definition mathMaxQ (xs : list Q) : option Q :=
  match xs with [] => None | x :: xs => Some (foldl Qmax x xs) end.

Record Score := { sc_recognized : Z; sc_total : Z }.

(** [yearScores]: an object with integer keys, which JavaScript
    enumerates in ascending key order; here the list of its entries in
    that order. *)
Definition initYearScores (currentYear : Z) : list (Z * Score) :=
  (λ year, (year, {| sc_recognized := 0; sc_total := 0 |}))
    <$> seqZ 1950 (currentYear - 1950 + 1).

(** The body of the inner loop: [if (yearScores[year]) { ... }]. *)
Definition bump (recognized : bool) (yearScores : list (Z * Score)) (year : Z)
  : list (Z * Score) :=
  (λ e, if e.1 =? year
        then (e.1, {| sc_recognized := if recognized then sc_recognized e.2 + 1
                                       else sc_recognized e.2;
                      sc_total := sc_total e.2 + 1 |})
        else e) <$> yearScores.

Definition tallyResponse (celebrities : list Celebrity)
    (yearScores : list (Z * Score)) (response : Response) : list (Z * Score) :=
  match List.find (λ c, id c =? celebrityId response) celebrities with
  | None => yearScores
  | Some celeb =>
      let w := relevance_window celeb in
      foldl (bump (recognized response)) yearScores
            (seqZ (start w) (end_ w - start w + 1))
  end.

Definition tally (currentYear : Z) (celebrities : list Celebrity)
    (responses : list Response) : list (Z * Score) :=
  foldl (tallyResponse celebrities) (initYearScores currentYear) responses.

Record Point := { year : Z; rate : Q; sampleSize : Z }.
Record SPoint := { s_year : Z; s_rate : Q }.

Definition toDistribution (yearScores : list (Z * Score)) : option (list Point) :=
  foldlM (λ distribution e,
            let scores := e.2 in
            if 0 <? sc_total scores then
              r ← jsdiv (inject_Z (sc_recognized scores)) (inject_Z (sc_total scores));
              Some (distribution ++
                      [{| year := e.1; rate := r; sampleSize := sc_total scores |}])
            else Some distribution)
         [] yearScores.

(** The callback of [distribution.map((point, i) => ...)]. *)
Definition smoothPoint (distribution : list Point) (i : nat) (point : Point)
  : option SPoint :=
  let windowSize := 5 in
  let half := windowSize `div` 2 in
  let windowStart := Z.max 0 (Z.of_nat i - half) in
  let windowEnd := Z.min (Z.of_nat (length distribution) - 1) (Z.of_nat i + half) in
  acc ← foldlM (λ (acc : Z * Q) j,
                  d ← distribution !! Z.to_nat j;
                  let weight := sampleSize d in
                  Some (acc.1 + weight, (acc.2 + rate d * inject_Z weight)%Q))
               (0, 0%Q) (seqZ windowStart (windowEnd - windowStart + 1));
  let totalWeight := acc.1 in
  let weightedSum := acc.2 in
  r ← (if 0 <? totalWeight then jsdiv weightedSum (inject_Z totalWeight)
       else Some 0%Q);
  Some {| s_year := year point; s_rate := r |}.

Definition smooth (distribution : list Point) : option (list SPoint) :=
  mapM (λ ip, smoothPoint distribution ip.1 ip.2) (imap pair distribution).

Record DecadeStats := { d_total : Z; d_sum : Q }.

Definition decadeLabel (year : Z) : string :=
  pretty (year `div` 10 * 10) +:+ "s".

(** [decadeRates]: an object with string keys, enumerated in insertion
    order; here the list of its entries in that order. *)
Definition addToDecade (decadeRates : list (string * DecadeStats)) (point : SPoint)
  : list (string * DecadeStats) :=
  let decade := decadeLabel (s_year point) in
  let decadeRates :=
    if bool_decide (decade ∈ decadeRates.*1) then decadeRates
    else decadeRates ++ [(decade, {| d_total := 0; d_sum := 0 |})] in
  (λ e, if String.eqb e.1 decade
        then (e.1, {| d_total := d_total e.2 + 1;
                      d_sum := (d_sum e.2 + s_rate point)%Q |})
        else e) <$> decadeRates.

Definition decadeRatesOf (smoothed : list SPoint) : list (string * DecadeStats) :=
  foldl addToDecade [] smoothed.

Definition peakStep (peak : string * Q) (e : string * DecadeStats)
  : option (string * Q) :=
  avgRate ← (if 0 <? d_total e.2 then jsdiv (d_sum e.2) (inject_Z (d_total e.2))
             else Some 0%Q);
  Some (if Qltb peak.2 avgRate then (e.1, avgRate) else peak).

Definition peakDecadeOf (smoothed : list SPoint) : option string :=
  fst <$> foldlM peakStep ("1990s", 0%Q) (decadeRatesOf smoothed).

Definition centerOfGravityOf (currentYear : Z) (distribution : list Point)
  : option Z :=
  let acc := foldl (λ (acc : Q * Q) point,
                      let weight := (rate point * inject_Z (sampleSize point))%Q in
                      ((acc.1 + weight)%Q,
                       (acc.2 + inject_Z (year point) * weight)%Q))
                   (0%Q, 0%Q) distribution in
  let totalWeight := acc.1 in
  let weightedYearSum := acc.2 in
  if Qltb 0 totalWeight then mathRound <$> jsdiv weightedYearSum totalWeight
  else Some currentYear.

Definition overallRateOf (responses : list Response) : option Q :=
  let totalRecognized := length (filter (λ r, recognized r = true) responses) in
  if (0 <? length responses)%nat
  then jsdiv (inject_Z (Z.of_nat totalRecognized))
             (inject_Z (Z.of_nat (length responses)))
  else Some 0%Q.

Definition breadthOf (distribution : list Point) : option Z :=
  peakRate ← mathMaxQ ((rate <$> distribution) ++ [1 # 100]%Q);
  let threshold := (peakRate * (1 # 2))%Q in
  let yearsAboveThreshold :=
    year <$> filter (λ d, Qle_bool threshold (rate d) = true) distribution in
  if (0 <? length yearsAboveThreshold)%nat then
    hi ← mathMax yearsAboveThreshold;
    lo ← mathMin yearsAboveThreshold;
    Some (hi - lo)
  else Some 0.

(** [xs.length > 0 ? xs.reduce((s, d) => s + d.rate, 0) / xs.length : 0] *)
Definition meanRate (xs : list SPoint) : option Q :=
  if (0 <? length xs)%nat
  then jsdiv (foldl (λ s d, (s + s_rate d)%Q) 0%Q xs)
             (inject_Z (Z.of_nat (length xs)))
  else Some 0%Q.

Definition nostalgiaIndexOf (smoothed : list SPoint) : option Q :=
  let pre2000 := filter (λ d, s_year d < 2000) smoothed in
  let post2000 := filter (λ d, 2000 ≤ s_year d) smoothed in
  pre2000Avg ← meanRate pre2000;
  post2000Avg ← meanRate post2000;
  if Qltb 0 post2000Avg then jsdiv pre2000Avg post2000Avg else Some 1%Q.

Record Metrics := {
  peakDecade : string;
  centerOfGravity : Z;
  breadth : Z;
  overallRate : Z;
  nostalgiaIndex : Q;
}.

Record ResultsBody := {
  rs_distribution : list SPoint;
  metrics : Metrics;
  rs_celebrities : list Celebrity;
  rs_responses : list Response;
}.

(** The raw distribution of a session, [distribution] in the source. *)
Definition rawDistribution (currentYear : Z) (celebrities : list Celebrity)
    (responses : list Response) : option (list Point) :=
  toDistribution (tally currentYear celebrities responses).

(** The computation of the results route after the row is read;
    [currentYear] is [new Date().getFullYear()]. *)
Definition computeResults (currentYear : Z) (celebrities : list Celebrity)
    (responses : list Response) : option ResultsBody :=
  distribution ← rawDistribution currentYear celebrities responses;
  smoothed ← smooth distribution;
  peakDecade ← peakDecadeOf smoothed;
  centerOfGravity ← centerOfGravityOf currentYear distribution;
  overallRate ← overallRateOf responses;
  breadth ← breadthOf distribution;
  nostalgiaIndex ← nostalgiaIndexOf smoothed;
  rounded ← jsdiv (inject_Z (mathRound (nostalgiaIndex * 10)%Q)) 10%Q;
  Some {| rs_distribution := smoothed;
          metrics := {| peakDecade := peakDecade;
                        centerOfGravity := centerOfGravity;
                        breadth := breadth;
                        overallRate := mathRound (overallRate * 100)%Q;
                        nostalgiaIndex := rounded |};
          rs_celebrities := celebrities;
          rs_responses := responses |}.

Definition results (currentYear : Z) (db : gmap string Session) (sessionId : string)
  : option (Reply ResultsBody) :=
  match db !! sessionId with
  | None => Some (Error 404 "Session not found")
  | Some result =>
      Json <$> computeResults currentYear (celebrities result) (responses result)
  end.

End Api.

(** ** frontend/App *)

Module App.
Import Tmdb.
Export Api (Status, Intro, Playing, Reveal, Results, Response).

Record GameState := {
  sessionId : option string;
  status : Status;
  celebrities : list Celebrity;
  currentIndex : nat;
  responses : list Response;
  currentCelebrity : option Celebrity;
  lastResponse : option bool;
}.

(** The two pieces of React state the answer handlers read and write:
    [state] and the [localResponses] map from celebrity id to answer. *)
Record Client := {
  state : GameState;
  localResponses : gmap Z bool;
}.

(** [submitResponse(recognized)]: record the answer locally, then
    transition to reveal. *)
Definition submitResponse (recognized : bool) (c : Client) : Client :=
  match currentCelebrity (state c) with
  | None => c
  | Some celeb =>
      let prev := state c in
      {| state := {| sessionId := sessionId prev;
                     status := Reveal;
                     celebrities := celebrities prev;
                     currentIndex := currentIndex prev;
                     responses := responses prev;
                     currentCelebrity := currentCelebrity prev;
                     lastResponse := Some recognized |};
         localResponses := <[id celeb := recognized]> (localResponses c) |}
  end.

(** [changeAnswer()]: from reveal back to playing. *)
Definition changeAnswer (c : Client) : Client :=
  let prev := state c in
  {| state := {| sessionId := sessionId prev;
                 status := Playing;
                 celebrities := celebrities prev;
                 currentIndex := currentIndex prev;
                 responses := responses prev;
                 currentCelebrity := currentCelebrity prev;
                 lastResponse := None |};
     localResponses := localResponses c |}.

(** The state [startGame] sets from a successful reply [data] of the
    start request. *)
Definition startedClient (dataSessionId : string) (dataCelebrities : list Celebrity)
  : Client :=
  {| state := {| sessionId := Some dataSessionId;
                 status := Playing;
                 celebrities := dataCelebrities;
                 currentIndex := 0;
                 responses := [];
                 currentCelebrity := dataCelebrities !! 0%nat;
                 lastResponse := None |};
     localResponses := ∅ |}.

(** What a navigation handler does: it sets a new state, it hands over
    to [completeGame], or it throws on reading [.id] of [undefined]. *)
Inductive Outcome :=
| Done (c : Client)
| CompleteGame
| TypeError.

(** The state both navigation handlers set for the figure [celeb] at
    [index]: reveal when an answer is already stored for it. *)
Definition showFigure (c : Client) (index : nat) (celeb : Celebrity) : Client :=
  let prev := state c in
  let existingAnswer := localResponses c !! id celeb in
  {| state := {| sessionId := sessionId prev;
                 status := match existingAnswer with
                           | Some _ => Reveal
                           | None => Playing
                           end;
                 celebrities := celebrities prev;
                 currentIndex := index;
                 responses := responses prev;
                 currentCelebrity := Some celeb;
                 lastResponse := existingAnswer |};
     localResponses := localResponses c |}.

(** [nextCelebrity()] *)
Definition nextCelebrity (c : Client) : Outcome :=
  let nextIndex := (currentIndex (state c) + 1)%nat in
  if bool_decide (length (celebrities (state c)) ≤ nextIndex)%nat then CompleteGame
  else
    match celebrities (state c) !! nextIndex with
    | None => TypeError
    | Some nextCeleb => Done (showFigure c nextIndex nextCeleb)
    end.

(** [goBack()] *)
Definition goBack (c : Client) : Outcome :=
  if bool_decide (currentIndex (state c) ≤ 0)%nat then Done c
  else
    let prevIndex := (currentIndex (state c) - 1)%nat in
    match celebrities (state c) !! prevIndex with
    | None => TypeError
    | Some prevCeleb => Done (showFigure c prevIndex prevCeleb)
    end.

Record LocalResponse := {
  lr_celebrityId : Z;
  lr_recognized : bool;
}.

(** The [responses] array [completeGame] sends: one entry per figure,
    [localResponses.get(celeb.id) ?? false]. *)
Definition buildResponses (c : Client) : list LocalResponse :=
  (λ celeb, {| lr_celebrityId := id celeb;
               lr_recognized := default false (localResponses c !! id celeb) |})
    <$> celebrities (state c).

End App.

(** ** services/tmdb, continued: figures and their selection *)

Module Figures.
Import Tmdb.
Import Api (mathRound).

Record TMDBPerson := {
  p_id : Z;
  p_name : string;
  profile_path : option string;
  popularity : Q;
  known_for_department : string;
  known_for : option (list TMDBKnownFor);
}.

(** [a || b] on strings that may be undefined: the empty string is
    falsy. *)
Definition orString (a b : option string) : option string :=
  match a with
  | Some EmptyString | None => b
  | Some _ => a
  end.

(** [known_for.map(w => w.title || w.name).filter(name => !!name)
    .slice(0, 3)] *)
Definition topWorksOf (knownFor : list TMDBKnownFor) : list string :=
  take 3 (omap (λ w, match orString (title w) (kf_name w) with
                     | Some EmptyString | None => None
                     | Some s => Some s
                     end) knownFor).

(** [buildCelebrityFromPerson]; [None] is the source's [null].  The
    template string prints a [null] profile path as the text null. *)
Definition buildCelebrityFromPerson (currentYear : Z) (person : TMDBPerson)
  : option Celebrity :=
  match known_for person with
  | None | Some [] => None
  | Some knownFor =>
      match estimateRelevanceWindow currentYear knownFor with
      | None => None
      | Some window =>
          let topWorks := topWorksOf knownFor in
          if bool_decide (length topWorks = 0)%nat then None
          else
            let popularityScore := Z.min 100 (mathRound (popularity person)) in
            Some {| id := p_id person;
                    name := p_name person;
                    image_url := "https://image.tmdb.org/t/p/w500"
                                 +:+ default "null" (profile_path person);
                    relevance_window := window;
                    occupation := match known_for_department person with
                                  | EmptyString => "Actor"
                                  | s => s
                                  end;
                    popularity_score := popularityScore;
                    top_works := topWorks |}
      end
  end.

(** Truthiness of a string that may be null or undefined. *)
Definition truthy (s : option string) : bool :=
  match s with
  | Some EmptyString | None => false
  | Some _ => true
  end.

(** The part of [fetchPopularPeople] after the pages are fetched:
    [people.push(...data.results)] for each page, then
    [people.filter(p => p.profile_path)]. *)
Definition popularPeople (pages : list (list TMDBPerson)) : list TMDBPerson :=
  filter (λ p, truthy (profile_path p) = true) (concat pages).

(** [[result[i], result[j]] = [result[j], result[i]]] on an array both
    of whose indices are in range; [None] outside that, where the
    JavaScript array would get holes. *)
Definition swap {T : Type} (result : list T) (i j : nat) : option (list T) :=
  a ← result !! i;
  b ← result !! j;
  Some (<[j := a]> (<[i := b]> result)).

(** The loop of [shuffle] from index [i] down to 1.  [rand k] is the
    value of the [k]-th call of [Math.random()]; [calls] counts the calls
    made so far. *)
Fixpoint shuffleLoop {T : Type} (rand : nat → Q) (calls : nat) (i : nat)
    (result : list T) : option (list T) :=
  match i with
  | O => Some result
  | S i' =>
      let j := Qfloor (rand calls * inject_Z (Z.of_nat i + 1))%Q in
      if 0 <=? j then
        result' ← swap result i (Z.to_nat j);
        shuffleLoop rand (S calls) i' result'
      else None
  end.

Definition shuffle {T : Type} (rand : nat → Q) (array : list T) : option (list T) :=
  shuffleLoop rand 0 (length array - 1) array.

Definition selectCelebritiesForSession (rand : nat → Q)
    (celebrities : list Celebrity) (count : nat) : option (list Celebrity) :=
  shuffled ← shuffle rand celebrities;
  Some (take (Nat.min count (length shuffled)) shuffled).

End Figures.

(** ** routes/api, continued: starting and reading a session *)

Module Routes.
Import Tmdb Api Figures.

Record StartBody := {
  sb_sessionId : string;
  totalCelebrities : nat;
  sb_currentIndex : nat;
  celebrity : option Celebrity;
}.

(** [POST /session/start].  [fetched] is what [fetchPopularPeople]
    obtained, [None] when it throws; [uuid] is [crypto.randomUUID()].
    The insert throws when the id is already a key of the table (it is
    the primary key); every exception is answered by the [catch] block.
    The result is [None] only where [shuffle] is. *)
Definition start (currentYear : Z) (fetched : option (list (list TMDBPerson)))
    (rand : nat → Q) (uuid : string) (db : gmap string Session)
  : option (Reply StartBody * gmap string Session) :=
  match fetched with
  | None => Some (Error 500 "Failed to start session", db)
  | Some pages =>
      let people := popularPeople pages in
      let celebrities := omap (buildCelebrityFromPerson currentYear) people in
      selected ← selectCelebritiesForSession rand celebrities 40;
      if bool_decide (length selected < 5)%nat then
        Some (Error 500 "Not enough celebrity data available", db)
      else
        match db !! uuid with
        | Some _ => Some (Error 500 "Failed to start session", db)
        | None =>
            Some (Json {| sb_sessionId := uuid;
                          totalCelebrities := length selected;
                          sb_currentIndex := 0;
                          celebrity := selected !! 0%nat |},
                  <[uuid := newSession selected]> db)
        end
  end.

Record SessionBody := {
  gs_sessionId : string;
  gs_status : Status;
  gs_totalCelebrities : nat;
  gs_currentIndex : nat;
  gs_celebrity : option Celebrity;
  gs_responses : list Response;
}.

(** [GET /session/:id] *)
Definition getSession (db : gmap string Session) (sessionId : string)
  : Reply SessionBody :=
  match db !! sessionId with
  | None => Error 404 "Session not found"
  | Some result =>
      let celebrities := celebrities result in
      let currentIndex := current_index result in
      Json {| gs_sessionId := sessionId;
              gs_status := status result;
              gs_totalCelebrities := length celebrities;
              gs_currentIndex := currentIndex;
              gs_celebrity := if bool_decide (currentIndex < length celebrities)%nat
                              then celebrities !! currentIndex else None;
              gs_responses := responses result |}
  end.

End Routes.

(** ** frontend: the decade chart of the results screen *)

Module Chart.
Import Api.

(** [decadeData]: an object with string keys; here its entries in
    insertion order.  The step of the loop of [calculateDecadeAverages]. *)
Definition addRate (decadeData : list (string * list Q)) (point : SPoint)
  : list (string * list Q) :=
  let decade := decadeLabel (s_year point) in
  let decadeData :=
    if bool_decide (decade ∈ decadeData.*1) then decadeData
    else decadeData ++ [(decade, [])] in
  (λ e, if String.eqb e.1 decade then (e.1, e.2 ++ [s_rate point]) else e)
    <$> decadeData.

Definition decadeDataOf (distribution : list SPoint) : list (string * list Q) :=
  foldl addRate [] distribution.

Definition decades : list string :=
  ["1960s"; "1970s"; "1980s"; "1990s"; "2000s"; "2010s"; "2020s"].

(** [decadeData[d] || []] *)
Definition ratesOf (decadeData : list (string * list Q)) (d : string) : list Q :=
  match List.find (λ e, String.eqb e.1 d) decadeData with
  | Some e => e.2
  | None => []
  end.

(** [rates.length > 0 ? rates.reduce((a, b) => a + b, 0) / rates.length : 0] *)
Definition average (rates : list Q) : option Q :=
  if (0 <? length rates)%nat
  then jsdiv (foldl Qplus 0%Q rates) (inject_Z (Z.of_nat (length rates)))
  else Some 0%Q.

Definition decadeAverages (distribution : list SPoint) : option (list Q) :=
  mapM (λ d, average (ratesOf (decadeDataOf distribution) d)) decades.

(** [calculateBarHeights] *)
Definition calculateBarHeights (decadeAverages : list Q) : option (list Q) :=
  maxRate ← mathMaxQ (decadeAverages ++ [1 # 10]%Q);
  mapM (λ avg, q ← jsdiv avg maxRate; Some (Qmax (q * 100) 4)%Q) decadeAverages.

End Chart.

(** ** routes/api: the metrics in binary64 arithmetic *)

Module Binary64.
Import Tmdb Api.

(** [floor (log2 x)] for a positive [x]. *)
Definition ilog2 (x : Q) : Z :=
  let k := Z.log2 (Qnum x) - Z.log2 (Z.pos (Qden x)) in
  if Qle_bool (2 ^ k) x then k else k - 1.

(** The integer nearest to [x], the even one of the two at a half. *)
Definition roundHalfEven (x : Q) : Z :=
  let f := Qfloor x in
  let r := (x - inject_Z f)%Q in
  if Qltb r (1 # 2) then f
  else if Qltb (1 # 2) r then f + 1
  else if Z.even f then f else f + 1.

(** The binary64 value nearest to [x]: a significand of 53 bits, an
    exponent of the last place of at least [-1074], halves to the even
    significand. *)
Definition fl (x : Q) : Q :=
  if Qeq_bool x 0 then 0%Q
  else
    let e := Z.max (-1074) (ilog2 (Qabs x) - 52) in
    (inject_Z (roundHalfEven (x / 2 ^ e)) * 2 ^ e)%Q.
Arguments fl : simpl never.

(** [a + b], [a * b] and [a / b] on numbers. *)
Definition add (a b : Q) : Q := fl (a + b).
Definition mul (a b : Q) : Q := fl (a * b).
Definition div (a b : Q) : option Q :=
  if Qeq_bool b 0 then None else Some (fl (a / b)).

Definition toDistribution (yearScores : list (Z * Score)) : option (list Point) :=
  foldlM (λ distribution e,
            let scores := e.2 in
            if 0 <? sc_total scores then
              r ← div (inject_Z (sc_recognized scores)) (inject_Z (sc_total scores));
              Some (distribution ++
                      [{| year := e.1; rate := r; sampleSize := sc_total scores |}])
            else Some distribution)
         [] yearScores.

Definition smoothPoint (distribution : list Point) (i : nat) (point : Point)
  : option SPoint :=
  let windowSize := 5 in
  let half := windowSize `div` 2 in
  let windowStart := Z.max 0 (Z.of_nat i - half) in
  let windowEnd := Z.min (Z.of_nat (length distribution) - 1) (Z.of_nat i + half) in
  acc ← foldlM (λ (acc : Z * Q) j,
                  d ← distribution !! Z.to_nat j;
                  let weight := sampleSize d in
                  Some (acc.1 + weight,
                        add acc.2 (mul (rate d) (inject_Z weight))))
               (0, 0%Q) (seqZ windowStart (windowEnd - windowStart + 1));
  let totalWeight := acc.1 in
  let weightedSum := acc.2 in
  r ← (if 0 <? totalWeight then div weightedSum (inject_Z totalWeight)
       else Some 0%Q);
  Some {| s_year := year point; s_rate := r |}.

Definition smooth (distribution : list Point) : option (list SPoint) :=
  mapM (λ ip, smoothPoint distribution ip.1 ip.2) (imap pair distribution).

Definition addToDecade (decadeRates : list (string * DecadeStats)) (point : SPoint)
  : list (string * DecadeStats) :=
  let decade := decadeLabel (s_year point) in
  let decadeRates :=
    if bool_decide (decade ∈ decadeRates.*1) then decadeRates
    else decadeRates ++ [(decade, {| d_total := 0; d_sum := 0 |})] in
  (λ e, if String.eqb e.1 decade
        then (e.1, {| d_total := d_total e.2 + 1;
                      d_sum := add (d_sum e.2) (s_rate point) |})
        else e) <$> decadeRates.

Definition decadeRatesOf (smoothed : list SPoint) : list (string * DecadeStats) :=
  foldl addToDecade [] smoothed.

Definition peakStep (peak : string * Q) (e : string * DecadeStats)
  : option (string * Q) :=
  avgRate ← (if 0 <? d_total e.2 then div (d_sum e.2) (inject_Z (d_total e.2))
             else Some 0%Q);
  Some (if Qltb peak.2 avgRate then (e.1, avgRate) else peak).

Definition peakDecadeOf (smoothed : list SPoint) : option string :=
  fst <$> foldlM peakStep ("1990s", 0%Q) (decadeRatesOf smoothed).

Definition centerOfGravityOf (currentYear : Z) (distribution : list Point)
  : option Z :=
  let acc := foldl (λ (acc : Q * Q) point,
                      let weight := mul (rate point) (inject_Z (sampleSize point)) in
                      (add acc.1 weight,
                       add acc.2 (mul (inject_Z (year point)) weight)))
                   (0%Q, 0%Q) distribution in
  let totalWeight := acc.1 in
  let weightedYearSum := acc.2 in
  if Qltb 0 totalWeight then mathRound <$> div weightedYearSum totalWeight
  else Some currentYear.

Definition overallRateOf (responses : list Response) : option Q :=
  let totalRecognized := length (filter (λ r, recognized r = true) responses) in
  if (0 <? length responses)%nat
  then div (inject_Z (Z.of_nat totalRecognized))
           (inject_Z (Z.of_nat (length responses)))
  else Some 0%Q.

(** [distribution], [smoothed] and three of the metrics of the reply, as
    the route computes them from the row. *)
Definition rawDistribution (currentYear : Z) (celebrities : list Celebrity)
    (responses : list Response) : option (list Point) :=
  toDistribution (tally currentYear celebrities responses).

Definition smoothedDistribution (currentYear : Z) (celebrities : list Celebrity)
    (responses : list Response) : option (list SPoint) :=
  distribution ← rawDistribution currentYear celebrities responses;
  smooth distribution.

Definition peakDecade (currentYear : Z) (celebrities : list Celebrity)
    (responses : list Response) : option string :=
  smoothed ← smoothedDistribution currentYear celebrities responses;
  peakDecadeOf smoothed.

Definition centerOfGravity (currentYear : Z) (celebrities : list Celebrity)
    (responses : list Response) : option Z :=
  distribution ← rawDistribution currentYear celebrities responses;
  centerOfGravityOf currentYear distribution.

(** [Math.round(overallRate * 100)] *)
Definition overallRate (responses : list Response) : option Z :=
  overallRate ← overallRateOf responses;
  Some (mathRound (mul overallRate 100)).

End Binary64.

(** ** Sample data used by the examples *)

Module Sample.
Import Tmdb Api.

Definition movie (date : string) : TMDBKnownFor :=
  {| kf_id := 1; title := Some "Title"; kf_name := None;
     release_date := Some date; first_air_date := None;
     media_type := "movie" |}.

Definition celeb (i s e : Z) : Celebrity :=
  {| id := i; name := "Name"; image_url := "https://image.tmdb.org/t/p/w500/p.jpg";
     relevance_window := {| start := s; end_ := e |};
     occupation := "Acting"; popularity_score := 50; top_works := ["Title"] |}.

Definition answer (i : Z) (b : bool) : Response :=
  {| celebrityId := i; recognized := b; timestamp := "2024-01-01T00:00:00.000Z" |}.

(** Two recognised figures of 1975-1985 and an unrecognised one of
    1986-1992. *)
Definition figures : list Celebrity :=
  [celeb 1 1975 1985; celeb 2 1975 1985; celeb 3 1986 1992].
Definition answers : list Response :=
  [answer 1 true; answer 2 true; answer 3 false].

Definition five : list Celebrity :=
  [celeb 1 1975 1985; celeb 2 1975 1985; celeb 3 1986 1992;
   celeb 4 1990 2000; celeb 5 2015 2021].

Definition db0 : gmap string Session := {[ "s1" := newSession five ]}.

Definition finished : Session :=
  {| Api.status := Results; Api.celebrities := [celeb 1 1975 1985];
     current_index := 1; Api.responses := [answer 1 true];
     completed_at := Some "2024-01-01T00:00:00.000Z" |}.

Definition client0 : App.Client :=
  {| App.state := {| App.sessionId := Some "s1"; App.status := Playing;
                     App.celebrities := five; App.currentIndex := 0;
                     App.responses := [];
                     App.currentCelebrity := Some (celeb 1 1975 1985);
                     App.lastResponse := None |};
     App.localResponses := ∅ |}.

Definition person (i : Z) (path : option string) (works : list TMDBKnownFor)
  : Figures.TMDBPerson :=
  {| Figures.p_id := i; Figures.p_name := "Name"; Figures.profile_path := path;
     Figures.popularity := 1234 # 10;
     Figures.known_for_department := "Acting";
     Figures.known_for := Some works |}.


(** Three figures around the 1950s and their mirror images around the
    2000s, each pair with the same answer. *)
Definition mirrored : list Celebrity :=
  [celeb 1 1956 1962; celeb 2 1997 2003; celeb 3 1955 1961;
   celeb 4 1998 2004; celeb 5 1956 1965; celeb 6 1994 2003].
Definition mirroredAnswers : list Response :=
  [answer 1 false; answer 2 false; answer 3 true;
   answer 4 true; answer 5 false; answer 6 false].

End Sample.

(** ** Definitions used to state the properties *)

Module Spec.
Import Tmdb Api.

Definition Qsum (xs : list Q) : Q := foldr Qplus 0%Q xs.
Definition Zsum (xs : list Z) : Z := foldr Z.add 0 xs.

(** The raw distribution as a list comprehension over the entries of
    [yearScores]. *)
Definition pointsOf (yearScores : list (Z * Score)) : list Point :=
  e ← yearScores;
  if 0 <? sc_total e.2
  then [{| year := e.1;
           rate := (inject_Z (sc_recognized e.2) / inject_Z (sc_total e.2))%Q;
           sampleSize := sc_total e.2 |}]
  else [].

(** A figure with its relevance window cut down to
    [[1950, currentYear]]. *)
Definition clipWindow (currentYear : Z) (c : Celebrity) : Celebrity :=
  {| id := id c; name := name c; image_url := image_url c;
     relevance_window :=
       {| start := Z.max 1950 (start (relevance_window c));
          end_ := Z.min currentYear (end_ (relevance_window c)) |};
     occupation := occupation c; popularity_score := popularity_score c;
     top_works := top_works c |}.

(** One more answer counted in a year's score. *)
Definition count1 (recognized : bool) (e : Z * Score) : Z * Score :=
  (e.1, {| sc_recognized := if recognized then sc_recognized e.2 + 1
                            else sc_recognized e.2;
           sc_total := sc_total e.2 + 1 |}).

(** In every year the recognised count is between 0 and the total. *)
Definition scoreOk (e : Z * Score) : Prop :=
  0 ≤ sc_recognized e.2 ≤ sc_total e.2.

(** A point of a raw distribution: a year of [[1950, currentYear]], a
    positive sample size and a rate within [[0, 1]]. *)
Definition pointOk (currentYear : Z) (p : Point) : Prop :=
  1950 ≤ year p ≤ currentYear ∧ 0 < sampleSize p ∧ (0 <= rate p <= 1)%Q.

(** The step of the window loop of the smoothing. *)
Definition windowStep (distribution : list Point) (acc : Z * Q) (j : Z)
  : option (Z * Q) :=
  d ← distribution !! Z.to_nat j;
  let weight := sampleSize d in
  Some (acc.1 + weight, (acc.2 + rate d * inject_Z weight)%Q).

Definition rateOk (p : Point) : Prop :=
  0 ≤ sampleSize p ∧ (0 <= rate p <= 1)%Q.

(** The weight of a raw point in the centre of gravity, and the two
    sums the centre of gravity divides. *)
Definition weight (p : Point) : Q := (rate p * inject_Z (sampleSize p))%Q.
Definition totalWeightOf (distribution : list Point) : Q :=
  Qsum (weight <$> distribution).
Definition weightedYearSumOf (distribution : list Point) : Q :=
  Qsum ((λ p, inject_Z (year p) * weight p)%Q <$> distribution).

(** The breadth as the specification words it, over the smoothed
    series: the peak is the largest smoothed rate and at least 0.01,
    the threshold is half the peak, and the breadth is the distance
    between the last and the first year whose smoothed rate reaches the
    threshold, 0 when there is none. *)
Definition breadthOverSmoothed (smoothed : list SPoint) : Z :=
  let peakRate := foldr Qmax (1 # 100)%Q (s_rate <$> smoothed) in
  let threshold := ((1 # 2) * peakRate)%Q in
  match s_year <$> filter (λ q, Qle_bool threshold (s_rate q) = true) smoothed with
  | [] => 0
  | y :: ys => foldr Z.max y ys - foldr Z.min y ys
  end.

(** A raw point whose rate reaches the threshold [peakRate × 0.5]. *)
Definition aboveThreshold (distribution : list Point) (peakRate : Q) (p : Point)
  : Prop :=
  p ∈ distribution ∧ (peakRate * (1 # 2) <= rate p)%Q.

(** The points of a decade, and the mean smoothed rate of a decade. *)
Definition decadePoints (decade : string) (smoothed : list SPoint) : list SPoint :=
  filter (λ q, decadeLabel (s_year q) = decade) smoothed.

Definition decadeMean (decade : string) (smoothed : list SPoint) : Q :=
  (Qsum (s_rate <$> decadePoints decade smoothed)
   / inject_Z (Z.of_nat (length (decadePoints decade smoothed))))%Q.

(** The mean the peak loop computes from an entry of [decadeRates]. *)
Definition entryMean (e : string * DecadeStats) : Q :=
  if 0 <? d_total e.2 then (d_sum e.2 / inject_Z (d_total e.2))%Q else 0%Q.

(** What [decadeRates] holds once the points [smoothed] are added: a key
    for the decade of every point; under each key the number and the sum
    of the rates of the points of that decade; and the keys in the order
    in which their decades first occur in [smoothed]. *)
Definition decadeInv (smoothed : list SPoint) (decadeRates : list (string * DecadeStats))
  : Prop :=
  (∀ q, q ∈ smoothed → decadeLabel (s_year q) ∈ decadeRates.*1) ∧
  (∀ e, e ∈ decadeRates →
        0 < d_total e.2 ∧
        d_total e.2 = Z.of_nat (length (decadePoints e.1 smoothed)) ∧
        (d_sum e.2 == Qsum (s_rate <$> decadePoints e.1 smoothed))%Q) ∧
  (∀ i e, decadeRates !! i = Some e →
          ∃ s1 q s2, smoothed = s1 ++ q :: s2 ∧ decadeLabel (s_year q) = e.1 ∧
            ∀ q', q' ∈ s1 →
                  ∃ j e', (j < i)%nat ∧ decadeRates !! j = Some e' ∧
                          e'.1 = decadeLabel (s_year q')).

End Spec.

(** ** Further definitions used to state properties *)

Module SpecMore.
Import Tmdb Api Figures Spec.

(** The year hint of a work when the estimator keeps it. *)
Definition usableYear (currentYear : Z) (work : TMDBKnownFor) : option Z :=
  match workYear work with
  | Some year =>
      if negb (year =? 0) && (1920 <=? year) && (year <=? currentYear)
      then Some year else None
  | None => None
  end.

(** The response [respond] records for the figure [c]. *)
Definition responseFor (now : string) (c : Celebrity) (recognized : bool) : Response :=
  {| celebrityId := id c; recognized := recognized; timestamp := now |}.

(** The table after one [respond] request per answer, in order. *)
Definition respondAll (now : string) (db : gmap string Session) (sessionId : string)
    (answers : list bool) : gmap string Session :=
  foldl (λ db recognized, (respond now db sessionId recognized).2) db answers.

(** Whether the answer [r] is attributed to the year [y]: its figure is
    found and [y] is within the figure's relevance window. *)
Definition attributed (celebrities : list Celebrity) (y : Z) (r : Response) : bool :=
  match List.find (λ c, id c =? celebrityId r) celebrities with
  | Some celeb =>
      (start (relevance_window celeb) <=? y) && (y <=? end_ (relevance_window celeb))
  | None => false
  end.

(** The number of answers attributed to a year, and of the recognised
    ones among them. *)
Definition totalAt (celebrities : list Celebrity) (responses : list Response) (y : Z)
  : Z :=
  Z.of_nat (length (filter (λ r, attributed celebrities y r = true) responses)).

Definition recognizedAt (celebrities : list Celebrity) (responses : list Response)
    (y : Z) : Z :=
  Z.of_nat (length (filter (λ r, attributed celebrities y r = true ∧
                                 recognized r = true) responses)).

(** The points the smoothing of the point at index [i] averages: those
    at the indices [i − 2 .. i + 2] that exist. *)
Definition windowOf (distribution : list Point) (i : nat) : list Point :=
  take (Nat.min (length distribution - 1) (i + 2) - (i - 2) + 1)
       (drop (i - 2) distribution).

(** A client that shows a figure of its session: the current figure is
    the one at the current index, and answers are stored only under ids
    of figures of the session. *)
Definition clientOk (c : App.Client) : Prop :=
  (∃ celeb, App.currentCelebrity (App.state c) = Some celeb ∧
            App.celebrities (App.state c) !! App.currentIndex (App.state c)
            = Some celeb) ∧
  (∀ k, is_Some (App.localResponses c !! k) →
        k ∈ id <$> App.celebrities (App.state c)).

End SpecMore.

(** ** Definitions used to state the properties of the binary64 metrics *)

Module SpecBinary64.
Import Tmdb Api Spec.

(** A sum in binary64 arithmetic, the terms added from left to right. *)
Definition sumInOrder (xs : list Q) : Q := foldl Binary64.add 0%Q xs.

(** The raw distribution as a list comprehension, each rate the binary64
    quotient. *)
Definition computedPointsOf (yearScores : list (Z * Score)) : list Point :=
  e ← yearScores;
  if 0 <? sc_total e.2
  then [{| year := e.1;
           rate := Binary64.fl (inject_Z (sc_recognized e.2) / inject_Z (sc_total e.2));
           sampleSize := sc_total e.2 |}]
  else [].

(** The number of recognised answers. *)
Definition recognizedCount (responses : list Response) : Z :=
  Z.of_nat (length (filter (λ a, recognized a = true) responses)).


(** The mean smoothed rate of a decade as computed: the rates of its
    points added in the order of the series, then divided by their
    number. *)
Definition computedDecadeMean (decade : string) (smoothed : list SPoint) : Q :=
  Binary64.fl (sumInOrder (s_rate <$> decadePoints decade smoothed)
               / inject_Z (Z.of_nat (length (decadePoints decade smoothed)))).

Definition computedEntryMean (e : string * DecadeStats) : Q :=
  if 0 <? d_total e.2 then Binary64.fl (d_sum e.2 / inject_Z (d_total e.2))
  else 0%Q.

(** [decadeInv] for the sums in binary64 arithmetic. *)
Definition computedDecadeInv (smoothed : list SPoint)
    (decadeRates : list (string * DecadeStats)) : Prop :=
  (∀ q, q ∈ smoothed → decadeLabel (s_year q) ∈ decadeRates.*1) ∧
  (∀ e, e ∈ decadeRates →
        0 < d_total e.2 ∧
        d_total e.2 = Z.of_nat (length (decadePoints e.1 smoothed)) ∧
        d_sum e.2 = sumInOrder (s_rate <$> decadePoints e.1 smoothed)) ∧
  (∀ i e, decadeRates !! i = Some e →
          ∃ s1 q s2, smoothed = s1 ++ q :: s2 ∧ decadeLabel (s_year q) = e.1 ∧
            ∀ q', q' ∈ s1 →
                  ∃ j e', (j < i)%nat ∧ decadeRates !! j = Some e' ∧
                          e'.1 = decadeLabel (s_year q')).

End SpecBinary64.

(** * Properties *)

(** ** The relevance-window estimator *)

Section Estimator.
Import Tmdb.

Lemma collectYears_acc (currentYear : Z) (knownFor : list TMDBKnownFor) :
  ∀ acc : list Z,
    Forall (λ y, 1920 ≤ y ≤ currentYear) acc →
    Forall (λ y, 1920 ≤ y ≤ currentYear)
      (foldl (λ years work,
                match workYear work with
                | Some year =>
                    if negb (year =? 0) && (1920 <=? year) && (year <=? currentYear)
                    then years ++ [year] else years
                | None => years
                end) acc knownFor).
Proof.
  induction knownFor as [|work rest IH]; intros acc Hacc; simpl; [done|].
  apply IH. destruct (workYear work) as [year|]; [|done].
  destruct (negb (year =? 0) && (1920 <=? year) && (year <=? currentYear)) eqn:E;
    [|done].
  apply Forall_app; split; [done|]. apply Forall_singleton. lia.
Qed.

Lemma collectYears_range currentYear knownFor :
  Forall (λ y, 1920 ≤ y ≤ currentYear) (collectYears currentYear knownFor).
Proof. apply collectYears_acc. constructor. Qed.

Lemma foldl_min_range (lo hi : Z) (ys : list Z) :
  ∀ y, lo ≤ y ≤ hi → Forall (λ z, lo ≤ z ≤ hi) ys → lo ≤ foldl Z.min y ys ≤ hi.
Proof.
  induction ys as [|z ys IH]; intros y Hy Hys; simpl; [done|].
  inversion Hys; subst. apply IH; [lia|done].
Qed.

Lemma foldl_max_range (lo hi : Z) (ys : list Z) :
  ∀ y, lo ≤ y ≤ hi → Forall (λ z, lo ≤ z ≤ hi) ys → lo ≤ foldl Z.max y ys ≤ hi.
Proof.
  induction ys as [|z ys IH]; intros y Hy Hys; simpl; [done|].
  inversion Hys; subst. apply IH; [lia|done].
Qed.

Lemma foldl_min_le_max (ys : list Z) :
  ∀ a b, a ≤ b → foldl Z.min a ys ≤ foldl Z.max b ys.
Proof.
  induction ys as [|z ys IH]; intros a b Hab; simpl; [done|].
  apply IH. lia.
Qed.

(** C2, as stated, fails: for the single hint 2023 in 2024 the clamped
    window 2020-2024 is shorter than five years and is recentred to
    2019-2025, whose end lies after the current year. *)
Lemma estimate_window_exceeds_current_year :
  ∃ w, estimateRelevanceWindow 2024 [Sample.movie "2023-06-02"] = Some w ∧
       ¬ (start w ≤ end_ w ∧ (1950 ≤ start w ≤ 2024) ∧ (1950 ≤ end_ w ≤ 2024)).
Proof.
  exists {| start := 2019; end_ := 2025 |}. split; [reflexivity|].
  simpl. lia.
Qed.

(** C2 (amended): every window the estimator returns has
    [start ≤ end]; when the minimum-span branch is not taken (the
    clamped span is at least 5) it is the clamped window and both ends
    lie within [[1950, currentYear]]; when the branch is taken the
    window is [mid − 3 .. mid + 3], six years wide, it is not clamped
    again, and it lies within [[1932, max(1950, currentYear) + 3]]. *)
Theorem estimate_window_bounds (currentYear : Z) (knownFor : list TMDBKnownFor)
    (w : Window) :
  estimateRelevanceWindow currentYear knownFor = Some w →
  start w ≤ end_ w ∧
  ∃ y ys, collectYears currentYear knownFor = y :: ys ∧
    let c := clampedWindow currentYear y ys in
    (5 ≤ end_ c - start c →
       w = c ∧ (1950 ≤ start w ≤ currentYear) ∧ (1950 ≤ end_ w ≤ currentYear)) ∧
    (end_ c - start c < 5 →
       start w = (start c + end_ c) `div` 2 - 3 ∧ end_ w = start w + 6 ∧
       1932 ≤ start w ∧ end_ w ≤ Z.max 1950 currentYear + 3).
Proof.
  unfold estimateRelevanceWindow. intros Hw.
  pose proof (collectYears_range currentYear knownFor) as Hrange.
  destruct (collectYears currentYear knownFor) as [|y ys]; [done|].
  inversion Hrange as [|? ? Hy Hys]; subst.
  pose proof (foldl_min_range 1920 currentYear ys y Hy Hys) as Hmin.
  pose proof (foldl_max_range 1920 currentYear ys y Hy Hys) as Hmax.
  pose proof (foldl_min_le_max ys y y (Z.le_refl y)) as Hle.
  remember (clampedWindow currentYear y ys) as c eqn:Hc.
  assert (start c = Z.max 1950 (foldl Z.min y ys - 3)) as Hs by (by subst c).
  assert (end_ c = Z.min currentYear (foldl Z.max y ys + 3)) as He by (by subst c).
  pose proof (Z.div_mod (start c + end_ c) 2 ltac:(lia)) as Hdiv.
  pose proof (Z.mod_pos_bound (start c + end_ c) 2 ltac:(lia)) as Hmod.
  destruct (end_ c - start c <? 5) eqn:Hspan.
  - apply Z.ltb_lt in Hspan. injection Hw as <-. cbn [start end_].
    split; [lia|]. exists y, ys. split; [done|]. rewrite <- Hc. cbn [start end_].
    split; [lia|]. intros _. lia.
  - apply Z.ltb_ge in Hspan. injection Hw as <-.
    split; [lia|]. exists y, ys. split; [done|]. rewrite <- Hc. cbv zeta.
    split; [|lia]. intros _. split; [done|]. lia.
Qed.

Lemma estimate_window_bounds_witness :
  ∃ w, estimateRelevanceWindow 2024 [Sample.movie "2023-06-02"] = Some w ∧
       start w ≤ end_ w.
Proof.
  exists {| start := 2019; end_ := 2025 |}. split; [reflexivity|].
  exact (proj1 (estimate_window_bounds 2024 [Sample.movie "2023-06-02"]
                  {| start := 2019; end_ := 2025 |} eq_refl)).
Defined.

(** C4: a single work whose year hint is 1994, with current year 2024:
    the collected years are [[1994]], the clamped window is 1991-1997,
    its span 6 is not below 5, and the estimator returns 1991-1997. *)
Theorem estimate_scenario_1994 (work : TMDBKnownFor) :
  workYear work = Some 1994 →
  collectYears 2024 [work] = [1994] ∧
  clampedWindow 2024 1994 [] = {| start := 1991; end_ := 1997 |} ∧
  (1997 - 1991 <? 5) = false ∧
  estimateRelevanceWindow 2024 [work] = Some {| start := 1991; end_ := 1997 |}.
Proof.
  intros Hyear.
  assert (collectYears 2024 [work] = [1994]) as Hc.
  { unfold collectYears. simpl. by rewrite Hyear. }
  split; [done|]. split; [reflexivity|]. split; [reflexivity|].
  unfold estimateRelevanceWindow. by rewrite Hc.
Qed.

Lemma estimate_scenario_1994_witness :
  workYear (Sample.movie "1994-09-23") = Some 1994 ∧
  estimateRelevanceWindow 2024 [Sample.movie "1994-09-23"]
    = Some {| start := 1991; end_ := 1997 |}.
Proof.
  split; [reflexivity|].
  exact (proj2 (proj2 (proj2
           (estimate_scenario_1994 (Sample.movie "1994-09-23") eq_refl)))).
Defined.

End Estimator.

(** ** Submitting an answer: the stored session and the client *)

Section Sessions.
Import Tmdb Api.

Lemma respond_complete now (db : gmap string Session) sessionId recognized s :
  db !! sessionId = Some s →
  (length (celebrities s) ≤ current_index s)%nat →
  respond now db sessionId recognized = (Error 400 "Session already complete", db).
Proof.
  intros Hs Hdone. unfold respond. rewrite Hs.
  by rewrite bool_decide_eq_true_2.
Qed.

(** What [respond] writes when the current index is within the figures. *)
Lemma respond_record now (db : gmap string Session) sessionId recognized s c :
  db !! sessionId = Some s →
  celebrities s !! current_index s = Some c →
  (respond now db sessionId recognized).2 =
    <[sessionId :=
        {| status := if bool_decide (length (celebrities s) ≤ current_index s + 1)%nat
                     then Results else Playing;
           celebrities := celebrities s;
           current_index := (current_index s + 1)%nat;
           responses := responses s ++
                          [{| celebrityId := id c; recognized := recognized;
                              timestamp := now |}];
           completed_at :=
             if bool_decide (length (celebrities s) ≤ current_index s + 1)%nat
             then Some now else None |}]> db.
Proof.
  intros Hs Hc. unfold respond. rewrite Hs.
  apply lookup_lt_Some in Hc as Hlt.
  rewrite bool_decide_eq_false_2 by lia. by rewrite Hc.
Qed.

(** A stored row has status [results] exactly when its index has
    reached the number of figures, and is otherwise [playing]. *)
Lemma stored_status s :
  stored s →
  (current_index s ≤ length (celebrities s))%nat ∧
  status s = (if bool_decide (length (celebrities s) ≤ current_index s)%nat
              then Results else Playing).
Proof.
  induction 1 as [selected Hfive|now db sessionId recognized s s' Hst IH Hs Hs'].
  - simpl. split; [lia|]. by rewrite bool_decide_eq_false_2 by lia.
  - destruct IH as [Hle Hstatus].
    destruct (decide (length (celebrities s) ≤ current_index s)%nat) as [Hdone|Hgo].
    + rewrite (respond_complete _ _ _ _ s Hs Hdone) in Hs'. simpl in Hs'.
      by simplify_eq.
    + destruct (lookup_lt_is_Some_2 (celebrities s) (current_index s)) as [c Hc];
        [lia|].
      rewrite (respond_record _ _ _ _ s c Hs Hc), lookup_insert_eq in Hs'.
      injection Hs' as <-. simpl. split; [lia|].
      repeat case_bool_decide; done || lia.
Qed.

(** C5: a submission to a session that is already complete (the index
    has reached the number of figures, which for every stored row is
    the case exactly when its status is [results]) is rejected with
    status 400 "Session already complete", and the table, hence the
    stored session record, is left as it was. *)
Theorem respond_rejected_when_complete now (db : gmap string Session)
    sessionId recognized s :
  db !! sessionId = Some s →
  (length (celebrities s) ≤ current_index s)%nat ∨ (stored s ∧ status s = Results) →
  respond now db sessionId recognized = (Error 400 "Session already complete", db) ∧
  (respond now db sessionId recognized).2 !! sessionId = Some s.
Proof.
  intros Hs Hcase.
  assert (length (celebrities s) ≤ current_index s)%nat as Hdone.
  { destruct Hcase as [?|[Hst Hres]]; [done|].
    destruct (stored_status s Hst) as [_ Hstatus].
    rewrite Hres in Hstatus. by case_bool_decide. }
  rewrite (respond_complete _ _ _ _ s Hs Hdone). done.
Qed.

Lemma respond_rejected_when_complete_witness :
  respond "2024-01-02T00:00:00.000Z" {[ "s9" := Sample.finished ]} "s9" true
    = (Error 400 "Session already complete", {[ "s9" := Sample.finished ]}).
Proof.
  refine (proj1 (respond_rejected_when_complete _ {[ "s9" := Sample.finished ]}
                   "s9" true Sample.finished _ _)).
  - reflexivity.
  - left. simpl. lia.
Defined.

(** C3, as stated, fails on the stored session: a submission to a
    fresh session (status [playing], index 0) leaves the status
    [playing] and moves the index to 1. *)
Lemma respond_advances_index :
  ∃ s', (respond "2024-01-02T00:00:00.000Z" Sample.db0 "s1" true).2 !! "s1" = Some s' ∧
        status (newSession Sample.five) = Playing ∧
        ¬ (status s' = Reveal ∧
           current_index s' = current_index (newSession Sample.five)).
Proof.
  eexists. split; [|split].
  - rewrite (respond_record _ Sample.db0 "s1" true (newSession Sample.five)
               (Sample.celeb 1 1975 1985)); [|reflexivity|reflexivity].
    apply lookup_insert_eq.
  - reflexivity.
  - simpl. intros [? ?]. done.
Qed.

(** C3 (amended).  On the client, for a session in status [playing]
    whose current figure is the one at [currentIndex],
    [submitResponse] records or overwrites the local answer of that
    figure (no other answer changes), sets the status to [reveal] and
    leaves [currentIndex], the figures and the current figure as they
    were.  On the server, [respond] for a session whose index is within
    the figures appends a response for the figure at the index, moves
    the index forward by one and sets the status to [results] after
    the last figure and [playing] otherwise; other sessions are
    untouched. *)
Theorem submit_answer_effect :
  (∀ (recognized : bool) (c : App.Client) (celeb : Celebrity),
     App.status (App.state c) = Playing →
     App.currentCelebrity (App.state c) = Some celeb →
     App.celebrities (App.state c) !! App.currentIndex (App.state c) = Some celeb →
     let c' := App.submitResponse recognized c in
     App.localResponses c' !! id celeb = Some recognized ∧
     (∀ k, k ≠ id celeb → App.localResponses c' !! k = App.localResponses c !! k) ∧
     App.status (App.state c') = Reveal ∧
     App.currentIndex (App.state c') = App.currentIndex (App.state c) ∧
     App.celebrities (App.state c') = App.celebrities (App.state c) ∧
     App.currentCelebrity (App.state c') = Some celeb) ∧
  (∀ now (db : gmap string Session) sessionId (recognized : bool) s celeb,
     db !! sessionId = Some s →
     celebrities s !! current_index s = Some celeb →
     let db' := (respond now db sessionId recognized).2 in
     (∃ s', db' !! sessionId = Some s' ∧
            responses s' = responses s ++
                             [{| celebrityId := id celeb; recognized := recognized;
                                 timestamp := now |}] ∧
            current_index s' = (current_index s + 1)%nat ∧
            celebrities s' = celebrities s ∧
            status s' = (if bool_decide (current_index s + 1 =
                                           length (celebrities s))%nat
                         then Results else Playing)) ∧
     (∀ other, other ≠ sessionId → db' !! other = db !! other)).
Proof.
  split.
  - intros recognized c celeb Hplaying Hcur Hat. unfold App.submitResponse.
    rewrite Hcur. simpl. split; [apply lookup_insert_eq|].
    split; [|done]. intros k Hk. by apply lookup_insert_ne.
  - intros now db sessionId recognized s celeb Hs Hat. cbv zeta.
    rewrite (respond_record _ _ _ _ s celeb Hs Hat).
    apply lookup_lt_Some in Hat as Hlt. split.
    + eexists. split; [apply lookup_insert_eq|]. simpl.
      split; [done|]. split; [done|]. split; [done|].
      repeat case_bool_decide; done || lia.
    + intros other Hother. by apply lookup_insert_ne.
Qed.

Lemma submit_answer_effect_witness :
  App.status (App.state (App.submitResponse true Sample.client0)) = Reveal ∧
  App.currentIndex (App.state (App.submitResponse true Sample.client0)) = 0%nat.
Proof.
  pose proof (proj1 submit_answer_effect true Sample.client0
                (Sample.celeb 1 1975 1985) eq_refl eq_refl eq_refl) as H.
  exact (conj (proj1 (proj2 (proj2 H))) (proj1 (proj2 (proj2 (proj2 H))))).
Defined.

End Sessions.

(** ** The per-year tally and the raw distribution *)

Section Tally.
Import Tmdb Api Spec.

Lemma inject_Z_nonzero (z : Z) : z ≠ 0 → ¬ (inject_Z z == 0)%Q.
Proof. unfold Qeq. simpl. lia. Qed.

Lemma jsdiv_Some (a b : Q) : ¬ (b == 0)%Q → jsdiv a b = Some (a / b)%Q.
Proof.
  intros Hb. unfold jsdiv. destruct (Qeq_bool b 0) eqn:E; [|done].
  by apply Qeq_bool_iff in E.
Qed.

Lemma foldlM_cons {A B : Type} (f : B → A → option B) b a l :
  foldlM f b (a :: l) = f b a ≫= λ b', foldlM f b' l.
Proof. reflexivity. Qed.

Lemma jsdiv_inject_Z (a : Q) (z : Z) :
  0 < z → jsdiv a (inject_Z z) = Some (a / inject_Z z)%Q.
Proof. intros Hz. apply jsdiv_Some, inject_Z_nonzero. lia. Qed.

Lemma bump_keys recognized yearScores year :
  (bump recognized yearScores year).*1 = yearScores.*1.
Proof.
  unfold bump. rewrite <- list_fmap_compose. apply list_fmap_ext.
  intros _ e _. simpl. by destruct (e.1 =? year).
Qed.

Lemma foldl_bump_keys recognized years :
  ∀ yearScores, (foldl (bump recognized) yearScores years).*1 = yearScores.*1.
Proof.
  induction years as [|y years IH]; intros yearScores; simpl; [done|].
  by rewrite IH, bump_keys.
Qed.

Lemma tallyResponse_keys celebrities yearScores response :
  (tallyResponse celebrities yearScores response).*1 = yearScores.*1.
Proof.
  unfold tallyResponse. destruct (List.find _ celebrities); [|done].
  apply foldl_bump_keys.
Qed.

Lemma foldl_tally_keys celebrities responses :
  ∀ yearScores,
    (foldl (tallyResponse celebrities) yearScores responses).*1 = yearScores.*1.
Proof.
  induction responses as [|r responses IH]; intros yearScores; simpl; [done|].
  by rewrite IH, tallyResponse_keys.
Qed.

Lemma tally_keys currentYear celebrities responses :
  (tally currentYear celebrities responses).*1
  = seqZ 1950 (currentYear - 1950 + 1).
Proof.
  unfold tally. rewrite foldl_tally_keys. unfold initYearScores.
  rewrite <- list_fmap_compose. simpl. apply list_fmap_id.
Qed.

Lemma tally_year_range currentYear celebrities responses e :
  e ∈ tally currentYear celebrities responses → 1950 ≤ e.1 ≤ currentYear.
Proof.
  intros He.
  assert (e.1 ∈ (tally currentYear celebrities responses).*1) as Hk
    by (apply list_elem_of_fmap; eauto).
  rewrite tally_keys in Hk. apply elem_of_seqZ in Hk. lia.
Qed.

(** The inner loop over the years of a window, in closed form. *)
Lemma foldl_bump_seqZ recognized (n : nat) :
  ∀ (a : Z) (yearScores : list (Z * Score)),
    foldl (bump recognized) yearScores (seqZ a (Z.of_nat n))
    = (λ e, if bool_decide (a ≤ e.1 < a + Z.of_nat n)
            then count1 recognized e else e) <$> yearScores.
Proof.
  induction n as [|n IH]; intros a yearScores.
  - simpl. symmetry. etrans; [|apply list_fmap_id]. apply list_fmap_ext.
    intros _ e _. rewrite bool_decide_eq_false_2; [done|lia].
  - rewrite seqZ_cons by lia. simpl.
    replace (Z.pred (Z.of_nat (S n))) with (Z.of_nat n) by lia.
    rewrite IH. unfold bump. rewrite <- list_fmap_compose.
    apply list_fmap_ext. intros _ e _. simpl.
    destruct (Z.eqb_spec e.1 a) as [Heq|Hne].
    + rewrite bool_decide_eq_false_2 by (simpl; lia).
      rewrite bool_decide_eq_true_2 by lia. done.
    + destruct e as [k sc]. simpl in *.
      repeat case_bool_decide; done || lia.
Qed.

Lemma foldl_bump_window recognized (a b : Z) (yearScores : list (Z * Score)) :
  foldl (bump recognized) yearScores (seqZ a (b - a + 1))
  = (λ e, if bool_decide (a ≤ e.1 ≤ b) then count1 recognized e else e)
      <$> yearScores.
Proof.
  destruct (decide (0 ≤ b - a + 1)) as [Hn|Hn].
  - rewrite <- (Z2Nat.id (b - a + 1)) by done. rewrite foldl_bump_seqZ.
    apply list_fmap_ext. intros _ e _.
    repeat case_bool_decide; done || lia.
  - rewrite seqZ_nil by lia. simpl. symmetry.
    etrans; [|apply list_fmap_id]. apply list_fmap_ext.
    intros _ e _. rewrite bool_decide_eq_false_2; [done|lia].
Qed.

Lemma find_clipWindow currentYear (f : Z → bool) (celebrities : list Celebrity) :
  List.find (λ c, f (id c)) (clipWindow currentYear <$> celebrities)
  = clipWindow currentYear <$> List.find (λ c, f (id c)) celebrities.
Proof.
  induction celebrities as [|c celebrities IH]; simpl; [done|].
  by destruct (f (id c)).
Qed.

Lemma tallyResponse_clip currentYear celebrities yearScores response :
  Forall (λ k, 1950 ≤ k ≤ currentYear) yearScores.*1 →
  tallyResponse (clipWindow currentYear <$> celebrities) yearScores response
  = tallyResponse celebrities yearScores response.
Proof.
  intros Hkeys. unfold tallyResponse.
  rewrite (find_clipWindow currentYear (λ i, i =? celebrityId response)).
  destruct (List.find _ celebrities) as [celeb|]; simpl; [|done].
  rewrite !foldl_bump_window. apply list_fmap_ext. intros i e Hi.
  assert (1950 ≤ e.1 ≤ currentYear) as He.
  { eapply (Forall_lookup_1 _ _ i (e.1) Hkeys). rewrite list_lookup_fmap, Hi. done. }
  repeat case_bool_decide; done || lia.
Qed.

Lemma foldl_tally_clip currentYear celebrities responses :
  ∀ yearScores,
    Forall (λ k, 1950 ≤ k ≤ currentYear) yearScores.*1 →
    foldl (tallyResponse (clipWindow currentYear <$> celebrities)) yearScores responses
    = foldl (tallyResponse celebrities) yearScores responses.
Proof.
  induction responses as [|r responses IH]; intros yearScores Hkeys; simpl; [done|].
  rewrite tallyResponse_clip by done. apply IH.
  by rewrite tallyResponse_keys.
Qed.

Lemma tally_clip currentYear celebrities responses :
  tally currentYear (clipWindow currentYear <$> celebrities) responses
  = tally currentYear celebrities responses.
Proof.
  unfold tally. apply foldl_tally_clip. unfold initYearScores.
  rewrite <- list_fmap_compose. simpl. rewrite list_fmap_id.
  apply Forall_forall. intros k Hk. apply elem_of_seqZ in Hk. lia.
Qed.

Lemma bump_scoreOk recognized yearScores year :
  Forall scoreOk yearScores → Forall scoreOk (bump recognized yearScores year).
Proof.
  intros Hok. unfold bump. apply Forall_fmap. eapply Forall_impl; [exact Hok|].
  intros e He. unfold scoreOk in *. simpl.
  destruct (e.1 =? year); [|done]. simpl. destruct recognized; lia.
Qed.

Lemma foldl_bump_scoreOk recognized years :
  ∀ yearScores,
    Forall scoreOk yearScores → Forall scoreOk (foldl (bump recognized) yearScores years).
Proof.
  induction years as [|y years IH]; intros yearScores Hok; simpl; [done|].
  by apply IH, bump_scoreOk.
Qed.

Lemma foldl_tally_scoreOk celebrities responses :
  ∀ yearScores,
    Forall scoreOk yearScores →
    Forall scoreOk (foldl (tallyResponse celebrities) yearScores responses).
Proof.
  induction responses as [|r responses IH]; intros yearScores Hok; simpl; [done|].
  apply IH. unfold tallyResponse. destruct (List.find _ celebrities); [|done].
  by apply foldl_bump_scoreOk.
Qed.

Lemma tally_scoreOk currentYear celebrities responses :
  Forall scoreOk (tally currentYear celebrities responses).
Proof.
  apply foldl_tally_scoreOk. unfold initYearScores. apply Forall_fmap.
  apply Forall_forall. intros y _. unfold scoreOk. simpl. lia.
Qed.

(** The loop building the raw distribution never fails. *)
Lemma toDistribution_acc (yearScores : list (Z * Score)) :
  ∀ acc : list Point,
    foldlM (λ distribution e,
              let scores := e.2 in
              if 0 <? sc_total scores then
                r ← jsdiv (inject_Z (sc_recognized scores))
                          (inject_Z (sc_total scores));
                Some (distribution ++
                        [{| year := e.1; rate := r; sampleSize := sc_total scores |}])
              else Some distribution)
           acc yearScores
    = Some (acc ++ pointsOf yearScores).
Proof.
  induction yearScores as [|e yearScores IH]; intros acc.
  - simpl. by rewrite app_nil_r.
  - unfold pointsOf. simpl. fold (pointsOf yearScores).
    destruct (Z.ltb_spec 0 (sc_total e.2)) as [Hpos|Hzero].
    + rewrite jsdiv_inject_Z by done. simpl. rewrite IH.
      by rewrite <- app_assoc.
    + simpl. by rewrite IH.
Qed.

Lemma toDistribution_eq yearScores : toDistribution yearScores = Some (pointsOf yearScores).
Proof. unfold toDistribution. by rewrite toDistribution_acc. Qed.

Lemma elem_of_pointsOf (p : Point) yearScores :
  p ∈ pointsOf yearScores →
  ∃ e, e ∈ yearScores ∧ 0 < sc_total e.2 ∧ year p = e.1 ∧
       sampleSize p = sc_total e.2 ∧
       rate p = (inject_Z (sc_recognized e.2) / inject_Z (sc_total e.2))%Q.
Proof.
  unfold pointsOf. intros Hp. apply list_elem_of_bind in Hp as (e & Hp & He).
  exists e. split; [done|].
  destruct (Z.ltb_spec 0 (sc_total e.2)) as [Hpos|Hzero];
    [|by apply not_elem_of_nil in Hp].
  apply list_elem_of_singleton in Hp as ->. done.
Qed.

Lemma rawDistribution_eq currentYear celebrities responses :
  rawDistribution currentYear celebrities responses
  = Some (pointsOf (tally currentYear celebrities responses)).
Proof. apply toDistribution_eq. Qed.

Lemma rate_in_unit (r t : Z) :
  0 ≤ r ≤ t → 0 < t → (0 <= inject_Z r / inject_Z t <= 1)%Q.
Proof.
  intros Hr Ht.
  assert (inject_Z 0 < inject_Z t)%Q as Hpos by (rewrite <- Zlt_Qlt; lia).
  assert (inject_Z 0 <= inject_Z r)%Q as Hr0 by (rewrite <- Zle_Qle; lia).
  change (inject_Z 0) with 0%Q in Hpos, Hr0.
  assert (inject_Z r <= inject_Z t)%Q as Hrt by (rewrite <- Zle_Qle; lia).
  split.
  - apply Qle_shift_div_l; [done|]. lra.
  - apply Qle_shift_div_r; [done|]. lra.
Qed.

Lemma rawDistribution_ok currentYear celebrities responses :
  Forall (pointOk currentYear)
    (pointsOf (tally currentYear celebrities responses)).
Proof.
  apply Forall_forall. intros p Hp.
  apply elem_of_pointsOf in Hp as (e & He & Hpos & Hy & Hn & Hr).
  pose proof (tally_year_range _ _ _ _ He) as Hrange.
  pose proof (tally_scoreOk currentYear celebrities responses) as Hok.
  rewrite Forall_forall in Hok. specialize (Hok e He). unfold scoreOk in Hok.
  unfold pointOk. rewrite Hy, Hn, Hr. split; [done|]. split; [done|].
  by apply rate_in_unit.
Qed.

End Tally.

(** ** Smoothing *)

Section Smoothing.
Import Tmdb Api Spec.

(** The window loop reads only indices of the array, so it never
    fails, and it maintains every invariant its body maintains. *)
Lemma window_fold_inv (I : Z * Q → Prop) (distribution : list Point) (js : list Z) :
  Forall (λ j, 0 ≤ j < Z.of_nat (length distribution)) js →
  (∀ a p, I a → p ∈ distribution →
          I (a.1 + sampleSize p, (a.2 + rate p * inject_Z (sampleSize p))%Q)) →
  ∀ acc, I acc →
    ∃ acc', foldlM (windowStep distribution) acc js = Some acc' ∧ I acc'.
Proof.
  intros Hjs Hstep. induction Hjs as [|j js Hj Hjs IH]; intros acc Hacc.
  - exists acc. done.
  - destruct (lookup_lt_is_Some_2 distribution (Z.to_nat j)) as [p Hp]; [lia|].
    assert (windowStep distribution acc j
            = Some (acc.1 + sampleSize p,
                    (acc.2 + rate p * inject_Z (sampleSize p))%Q)) as Heq
      by (unfold windowStep; by rewrite Hp).
    rewrite foldlM_cons, Heq.
    apply IH, Hstep; [done|]. by eapply list_elem_of_lookup_2.
Qed.

Lemma smoothPoint_unfold distribution i point :
  smoothPoint distribution i point =
  (acc ← foldlM (windowStep distribution) (0, 0%Q)
           (seqZ (Z.max 0 (Z.of_nat i - 2))
                 (Z.min (Z.of_nat (length distribution) - 1) (Z.of_nat i + 2)
                  - Z.max 0 (Z.of_nat i - 2) + 1));
   r ← (if 0 <? acc.1 then jsdiv acc.2 (inject_Z acc.1) else Some 0%Q);
   Some {| s_year := year point; s_rate := r |}).
Proof. reflexivity. Qed.

Lemma window_indices (len i : Z) :
  Forall (λ j, 0 ≤ j < len)
    (seqZ (Z.max 0 (i - 2)) (Z.min (len - 1) (i + 2) - Z.max 0 (i - 2) + 1)).
Proof. apply Forall_forall. intros j Hj. apply elem_of_seqZ in Hj. lia. Qed.

Lemma unit_quotient (a : Q) (b : Z) :
  0 < b → (0 <= a <= inject_Z b)%Q → (0 <= a / inject_Z b <= 1)%Q.
Proof.
  intros Hb [Ha0 Hab].
  assert (inject_Z 0 < inject_Z b)%Q as Hpos by (rewrite <- Zlt_Qlt; lia).
  change (inject_Z 0) with 0%Q in Hpos. split.
  - apply Qle_shift_div_l; [done|]. lra.
  - apply Qle_shift_div_r; [done|]. lra.
Qed.

(** Smoothing one point: it succeeds, keeps the year, gives a rate
    within [[0, 1]] when the raw rates are, and gives rate 0 when the
    weights of the window are all 0. *)
Lemma smoothPoint_Some distribution i point :
  ∃ q, smoothPoint distribution i point = Some q ∧
       s_year q = year point ∧
       (Forall rateOk distribution → (0 <= s_rate q <= 1)%Q) ∧
       (Forall (λ p, sampleSize p = 0) distribution → s_rate q = 0%Q).
Proof.
  rewrite smoothPoint_unfold.
  destruct (window_fold_inv
              (λ a, (Forall rateOk distribution → (0 <= a.2 <= inject_Z a.1)%Q) ∧
                    (Forall (λ p, sampleSize p = 0) distribution → a.1 = 0))
              distribution _
              (window_indices (Z.of_nat (length distribution)) (Z.of_nat i)))
    with (acc := (0, 0%Q)) as (acc & -> & Hrate & Hzero).
  - intros a p [IHr IHz] Hp. simpl. split.
    + intros Hok. specialize (IHr Hok). rewrite Forall_forall in Hok.
      destruct (Hok p Hp) as [Hn [Hr0 Hr1]].
      assert (inject_Z 0 <= inject_Z (sampleSize p))%Q as Hw
        by (rewrite <- Zle_Qle; lia).
      change (inject_Z 0) with 0%Q in Hw.
      rewrite inject_Z_plus. split; nra.
    + intros Hz. rewrite (IHz Hz). rewrite Forall_forall in Hz.
      by rewrite (Hz p Hp).
  - cbn [fst snd]. split; [intros _|done]. change (inject_Z 0) with 0%Q. lra.
  - simpl. destruct (Z.ltb_spec 0 acc.1) as [Hpos|Hnonpos].
    + rewrite jsdiv_inject_Z by done. simpl. eexists. split; [done|]. simpl.
      split; [done|]. split.
      * intros Hok. apply unit_quotient; [done|]. by apply Hrate.
      * intros Hz. specialize (Hzero Hz). lia.
    + simpl. eexists. split; [done|]. simpl. split; [done|].
      split; [intros _; lra|done].
Qed.

Lemma smooth_is_Some distribution : is_Some (smooth distribution).
Proof.
  unfold smooth. apply mapM_is_Some_2, Forall_forall. intros [i p] _. simpl.
  destruct (smoothPoint_Some distribution i p) as (q & -> & _). by eexists.
Qed.

Lemma smooth_lookup distribution smoothed :
  smooth distribution = Some smoothed →
  length smoothed = length distribution ∧
  ∀ i p q, distribution !! i = Some p → smoothed !! i = Some q →
           smoothPoint distribution i p = Some q.
Proof.
  unfold smooth. intros Hs. apply mapM_Some_1 in Hs.
  apply Forall2_same_length_lookup in Hs as [Hlen Hs].
  rewrite length_imap in Hlen. split; [done|]. intros i p q Hp Hq.
  apply (Hs i (i, p) q); [|done]. by rewrite list_lookup_imap, Hp.
Qed.

(** The smoothed series: one point per raw point, with the same year;
    its rates are within [[0, 1]] when the raw ones are. *)
Lemma smooth_spec distribution :
  ∃ smoothed, smooth distribution = Some smoothed ∧
    s_year <$> smoothed = year <$> distribution ∧
    (Forall rateOk distribution →
     Forall (λ q, (0 <= s_rate q <= 1)%Q) smoothed).
Proof.
  destruct (smooth_is_Some distribution) as [smoothed Hs].
  exists smoothed. split; [done|].
  apply smooth_lookup in Hs as [Hlen Hs]. split.
  - apply list_eq_same_length with (length distribution);
      rewrite ?length_fmap; [done..|].
    intros i y1 y2 Hi H1 H2.
    rewrite list_lookup_fmap in H1. rewrite list_lookup_fmap in H2.
    destruct (smoothed !! i) as [q|] eqn:Hq; [|done].
    destruct (distribution !! i) as [p|] eqn:Hp; [|done].
    simpl in *. simplify_eq.
    destruct (smoothPoint_Some distribution i p) as (q' & Hq' & Hy & _).
    rewrite (Hs i p q Hp Hq) in Hq'. by simplify_eq.
  - intros Hok. apply Forall_lookup. intros i q Hq.
    destruct (lookup_lt_is_Some_2 distribution i) as [p Hp].
    { rewrite <- Hlen. by eapply lookup_lt_Some. }
    destruct (smoothPoint_Some distribution i p) as (q' & Hq' & _ & Hr & _).
    rewrite (Hs i p q Hp Hq) in Hq'. simplify_eq. by apply Hr.
Qed.

End Smoothing.

(** ** The summary metrics never fail *)

Section Totality.
Import Tmdb Api Spec.

Lemma Qltb_lt (a b : Q) : Qltb a b = true ↔ (a < b)%Q.
Proof.
  unfold Qltb. rewrite negb_true_iff. split.
  - intros H. apply Qnot_le_lt. intros Hle. apply Qle_bool_iff in Hle. congruence.
  - intros H. destruct (Qle_bool b a) eqn:E; [|done].
    apply Qle_bool_iff in E. by apply Qlt_not_le in H.
Qed.

Lemma Qltb_ge (a b : Q) : Qltb a b = false ↔ (b <= a)%Q.
Proof.
  unfold Qltb. rewrite negb_false_iff. apply Qle_bool_iff.
Qed.

Global Instance Qltb_proper : Proper (Qeq ==> Qeq ==> eq) Qltb.
Proof. intros a a' Ha b b' Hb. unfold Qltb. by rewrite Ha, Hb. Qed.

Global Instance mathRound_proper : Proper (Qeq ==> eq) mathRound.
Proof. intros a a' Ha. unfold mathRound. by rewrite Ha. Qed.

(** [Math.round] gives an integer within one half of its argument. *)
Lemma mathRound_nearest (x : Q) :
  (x - (1 # 2) < inject_Z (mathRound x) <= x + (1 # 2))%Q.
Proof.
  unfold mathRound.
  pose proof (Qfloor_le (x + (1 # 2))) as Hle.
  pose proof (Qlt_floor (x + (1 # 2))) as Hlt.
  rewrite inject_Z_plus in Hlt. change (inject_Z 1) with 1%Q in Hlt.
  split; lra.
Qed.

Lemma peakStep_Some peak e : is_Some (peakStep peak e).
Proof.
  unfold peakStep. destruct (Z.ltb_spec 0 (d_total e.2)).
  - rewrite jsdiv_inject_Z by done. by eexists.
  - by eexists.
Qed.

Lemma foldlM_is_Some {A B : Type} (f : B → A → option B) (l : list A) :
  (∀ b a, is_Some (f b a)) → ∀ b, is_Some (foldlM f b l).
Proof.
  intros Hf. induction l as [|a l IH]; intros b; [by eexists|].
  rewrite foldlM_cons. destruct (Hf b a) as [b' ->]. apply IH.
Qed.

Lemma peakDecadeOf_is_Some smoothed : is_Some (peakDecadeOf smoothed).
Proof.
  unfold peakDecadeOf.
  destruct (foldlM_is_Some peakStep (decadeRatesOf smoothed) peakStep_Some
              ("1990s", 0%Q)) as [peak ->].
  by eexists.
Qed.

Lemma totalWeightOf_cons p distribution :
  totalWeightOf (p :: distribution) = (weight p + totalWeightOf distribution)%Q.
Proof. reflexivity. Qed.

Lemma weightedYearSumOf_cons p distribution :
  weightedYearSumOf (p :: distribution)
  = (inject_Z (year p) * weight p + weightedYearSumOf distribution)%Q.
Proof. reflexivity. Qed.

Lemma cog_fold (distribution : list Point) :
  ∀ acc : Q * Q,
    let acc' := foldl (λ (acc : Q * Q) point,
                         let weight := (rate point * inject_Z (sampleSize point))%Q in
                         ((acc.1 + weight)%Q,
                          (acc.2 + inject_Z (year point) * weight)%Q))
                      acc distribution in
    (acc'.1 == acc.1 + totalWeightOf distribution)%Q ∧
    (acc'.2 == acc.2 + weightedYearSumOf distribution)%Q.
Proof.
  induction distribution as [|p distribution IH]; intros acc; cbv zeta.
  - unfold totalWeightOf, weightedYearSumOf. simpl. split; lra.
  - simpl foldl. destruct (IH ((acc.1 + rate p * inject_Z (sampleSize p))%Q,
                               (acc.2 + inject_Z (year p)
                                        * (rate p * inject_Z (sampleSize p)))%Q))
      as [H1 H2].
    cbv zeta in H1, H2. rewrite H1, H2.
    rewrite totalWeightOf_cons, weightedYearSumOf_cons. unfold weight.
    cbn [fst snd]. split; lra.
Qed.

(** The centre of gravity in terms of the two sums. *)
Lemma centerOfGravityOf_spec currentYear distribution :
  centerOfGravityOf currentYear distribution
  = Some (if Qltb 0 (totalWeightOf distribution)
          then mathRound (weightedYearSumOf distribution / totalWeightOf distribution)
          else currentYear).
Proof.
  unfold centerOfGravityOf.
  destruct (cog_fold distribution (0%Q, 0%Q)) as [H1 H2]. cbv zeta in H1, H2.
  set (acc := foldl _ _ distribution) in *. simpl in H1, H2.
  rewrite Qplus_0_l in H1, H2. rewrite H1.
  destruct (Qltb 0 (totalWeightOf distribution)) eqn:Hpos; [|done].
  apply Qltb_lt in Hpos. rewrite jsdiv_Some by (rewrite H1; lra).
  simpl. by rewrite H1, H2.
Qed.

Lemma overallRateOf_is_Some responses : is_Some (overallRateOf responses).
Proof.
  unfold overallRateOf. destruct responses as [|r responses]; [by eexists|].
  simpl Nat.ltb. cbv iota. rewrite jsdiv_inject_Z by (simpl; lia). by eexists.
Qed.

Lemma meanRate_is_Some xs : is_Some (meanRate xs).
Proof.
  unfold meanRate. destruct xs as [|x xs]; [by eexists|].
  simpl Nat.ltb. cbv iota. rewrite jsdiv_inject_Z by (simpl; lia). by eexists.
Qed.

Lemma nostalgiaIndexOf_is_Some smoothed : is_Some (nostalgiaIndexOf smoothed).
Proof.
  unfold nostalgiaIndexOf.
  destruct (meanRate_is_Some (filter (λ d, s_year d < 2000) smoothed)) as [pre ->].
  destruct (meanRate_is_Some (filter (λ d, 2000 ≤ s_year d) smoothed)) as [post ->].
  simpl. destruct (Qltb 0 post) eqn:Hpos; [|by eexists].
  apply Qltb_lt in Hpos. rewrite jsdiv_Some by lra. by eexists.
Qed.

Lemma breadthOf_is_Some distribution : is_Some (breadthOf distribution).
Proof.
  unfold breadthOf.
  destruct ((rate <$> distribution) ++ [1 # 100]%Q) as [|x xs] eqn:E.
  { by apply app_nil in E as [_ ?]. }
  simpl. destruct (year <$> filter _ distribution) as [|y ys]; by eexists.
Qed.

End Totality.

(** ** The results computation as a whole *)

Section Results.
Import Tmdb Api Spec.

(** The computation succeeds, and each field of its result is the
    result of the corresponding stage. *)
Lemma computeResults_spec currentYear celebrities responses :
  ∃ r, computeResults currentYear celebrities responses = Some r ∧
    let distribution := pointsOf (tally currentYear celebrities responses) in
    smooth distribution = Some (rs_distribution r) ∧
    peakDecadeOf (rs_distribution r) = Some (peakDecade (metrics r)) ∧
    centerOfGravityOf currentYear distribution = Some (centerOfGravity (metrics r)) ∧
    breadthOf distribution = Some (breadth (metrics r)) ∧
    (∃ o, overallRateOf responses = Some o ∧
          overallRate (metrics r) = mathRound (o * 100)%Q) ∧
    (∃ n, nostalgiaIndexOf (rs_distribution r) = Some n ∧
          nostalgiaIndex (metrics r) = (inject_Z (mathRound (n * 10)) / 10)%Q).
Proof.
  unfold computeResults. rewrite rawDistribution_eq. cbv zeta.
  set (distribution := pointsOf (tally currentYear celebrities responses)).
  destruct (smooth_is_Some distribution) as [smoothed Hs].
  destruct (peakDecadeOf_is_Some smoothed) as [pd Hpd].
  destruct (breadthOf_is_Some distribution) as [b Hb].
  destruct (overallRateOf_is_Some responses) as [o Ho].
  destruct (nostalgiaIndexOf_is_Some smoothed) as [n Hn].
  simpl. rewrite Hs. simpl. rewrite Hpd. simpl. rewrite Ho. simpl.
  rewrite Hb. simpl. rewrite Hn. simpl.
  rewrite !centerOfGravityOf_spec. simpl.
  eexists. split; [done|]. simpl. eauto 10.
Qed.

(** C6: for every set of figures and answers the raw and the smoothed
    distributions are produced, and every rate of either lies in the
    closed interval [[0, 1]]. *)
Theorem rates_in_unit_interval currentYear celebrities responses :
  ∃ distribution r,
    rawDistribution currentYear celebrities responses = Some distribution ∧
    computeResults currentYear celebrities responses = Some r ∧
    smooth distribution = Some (rs_distribution r) ∧
    Forall (λ p, (0 <= rate p <= 1)%Q) distribution ∧
    Forall (λ q, (0 <= s_rate q <= 1)%Q) (rs_distribution r).
Proof.
  destruct (computeResults_spec currentYear celebrities responses)
    as (r & Hr & Hs & _).
  cbv zeta in Hs. exists (pointsOf (tally currentYear celebrities responses)), r.
  pose proof (rawDistribution_ok currentYear celebrities responses) as Hok.
  split; [apply rawDistribution_eq|]. split; [done|]. split; [done|]. split.
  - eapply Forall_impl; [exact Hok|]. by intros p (_ & _ & ?).
  - destruct (smooth_spec (pointsOf (tally currentYear celebrities responses)))
      as (smoothed & Hs' & _ & Hrates).
    rewrite Hs in Hs'. injection Hs' as <-. apply Hrates.
    eapply Forall_impl; [exact Hok|]. intros p (_ & ? & ?). split; [lia|done].
Qed.

(** C9: every year of the raw distribution, and so of the smoothed one,
    lies within [[1950, currentYear]]; the years of a relevance window
    outside that range are counted nowhere: the tally is the one of
    the figures with their windows cut down to that range. *)
Theorem distribution_years_in_range currentYear celebrities responses :
  ∃ distribution r,
    rawDistribution currentYear celebrities responses = Some distribution ∧
    computeResults currentYear celebrities responses = Some r ∧
    Forall (λ p, 1950 ≤ year p ≤ currentYear) distribution ∧
    Forall (λ q, 1950 ≤ s_year q ≤ currentYear) (rs_distribution r) ∧
    (tally currentYear celebrities responses).*1
      = seqZ 1950 (currentYear - 1950 + 1) ∧
    tally currentYear (clipWindow currentYear <$> celebrities) responses
      = tally currentYear celebrities responses.
Proof.
  destruct (computeResults_spec currentYear celebrities responses)
    as (r & Hr & Hs & _).
  cbv zeta in Hs. exists (pointsOf (tally currentYear celebrities responses)), r.
  pose proof (rawDistribution_ok currentYear celebrities responses) as Hok.
  assert (Forall (λ p, 1950 ≤ year p ≤ currentYear)
            (pointsOf (tally currentYear celebrities responses))) as Hyears.
  { eapply Forall_impl; [exact Hok|]. by intros p (? & _). }
  split; [apply rawDistribution_eq|]. split; [done|]. split; [done|].
  split; [|split; [apply tally_keys|apply tally_clip]].
  destruct (smooth_spec (pointsOf (tally currentYear celebrities responses)))
    as (smoothed & Hs' & Hy & _).
  rewrite Hs in Hs'. injection Hs' as <-.
  assert (Forall (λ y, 1950 ≤ y ≤ currentYear) (s_year <$> rs_distribution r))
    as Hsy by (rewrite Hy; by apply Forall_fmap).
  by apply Forall_fmap in Hsy.
Qed.

Lemma totalWeightOf_nonneg currentYear distribution :
  Forall (pointOk currentYear) distribution → (0 <= totalWeightOf distribution)%Q.
Proof.
  induction 1 as [|p distribution (_ & Hn & Hr0 & _) _ IH].
  - unfold totalWeightOf. simpl. lra.
  - rewrite totalWeightOf_cons. unfold weight.
    assert (inject_Z 0 <= inject_Z (sampleSize p))%Q as Hw
      by (rewrite <- Zle_Qle; lia).
    change (inject_Z 0) with 0%Q in Hw. nra.
Qed.

Lemma pointsOf_no_samples (yearScores : list (Z * Score)) :
  Forall (λ e, sc_total e.2 = 0) yearScores → pointsOf yearScores = [].
Proof.
  induction 1 as [|e yearScores He _ IH]; [done|].
  change (pointsOf (e :: yearScores))
    with ((if 0 <? sc_total e.2
           then [{| year := e.1;
                    rate := (inject_Z (sc_recognized e.2) / inject_Z (sc_total e.2))%Q;
                    sampleSize := sc_total e.2 |}]
           else []) ++ pointsOf yearScores).
  by rewrite He, IH.
Qed.

Lemma rawDistribution_no_answers currentYear celebrities :
  rawDistribution currentYear celebrities [] = Some [].
Proof.
  rewrite rawDistribution_eq. f_equal. apply pointsOf_no_samples.
  unfold tally, initYearScores. simpl. by apply Forall_fmap, Forall_true.
Qed.

Lemma nostalgia_fallback smoothed post :
  meanRate (filter (λ d, 2000 ≤ s_year d) smoothed) = Some post →
  (post <= 0)%Q → nostalgiaIndexOf smoothed = Some 1%Q.
Proof.
  intros Hpost Hzero. unfold nostalgiaIndexOf.
  destruct (meanRate_is_Some (filter (λ d, s_year d < 2000) smoothed)) as [pre ->].
  rewrite Hpost. simpl. by rewrite (proj2 (Qltb_ge _ _)).
Qed.

(** C8: the metrics computation returns a result for every set of
    figures and answers, the empty answer set included, so no division
    by zero and no read outside an array happens in it.  Where a
    divisor is zero the guarded value is the fallback: smoothed rate 0
    for a window of weight 0, mean 0 for a decade of no point, the
    current year for a total weight of 0, overall rate 0 for no answer,
    mean 0 for no point on a side of 2000 and nostalgia index 1 for a
    post-2000 mean of 0; for the empty answer set the result is the
    empty distribution with the default metrics. *)
Theorem metrics_never_fail currentYear celebrities responses :
  (∃ r, computeResults currentYear celebrities responses = Some r) ∧
  (∀ distribution i point,
     Forall (λ p, sampleSize p = 0) distribution →
     ∃ q, smoothPoint distribution i point = Some q ∧ s_rate q = 0%Q) ∧
  (∀ peak decade sum,
     peakStep peak (decade, {| d_total := 0; d_sum := sum |})
     = Some (if Qltb peak.2 0 then (decade, 0%Q) else peak)) ∧
  (∀ distribution,
     (totalWeightOf distribution == 0)%Q →
     centerOfGravityOf currentYear distribution = Some currentYear) ∧
  overallRateOf [] = Some 0%Q ∧
  meanRate [] = Some 0%Q ∧
  (∀ smoothed post,
     meanRate (filter (λ d, 2000 ≤ s_year d) smoothed) = Some post →
     (post == 0)%Q → nostalgiaIndexOf smoothed = Some 1%Q) ∧
  (∃ r, computeResults currentYear celebrities [] = Some r ∧
        rs_distribution r = [] ∧
        peakDecade (metrics r) = "1990s" ∧
        centerOfGravity (metrics r) = currentYear ∧
        breadth (metrics r) = 0 ∧
        overallRate (metrics r) = 0 ∧
        (nostalgiaIndex (metrics r) == 1)%Q).
Proof.
  split.
  { destruct (computeResults_spec currentYear celebrities responses) as (r & Hr & _).
    by exists r. }
  split.
  { intros distribution i point Hzero.
    destruct (smoothPoint_Some distribution i point) as (q & Hq & _ & _ & Hrate).
    exists q. split; [done|]. by apply Hrate. }
  split; [done|]. split.
  { intros distribution Hzero. rewrite centerOfGravityOf_spec.
    rewrite (proj2 (Qltb_ge _ _)); [done|]. rewrite Hzero. lra. }
  split; [done|]. split; [done|]. split.
  { intros smoothed post Hpost Hzero. apply (nostalgia_fallback _ post Hpost).
    rewrite Hzero. lra. }
  unfold computeResults. rewrite rawDistribution_no_answers. simpl.
  eexists. split; [reflexivity|]. simpl. repeat (split; [reflexivity|]).
  reflexivity.
Qed.

Lemma foldl_Qmax_spec (xs : list Q) :
  ∀ x, let m := foldl Qmax x xs in
       (m = x ∨ m ∈ xs) ∧ (x <= m)%Q ∧ Forall (λ y, (y <= m)%Q) xs.
Proof.
  induction xs as [|y xs IH]; intros x; cbv zeta.
  - simpl. split; [by left|]. split; [lra|constructor].
  - simpl. destruct (IH (Qmax x y)) as (Hin & Hle & Hall). cbv zeta in *.
    assert ((x <= Qmax x y)%Q ∧ (y <= Qmax x y)%Q ∧ (Qmax x y = x ∨ Qmax x y = y))
      as (Hx & Hy & Hxy).
    { unfold Qmax. destruct (Qle_bool x y) eqn:E.
      - apply Qle_bool_iff in E. split; [done|]. split; [lra|by right].
      - split; [lra|]. split; [|by left].
        apply Qlt_le_weak, Qnot_le_lt. intros Hc.
        apply Qle_bool_iff in Hc. congruence. }
    split; [|split].
    + destruct Hin as [->|Hin].
      * destruct Hxy as [->| ->]; [by left|right; by left].
      * right. by right.
    + lra.
    + constructor; [lra|done].
Qed.

Lemma foldl_Zmax_spec (xs : list Z) :
  ∀ x, let m := foldl Z.max x xs in
       m ∈ x :: xs ∧ Forall (λ y, y ≤ m) (x :: xs).
Proof.
  induction xs as [|y xs IH]; intros x; cbv zeta.
  - simpl. split; [by left|]. by repeat constructor.
  - simpl. destruct (IH (Z.max x y)) as (Hin & Hall). cbv zeta in *.
    inversion Hall as [|? ? Hm Hrest]; subst. split.
    + apply elem_of_cons in Hin as [Hin|Hin].
      * rewrite Hin. destruct (Z.max_spec x y) as [[_ ->]|[_ ->]];
          [right; by left|by left].
      * right. by right.
    + constructor; [lia|]. constructor; [lia|done].
Qed.

Lemma foldl_Zmin_spec (xs : list Z) :
  ∀ x, let m := foldl Z.min x xs in
       m ∈ x :: xs ∧ Forall (λ y, m ≤ y) (x :: xs).
Proof.
  induction xs as [|y xs IH]; intros x; cbv zeta.
  - simpl. split; [by left|]. by repeat constructor.
  - simpl. destruct (IH (Z.min x y)) as (Hin & Hall). cbv zeta in *.
    inversion Hall as [|? ? Hm Hrest]; subst. split.
    + apply elem_of_cons in Hin as [Hin|Hin].
      * rewrite Hin. destruct (Z.min_spec x y) as [[_ ->]|[_ ->]];
          [by left|right; by left].
      * right. by right.
    + constructor; [lia|]. constructor; [lia|done].
Qed.

(** The breadth of a raw distribution, stage by stage. *)
Lemma breadthOf_spec (distribution : list Point) :
  ∃ peakRate b,
    breadthOf distribution = Some b ∧
    mathMaxQ ((rate <$> distribution) ++ [1 # 100]%Q) = Some peakRate ∧
    (1 # 100 <= peakRate)%Q ∧
    Forall (λ p, (rate p <= peakRate)%Q) distribution ∧
    (peakRate = (1 # 100)%Q ∨ ∃ p, p ∈ distribution ∧ rate p = peakRate) ∧
    ((∀ p, ¬ aboveThreshold distribution peakRate p) → b = 0) ∧
    (∀ p0, aboveThreshold distribution peakRate p0 →
       ∃ lo hi, aboveThreshold distribution peakRate lo ∧
                aboveThreshold distribution peakRate hi ∧
                (∀ p, aboveThreshold distribution peakRate p →
                      year lo ≤ year p ≤ year hi) ∧
                b = year hi - year lo).
Proof.
  unfold breadthOf.
  destruct ((rate <$> distribution) ++ [1 # 100]%Q) as [|x xs] eqn:E.
  { by apply app_nil in E as [_ ?]. }
  simpl mathMaxQ. cbn [mbind option_bind].
  destruct (foldl_Qmax_spec xs x) as (Hin & Hx & Hall). cbv zeta in *.
  set (peakRate := foldl Qmax x xs) in *.
  assert (peakRate ∈ (rate <$> distribution) ++ [1 # 100]%Q) as Hpeak.
  { rewrite E. destruct Hin as [->|Hin]; [by left|by right]. }
  assert (Forall (λ y, (y <= peakRate)%Q) ((rate <$> distribution) ++ [1 # 100]%Q))
    as Hmax by (rewrite E; by constructor).
  destruct (proj1 (Forall_app _ _ _) Hmax) as [Hrates' Hfloor'].
  pose proof (proj1 (Forall_singleton _ _) Hfloor') as Hfloor.
  pose proof (proj1 (Forall_fmap rate (λ y, (y <= peakRate)%Q) distribution) Hrates')
    as Hrates.
  clear Hmax Hrates' Hfloor'.
  assert (∀ p, aboveThreshold distribution peakRate p ↔
               p ∈ filter (λ d, Qle_bool (peakRate * (1 # 2)) (rate d) = true)
                     distribution) as Habove.
  { intros p. rewrite list_elem_of_filter, Qle_bool_iff.
    unfold aboveThreshold. tauto. }
  set (above := filter _ distribution) in *.
  exists peakRate.
  destruct above as [|a rest] eqn:Eabove.
  - exists 0. split; [reflexivity|]. split; [done|]. split; [done|].
    split; [done|]. split.
    { apply elem_of_app in Hpeak as [Hp|Hp].
      - apply list_elem_of_fmap in Hp as (p & Heq & Hp). right. eauto.
      - apply list_elem_of_singleton in Hp. by left. }
    split; [done|]. intros p0 Hp0. apply Habove in Hp0.
    by apply not_elem_of_nil in Hp0.
  - rewrite fmap_cons. cbn [length Nat.ltb Nat.leb mathMax mathMin mbind option_bind].
    destruct (foldl_Zmax_spec (year <$> rest) (year a)) as (Hhi & Hhimax).
    destruct (foldl_Zmin_spec (year <$> rest) (year a)) as (Hlo & Hlomin).
    cbv zeta in *. rewrite <- fmap_cons in Hhi, Hlo, Hhimax, Hlomin.
    apply list_elem_of_fmap in Hhi as (hi & Hhi & Hhiin).
    apply list_elem_of_fmap in Hlo as (lo & Hlo & Hloin).
    eexists. split; [done|]. split; [done|]. split; [done|].
    split; [done|]. split.
    { apply elem_of_app in Hpeak as [Hp|Hp].
      - apply list_elem_of_fmap in Hp as (p & Heq & Hp). right. eauto.
      - apply list_elem_of_singleton in Hp. by left. }
    split.
    { intros Hnone. destruct (Hnone a). apply Habove. by left. }
    intros p0 _. exists lo, hi.
    split; [by apply Habove|]. split; [by apply Habove|]. split.
    + intros p Hp. apply Habove in Hp.
      rewrite Forall_forall in Hhimax, Hlomin.
      assert (year p ∈ year <$> a :: rest) as Hy
        by (apply list_elem_of_fmap; eauto).
      specialize (Hhimax _ Hy). specialize (Hlomin _ Hy). lia.
    + by rewrite Hhi, Hlo.
Qed.

(** C1, as stated, fails: for two recognised figures of 1975-1985 and
    an unrecognised one of 1986-1992 the result has breadth 10 (the raw
    rate is 1 up to 1985 and 0 from 1986), while over the smoothed
    series, where 1986 still has rate 4/7, the breadth is 11. *)
Lemma breadth_not_over_smoothed :
  ∃ r, computeResults 2024 Sample.figures Sample.answers = Some r ∧
       breadth (metrics r) = 10 ∧
       breadthOverSmoothed (rs_distribution r) = 11 ∧
       breadth (metrics r) ≠ breadthOverSmoothed (rs_distribution r).
Proof.
  eexists. split; [vm_compute; reflexivity|].
  split; [reflexivity|]. split; [vm_compute; reflexivity|].
  vm_compute. discriminate.
Qed.

(** C1 (amended): the breadth is computed over the raw distribution:
    [peakRate] is the largest raw rate, and at least 0.01; the threshold
    is [0.5 × peakRate]; the breadth is [max(year) − min(year)] among
    the years whose raw rate is at least the threshold, and 0 when no
    year has. *)
Theorem breadth_over_raw_distribution currentYear celebrities responses :
  ∃ distribution r peakRate,
    rawDistribution currentYear celebrities responses = Some distribution ∧
    computeResults currentYear celebrities responses = Some r ∧
    (1 # 100 <= peakRate)%Q ∧
    Forall (λ p, (rate p <= peakRate)%Q) distribution ∧
    (peakRate = (1 # 100)%Q ∨ ∃ p, p ∈ distribution ∧ rate p = peakRate) ∧
    ((∀ p, ¬ aboveThreshold distribution peakRate p) → breadth (metrics r) = 0) ∧
    (∀ p0, aboveThreshold distribution peakRate p0 →
       ∃ lo hi, aboveThreshold distribution peakRate lo ∧
                aboveThreshold distribution peakRate hi ∧
                (∀ p, aboveThreshold distribution peakRate p →
                      year lo ≤ year p ≤ year hi) ∧
                breadth (metrics r) = year hi - year lo).
Proof.
  destruct (computeResults_spec currentYear celebrities responses)
    as (r & Hr & _ & _ & _ & Hb & _).
  cbv zeta in Hb.
  destruct (breadthOf_spec (pointsOf (tally currentYear celebrities responses)))
    as (peakRate & b & Hb' & _ & Hfloor & Hmax & Hpeak & Hnone & Hsome).
  rewrite Hb in Hb'. injection Hb' as <-.
  exists (pointsOf (tally currentYear celebrities responses)), r, peakRate.
  split; [apply rawDistribution_eq|]. done.
Qed.

End Results.

(** ** The peak decade *)

Section PeakDecade.
Import Tmdb Api Spec.

Lemma Qsum_snoc (xs : list Q) (x : Q) : (Qsum (xs ++ [x]) == Qsum xs + x)%Q.
Proof.
  induction xs as [|y xs IH].
  - unfold Qsum. simpl. lra.
  - change (Qsum ((y :: xs) ++ [x])) with (y + Qsum (xs ++ [x]))%Q.
    change (Qsum (y :: xs)) with (y + Qsum xs)%Q. rewrite IH. lra.
Qed.

Lemma decadePoints_snoc decade smoothed q :
  decadePoints decade (smoothed ++ [q])
  = decadePoints decade smoothed
    ++ (if decide (decadeLabel (s_year q) = decade) then [q] else []).
Proof.
  unfold decadePoints. by rewrite filter_app.
Qed.

(** The peak loop: it returns either its initial pair, when no entry has
    a larger mean, or the first entry whose mean is the largest. *)
Lemma peak_fold_spec (decadeRates : list (string * DecadeStats)) :
  ∀ init : string * Q,
    ∃ res, foldlM peakStep init decadeRates = Some res ∧
      (init.2 <= res.2)%Q ∧
      (∀ e, e ∈ decadeRates → (entryMean e <= res.2)%Q) ∧
      (res = init ∨
       ∃ i e, decadeRates !! i = Some e ∧ res = (e.1, entryMean e) ∧
              (init.2 < entryMean e)%Q ∧
              ∀ j e', (j < i)%nat → decadeRates !! j = Some e' →
                      (entryMean e' < entryMean e)%Q).
Proof.
  induction decadeRates as [|e0 decadeRates IH]; intros init.
  - exists init. split; [done|]. split; [lra|]. split; [|by left].
    intros e He%not_elem_of_nil. done.
  - assert (peakStep init e0
            = Some (if Qltb init.2 (entryMean e0) then (e0.1, entryMean e0) else init))
      as Hstep.
    { unfold peakStep, entryMean. destruct (Z.ltb_spec 0 (d_total e0.2)); [|done].
      by rewrite jsdiv_inject_Z. }
    rewrite foldlM_cons, Hstep. cbn [mbind option_bind].
    set (init' := if Qltb init.2 (entryMean e0) then (e0.1, entryMean e0) else init).
    assert ((init.2 <= init'.2)%Q ∧ (entryMean e0 <= init'.2)%Q ∧
            (init' = init ∨ (init' = (e0.1, entryMean e0) ∧ (init.2 < entryMean e0)%Q)))
      as (Hmono & He0 & Hinit').
    { unfold init'. destruct (Qltb init.2 (entryMean e0)) eqn:E.
      - apply Qltb_lt in E. simpl. split; [lra|]. split; [lra|]. by right.
      - apply Qltb_ge in E. split; [lra|]. split; [done|]. by left. }
    destruct (IH init') as (res & Hres & Hle & Hall & Hcase).
    exists res. split; [done|]. split; [lra|]. split.
    { intros e He. apply elem_of_cons in He as [->|He]; [lra|by apply Hall]. }
    destruct Hcase as [->|(i & e & Hi & -> & Hlt & Hbefore)].
    + destruct Hinit' as [->|[-> Hlt]]; [by left|].
      right. exists 0%nat, e0. split; [done|]. split; [done|]. split; [done|].
      intros j e' Hj. lia.
    + right. exists (S i), e. split; [done|]. split; [done|]. split; [lra|].
      intros [|j] e' Hj He'.
      * simpl in He'. injection He' as <-. lra.
      * simpl in He'. apply (Hbefore j); [lia|done].
Qed.

Lemma decadeInv_nil : decadeInv [] [].
Proof.
  split; [|split].
  - intros q Hq. by apply not_elem_of_nil in Hq.
  - intros e He. by apply not_elem_of_nil in He.
  - intros i e Hi. done.
Qed.

(** Adding one more point keeps [decadeRates] as described. *)
Lemma addToDecade_inv smoothed decadeRates point :
  decadeInv smoothed decadeRates →
  decadeInv (smoothed ++ [point]) (addToDecade decadeRates point).
Proof.
  intros (Hkeys & Hstats & Horder). unfold addToDecade.
  set (decade := decadeLabel (s_year point)).
  set (upd := λ e : string * DecadeStats,
         if String.eqb e.1 decade
         then (e.1, {| d_total := d_total e.2 + 1;
                       d_sum := (d_sum e.2 + s_rate point)%Q |})
         else e).
  set (fresh := (decade, {| d_total := 0; d_sum := 0 |})).
  set (rates := if bool_decide (decade ∈ decadeRates.*1) then decadeRates
                else decadeRates ++ [fresh]).
  assert (∀ e, (upd e).1 = e.1) as Hupd_key.
  { intros e. unfold upd. by destruct (String.eqb e.1 decade). }
  assert (∀ e, e.1 ≠ decade → upd e = e) as Hupd_ne.
  { intros e Hne. unfold upd. by destruct (String.eqb_spec e.1 decade). }
  assert (∀ e, e.1 = decade →
               upd e = (e.1, {| d_total := d_total e.2 + 1;
                                d_sum := (d_sum e.2 + s_rate point)%Q |}))
    as Hupd_eq.
  { intros e Heq. unfold upd. by destruct (String.eqb_spec e.1 decade). }
  assert ((upd <$> rates).*1 = rates.*1) as Hfst.
  { rewrite <- list_fmap_compose. apply list_fmap_ext. intros _ e _. apply Hupd_key. }
  assert (∀ i e, decadeRates !! i = Some e → rates !! i = Some e) as Hold.
  { intros i e Hi. unfold rates. case_bool_decide; [done|].
    by apply lookup_app_l_Some. }
  assert (∀ i e, rates !! i = Some e →
                 decadeRates !! i = Some e ∨
                 ((decade ∉ decadeRates.*1) ∧ i = length decadeRates ∧ e = fresh))
    as Hcases.
  { intros i e Hi. unfold rates in Hi. case_bool_decide as Hin; [by left|].
    apply lookup_app_Some in Hi as [Hi|[Hge Hi]]; [by left|]. right.
    apply list_lookup_singleton_Some in Hi as [Hi ->].
    split; [done|]. split; [lia|done]. }
  assert (decade ∈ rates.*1) as Hdecade.
  { unfold rates. case_bool_decide; [done|].
    rewrite fmap_app. apply elem_of_app. right. by left. }
  assert (∀ k, k ∈ decadeRates.*1 → k ∈ rates.*1) as Hsub.
  { intros k Hk. apply list_elem_of_fmap in Hk as (e & -> & He).
    apply list_elem_of_lookup in He as [i Hi].
    apply list_elem_of_fmap. exists e. split; [done|].
    apply list_elem_of_lookup. exists i. by apply Hold. }
  split; [|split].
  - intros q Hq. rewrite Hfst. apply elem_of_app in Hq as [Hq|Hq].
    + by apply Hsub, Hkeys.
    + apply list_elem_of_singleton in Hq as ->. done.
  - intros e' He'. apply list_elem_of_fmap in He' as (e & -> & He).
    apply list_elem_of_lookup in He as [i Hi].
    rewrite Hupd_key, decadePoints_snoc.
    destruct (Hcases i e Hi) as [Hi'|(Hnew & _ & ->)].
    + destruct (Hstats e) as (Hpos & Htotal & Hsum);
        [by eapply list_elem_of_lookup_2|].
      destruct (decide (decadeLabel (s_year point) = e.1)) as [Heq|Hne].
      * rewrite Hupd_eq by done. simpl. rewrite length_app, fmap_app. simpl.
        split; [lia|]. split; [lia|]. rewrite Qsum_snoc, Hsum. lra.
      * rewrite Hupd_ne by (intros Heq; by apply Hne). rewrite !app_nil_r. done.
    + assert (decadePoints decade smoothed = []) as Hnone.
      { destruct (decadePoints decade smoothed) as [|q rest] eqn:E; [done|].
        assert (q ∈ decadePoints decade smoothed) as Hq by (rewrite E; by left).
        apply list_elem_of_filter in Hq as [Hlabel Hq].
        destruct Hnew. rewrite <- Hlabel. by apply Hkeys. }
      rewrite Hupd_eq by done. simpl.
      rewrite decide_True by done. rewrite Hnone. simpl.
      split; [lia|]. split; [lia|]. unfold Qsum. simpl. lra.
  - intros i e' Hi. apply list_lookup_fmap_Some in Hi as (e & -> & Hi).
    rewrite Hupd_key.
    destruct (Hcases i e Hi) as [Hi'|(Hnew & -> & ->)].
    + destruct (Horder i e Hi') as (s1 & q & s2 & -> & Hq & Hbefore).
      exists s1, q, (s2 ++ [point]). split; [by rewrite <- app_assoc|].
      split; [done|]. intros q' Hq'.
      destruct (Hbefore q' Hq') as (j & e' & Hj & Hj' & Hkey).
      exists j, (upd e'). split; [done|]. split; [|by rewrite Hupd_key].
      rewrite list_lookup_fmap, (Hold j e' Hj'). done.
    + exists smoothed, point, []. split; [done|]. split; [done|].
      intros q' Hq'. pose proof (Hkeys q' Hq') as Hk.
      apply list_elem_of_fmap in Hk as (e' & Hkey & He').
      apply list_elem_of_lookup in He' as [j Hj].
      exists j, (upd e'). split; [by eapply lookup_lt_Some|].
      split; [|by rewrite Hupd_key].
      rewrite list_lookup_fmap, (Hold j e' Hj). done.
Qed.

Lemma decadeRatesOf_inv smoothed : decadeInv smoothed (decadeRatesOf smoothed).
Proof.
  induction smoothed as [|point smoothed IH] using rev_ind.
  - apply decadeInv_nil.
  - unfold decadeRatesOf. rewrite foldl_app. simpl.
    by apply addToDecade_inv.
Qed.

Lemma entryMean_decadeMean smoothed decadeRates e :
  decadeInv smoothed decadeRates → e ∈ decadeRates →
  (entryMean e == decadeMean e.1 smoothed)%Q.
Proof.
  intros (_ & Hstats & _) He. destruct (Hstats e He) as (Hpos & Htotal & Hsum).
  unfold entryMean, decadeMean.
  rewrite (proj2 (Z.ltb_lt _ _) Hpos). by rewrite Hsum, Htotal.
Qed.

(** The peak decade of any smoothed series. *)
Lemma peakDecadeOf_spec (smoothed : list SPoint) :
  ∃ decade, peakDecadeOf smoothed = Some decade ∧
    ((∀ q, q ∈ smoothed → (decadeMean (decadeLabel (s_year q)) smoothed <= 0)%Q) →
     decade = "1990s") ∧
    ((∃ q, q ∈ smoothed ∧ (0 < decadeMean (decadeLabel (s_year q)) smoothed)%Q) →
     ∃ s1 q s2,
       smoothed = s1 ++ q :: s2 ∧ decade = decadeLabel (s_year q) ∧
       (0 < decadeMean decade smoothed)%Q ∧
       (∀ q', q' ∈ smoothed →
              (decadeMean (decadeLabel (s_year q')) smoothed
               <= decadeMean decade smoothed)%Q) ∧
       (∀ q', q' ∈ s1 →
              (decadeMean (decadeLabel (s_year q')) smoothed
               < decadeMean decade smoothed)%Q)).
Proof.
  pose proof (decadeRatesOf_inv smoothed) as Hinv.
  pose proof Hinv as (Hkeys & Hstats & Horder).
  assert (∀ q, q ∈ smoothed →
               ∃ e, e ∈ decadeRatesOf smoothed ∧ e.1 = decadeLabel (s_year q) ∧
                    (entryMean e == decadeMean (decadeLabel (s_year q)) smoothed)%Q)
    as Hentry.
  { intros q Hq. pose proof (Hkeys q Hq) as Hk.
    apply list_elem_of_fmap in Hk as (e & Hkey & He). exists e.
    split; [done|]. split; [done|]. rewrite Hkey.
    by apply (entryMean_decadeMean smoothed (decadeRatesOf smoothed)). }
  unfold peakDecadeOf.
  destruct (peak_fold_spec (decadeRatesOf smoothed) ("1990s", 0%Q))
    as (res & -> & Hle & Hall & Hcase).
  exists res.1. split; [done|]. cbn [snd] in Hle. split.
  - intros Hnone. destruct Hcase as [->|(i & e & Hi & -> & Hlt & _)]; [done|].
    cbn [snd] in Hlt.
    destruct (Horder i e Hi) as (s1 & q & s2 & Hsplit & Hq & _).
    assert (q ∈ smoothed) as Hin
      by (rewrite Hsplit; apply elem_of_app; right; by left).
    specialize (Hnone q Hin). rewrite Hq in Hnone.
    rewrite <- (entryMean_decadeMean smoothed (decadeRatesOf smoothed) e Hinv) in Hnone
      by (by eapply list_elem_of_lookup_2).
    lra.
  - intros (q0 & Hq0 & Hpos0).
    destruct (Hentry q0 Hq0) as (e0 & He0 & _ & Hmean0).
    pose proof (Hall e0 He0) as Hle0.
    destruct Hcase as [->|(i & e & Hi & -> & Hlt & Hbefore)].
    { cbn [snd] in Hle0. lra. }
    cbn [fst snd] in *.
    assert (e ∈ decadeRatesOf smoothed) as He by (by eapply list_elem_of_lookup_2).
    pose proof (entryMean_decadeMean smoothed _ e Hinv He) as Hmean.
    destruct (Horder i e Hi) as (s1 & q & s2 & Hsplit & Hq & Hs1).
    exists s1, q, s2. split; [done|]. split; [done|].
    split; [lra|]. split.
    + intros q' Hq'. destruct (Hentry q' Hq') as (e' & He' & _ & Hmean').
      pose proof (Hall e' He'). lra.
    + intros q' Hq'. destruct (Hs1 q' Hq') as (j & e' & Hj & Hj' & Hkey).
      rewrite <- Hkey.
      pose proof (entryMean_decadeMean smoothed (decadeRatesOf smoothed) e' Hinv
                    ltac:(by eapply list_elem_of_lookup_2)) as Hmean'.
      pose proof (Hbefore j e' Hj Hj'). lra.
Qed.

End PeakDecade.

(** ** The theorems at the sample session *)

Section Witnesses.
Import Tmdb Api Spec.

Lemma breadth_over_raw_distribution_witness :
  ∃ distribution r lo hi,
    rawDistribution 2024 Sample.figures Sample.answers = Some distribution ∧
    computeResults 2024 Sample.figures Sample.answers = Some r ∧
    lo ∈ distribution ∧ hi ∈ distribution ∧
    breadth (metrics r) = year hi - year lo.
Proof.
  destruct (breadth_over_raw_distribution 2024 Sample.figures Sample.answers)
    as (distribution & r & peakRate & Hd & Hr & _ & _ & Hpeak & _ & Hsome).
  pose proof Hd as Hd'. rewrite rawDistribution_eq in Hd'. apply (inj Some) in Hd'.
  pose proof (rawDistribution_ok 2024 Sample.figures Sample.answers) as Hok.
  rewrite Hd' in Hok.
  assert (∃ rest, distribution
                  = {| year := 1975; rate := 2 # 2; sampleSize := 2 |} :: rest)
    as [rest Hrest].
  { rewrite <- Hd'. eexists. vm_compute. reflexivity. }
  destruct (Hsome {| year := 1975; rate := 2 # 2; sampleSize := 2 |})
    as (lo & hi & [Hlo _] & [Hhi _] & _ & Hb).
  - split; [rewrite Hrest; apply list_elem_of_here|]. cbn [rate].
    destruct Hpeak as [->|(p & Hp & <-)]; [vm_compute; discriminate|].
    rewrite Forall_forall in Hok. destruct (Hok p Hp) as (_ & _ & _ & Hle).
    apply Qle_trans with (1 * (1 # 2))%Q; [|vm_compute; discriminate].
    apply Qmult_le_compat_r; [exact Hle|vm_compute; discriminate].
  - exists distribution, r, lo, hi.
    exact (conj Hd (conj Hr (conj Hlo (conj Hhi Hb)))).
Defined.

Lemma metrics_never_fail_witness :
  ∃ q, smoothPoint [{| year := 2000; rate := 0; sampleSize := 0 |}] 0
                   {| year := 2000; rate := 0; sampleSize := 0 |} = Some q ∧
       s_rate q = 0%Q.
Proof.
  apply (proj1 (proj2 (metrics_never_fail 2024 [] []))).
  by repeat constructor.
Defined.

(** Scenario A of the specification: figure A of 1975-1985 recognised,
    figure B of 2015-2021 not: the raw rate of 1980 is 1 on one sample,
    that of 2018 is 0 on one sample, and the overall rate is 50. *)
Example scenario_two_figures :
  ∃ distribution r,
    rawDistribution 2024 [Sample.celeb 1 1975 1985; Sample.celeb 2 2015 2021]
                    [Sample.answer 1 true; Sample.answer 2 false]
      = Some distribution ∧
    computeResults 2024 [Sample.celeb 1 1975 1985; Sample.celeb 2 2015 2021]
                   [Sample.answer 1 true; Sample.answer 2 false]
      = Some r ∧
    {| year := 1980; rate := 1 # 1; sampleSize := 1 |} ∈ distribution ∧
    {| year := 2018; rate := 0 # 1; sampleSize := 1 |} ∈ distribution ∧
    overallRate (metrics r) = 50.
Proof.
  eexists. eexists. split; [vm_compute; reflexivity|].
  split; [vm_compute; reflexivity|].
  split; [|split; [|reflexivity]].
  - do 5 apply list_elem_of_further. apply list_elem_of_here.
  - do 14 apply list_elem_of_further. apply list_elem_of_here.
Qed.

End Witnesses.

(** * Further properties *)

(** ** The estimator *)

Section EstimatorMore.
Import Tmdb Api Spec SpecMore.

Lemma collectYears_omap_acc currentYear knownFor :
  ∀ acc : list Z,
    foldl (λ years work,
             match workYear work with
             | Some year =>
                 if negb (year =? 0) && (1920 <=? year) && (year <=? currentYear)
                 then years ++ [year] else years
             | None => years
             end) acc knownFor
    = acc ++ omap (usableYear currentYear) knownFor.
Proof.
  induction knownFor as [|work rest IH]; intros acc; simpl.
  - by rewrite app_nil_r.
  - rewrite IH. unfold usableYear at 2. destruct (workYear work) as [year|]; [|done].
    destruct (negb (year =? 0) && (1920 <=? year) && (year <=? currentYear));
      [|done].
    by rewrite <- app_assoc.
Qed.

Lemma collectYears_omap currentYear knownFor :
  collectYears currentYear knownFor = omap (usableYear currentYear) knownFor.
Proof. unfold collectYears. by rewrite collectYears_omap_acc. Qed.

Lemma usableYear_Some currentYear work y :
  usableYear currentYear work = Some y ↔
  workYear work = Some y ∧ 1920 ≤ y ≤ currentYear.
Proof.
  unfold usableYear.
  destruct (workYear work) as [year|]; [|split; [done|by intros [? _]]].
  destruct (Z.eqb_spec year 0); destruct (Z.leb_spec 1920 year);
    destruct (Z.leb_spec year currentYear); simpl;
    (split; [intros Heq|intros [Heq Hy]]); try discriminate;
    injection Heq as <-; lia || (split; [done|lia]) || done.
Qed.

(** X1: the estimator gives no window exactly when no work has a year
    hint within [[1920, currentYear]]. *)
Theorem estimate_none_iff currentYear knownFor :
  estimateRelevanceWindow currentYear knownFor = None ↔
  ∀ work y, work ∈ knownFor → workYear work = Some y → ¬ (1920 ≤ y ≤ currentYear).
Proof.
  unfold estimateRelevanceWindow. rewrite collectYears_omap. split.
  - intros Hnone work y Hwork Hy Hrange.
    assert (y ∈ omap (usableYear currentYear) knownFor) as Hin.
    { apply list_elem_of_omap. exists work. split; [done|].
      by apply usableYear_Some. }
    destruct (omap (usableYear currentYear) knownFor) as [|y0 ys].
    + by apply not_elem_of_nil in Hin.
    + by destruct (_ <? 5).
  - intros Hall.
    destruct (omap (usableYear currentYear) knownFor) as [|y0 ys] eqn:E; [done|].
    assert (y0 ∈ omap (usableYear currentYear) knownFor) as Hin by (rewrite E; by left).
    apply list_elem_of_omap in Hin as (work & Hwork & Hy).
    apply usableYear_Some in Hy as [Hy Hrange]. by destruct (Hall work y0).
Qed.

Lemma estimateRelevanceWindow_span currentYear knownFor w :
  estimateRelevanceWindow currentYear knownFor = Some w →
  5 ≤ end_ w - start w.
Proof.
  unfold estimateRelevanceWindow.
  destruct (collectYears currentYear knownFor) as [|y ys]; [done|].
  destruct (Z.ltb_spec (end_ (clampedWindow currentYear y ys)
                        - start (clampedWindow currentYear y ys)) 5);
    intros [= <-]; cbn [start end_]; lia.
Qed.

(** X2: every window the estimator returns spans at least five years
    (the source's "minimum window of 5 years"). *)
Theorem estimate_window_min_span currentYear knownFor w :
  estimateRelevanceWindow currentYear knownFor = Some w →
  5 ≤ end_ w - start w.
Proof.
  apply estimateRelevanceWindow_span.
Qed.

Lemma estimate_window_min_span_witness :
  ∃ w, estimateRelevanceWindow 2024 [Sample.movie "2023-06-02"] = Some w ∧
       5 ≤ end_ w - start w.
Proof.
  exists {| start := 2019; end_ := 2025 |}. split; [reflexivity|].
  exact (estimate_window_min_span 2024 [Sample.movie "2023-06-02"]
           {| start := 2019; end_ := 2025 |} eq_refl).
Defined.

(** X3: the window covers every year hint the estimator keeps that is
    not before 1950. *)
Theorem estimate_window_covers_hints currentYear knownFor w work y :
  estimateRelevanceWindow currentYear knownFor = Some w →
  work ∈ knownFor → workYear work = Some y → 1950 ≤ y ≤ currentYear →
  start w ≤ y ≤ end_ w.
Proof.
  unfold estimateRelevanceWindow. intros Hw Hwork Hy Hrange.
  assert (y ∈ collectYears currentYear knownFor) as Hin.
  { rewrite collectYears_omap. apply list_elem_of_omap. exists work.
    split; [done|]. apply usableYear_Some. split; [done|lia]. }
  destruct (collectYears currentYear knownFor) as [|y0 ys]; [done|].
  destruct (foldl_Zmin_spec ys y0) as [_ Hmin].
  destruct (foldl_Zmax_spec ys y0) as [_ Hmax]. cbv zeta in *.
  rewrite Forall_forall in Hmin, Hmax.
  specialize (Hmin y Hin). specialize (Hmax y Hin).
  unfold clampedWindow in Hw. cbn [start end_] in Hw.
  set (lo := foldl Z.min y0 ys) in *. set (hi := foldl Z.max y0 ys) in *.
  pose proof (Z.div_mod (Z.max 1950 (lo - 3) + Z.min currentYear (hi + 3)) 2
                ltac:(lia)) as Hdiv.
  pose proof (Z.mod_pos_bound (Z.max 1950 (lo - 3) + Z.min currentYear (hi + 3)) 2
                ltac:(lia)) as Hmod.
  destruct (Z.ltb_spec (Z.min currentYear (hi + 3) - Z.max 1950 (lo - 3)) 5);
    injection Hw as <-; cbn [start end_]; lia.
Qed.

Lemma estimate_window_covers_hints_witness :
  ∃ w, estimateRelevanceWindow 2024 [Sample.movie "2023-06-02"] = Some w ∧
       start w ≤ 2023 ≤ end_ w.
Proof.
  exists {| start := 2019; end_ := 2025 |}. split; [reflexivity|].
  exact (estimate_window_covers_hints 2024 [Sample.movie "2023-06-02"]
           {| start := 2019; end_ := 2025 |} (Sample.movie "2023-06-02") 2023
           eq_refl (list_elem_of_here _ _) eq_refl ltac:(lia)).
Defined.

Lemma foldl_min_Permutation (y y' : Z) (ys ys' : list Z) :
  y :: ys ≡ₚ y' :: ys' → foldl Z.min y ys = foldl Z.min y' ys'.
Proof.
  intros Hperm.
  destruct (foldl_Zmin_spec ys y) as [Hin Hall].
  destruct (foldl_Zmin_spec ys' y') as [Hin' Hall']. cbv zeta in *.
  rewrite Forall_forall in Hall, Hall'.
  rewrite Hperm in Hin. rewrite <- Hperm in Hin'.
  specialize (Hall _ Hin'). specialize (Hall' _ Hin). lia.
Qed.

Lemma foldl_max_Permutation (y y' : Z) (ys ys' : list Z) :
  y :: ys ≡ₚ y' :: ys' → foldl Z.max y ys = foldl Z.max y' ys'.
Proof.
  intros Hperm.
  destruct (foldl_Zmax_spec ys y) as [Hin Hall].
  destruct (foldl_Zmax_spec ys' y') as [Hin' Hall']. cbv zeta in *.
  rewrite Forall_forall in Hall, Hall'.
  rewrite Hperm in Hin. rewrite <- Hperm in Hin'.
  specialize (Hall _ Hin'). specialize (Hall' _ Hin). lia.
Qed.

(** X4: the window does not depend on the order of the known-for works. *)
Theorem estimate_order_independent currentYear knownFor knownFor' :
  knownFor ≡ₚ knownFor' →
  estimateRelevanceWindow currentYear knownFor
  = estimateRelevanceWindow currentYear knownFor'.
Proof.
  intros Hperm. unfold estimateRelevanceWindow. rewrite !collectYears_omap.
  assert (omap (usableYear currentYear) knownFor
          ≡ₚ omap (usableYear currentYear) knownFor') as Hyears by (by rewrite Hperm).
  destruct (omap (usableYear currentYear) knownFor) as [|y ys];
    destruct (omap (usableYear currentYear) knownFor') as [|y' ys'].
  - done.
  - by apply Permutation_nil_cons in Hyears.
  - symmetry in Hyears. by apply Permutation_nil_cons in Hyears.
  - unfold clampedWindow.
    by rewrite (foldl_min_Permutation y y' ys ys' Hyears),
               (foldl_max_Permutation y y' ys ys' Hyears).
Qed.

Lemma estimate_order_independent_witness :
  estimateRelevanceWindow 2024 [Sample.movie "1994-09-23"; Sample.movie "2001-01-01"]
  = estimateRelevanceWindow 2024 [Sample.movie "2001-01-01"; Sample.movie "1994-09-23"].
Proof.
  apply estimate_order_independent. apply Permutation_swap.
Defined.

Lemma pretty_N_char_digit (d : N) :
  (d < 10)%N →
  digitValue (pretty_N_char d) = Some (Z.of_N d) ∧
  ∀ r, parseInt (String (pretty_N_char d) r)
       = readDigits (String (pretty_N_char d) r) None.
Proof.
  intros Hd.
  assert (d = 0 ∨ d = 1 ∨ d = 2 ∨ d = 3 ∨ d = 4 ∨ d = 5 ∨ d = 6 ∨ d = 7
          ∨ d = 8 ∨ d = 9)%N as Hcases by lia.
  repeat (destruct Hcases as [->|Hcases]); try subst d; split; reflexivity.
Qed.

Lemma pretty_N_char_not_dash (d : N) :
  Ascii.eqb (pretty_N_char d) "-" = false.
Proof. unfold pretty_N_char. by repeat case_match. Qed.

Lemma pretty_N_go_app (x : N) : ∀ s t, pretty_N_go x s +:+ t = pretty_N_go x (s +:+ t).
Proof.
  induction (N.lt_wf_0 x) as [x _ IH]. intros s t.
  assert (x = 0 ∨ 0 < x)%N as [->|Hx] by lia; [by rewrite !pretty_N_go_0|].
  rewrite (pretty_N_go_step x s), (pretty_N_go_step x (s +:+ t)) by done.
  rewrite IH by (by apply N.div_lt). reflexivity.
Qed.

Lemma firstSegment_pretty (x : N) :
  ∀ s, firstSegment (pretty_N_go x s) = pretty_N_go x (firstSegment s).
Proof.
  induction (N.lt_wf_0 x) as [x _ IH]. intros s.
  assert (x = 0 ∨ 0 < x)%N as [->|Hx] by lia; [by rewrite !pretty_N_go_0|].
  rewrite (pretty_N_go_step x s), (pretty_N_go_step x (firstSegment s)) by done.
  rewrite IH by (by apply N.div_lt).
  cbn [firstSegment]. by rewrite pretty_N_char_not_dash.
Qed.

Lemma pretty_N_go_head (x : N) :
  (0 < x)%N → ∀ s, ∃ d r, (d < 10)%N ∧ pretty_N_go x s = String (pretty_N_char d) r.
Proof.
  induction (N.lt_wf_0 x) as [x _ IH]. intros Hx s.
  rewrite pretty_N_go_step by done.
  destruct (N.eq_0_gt_0_cases (x `div` 10)%N) as [->|Hdiv].
  - rewrite pretty_N_go_0. eexists _, _. split; [|done]. by apply N.mod_lt.
  - apply IH; [by apply N.div_lt|done].
Qed.

Lemma readDigits_pretty (x : N) :
  (0 < x)%N →
  ∀ s, readDigits (pretty_N_go x s) None = readDigits s (Some (Z.of_N x)).
Proof.
  induction (N.lt_wf_0 x) as [x _ IH]. intros Hx s.
  rewrite pretty_N_go_step by done.
  assert (x `mod` 10 < 10)%N as Hmod by (by apply N.mod_lt).
  destruct (pretty_N_char_digit _ Hmod) as [Hdigit _].
  pose proof (N.div_mod x 10 ltac:(done)) as Hx10.
  destruct (N.eq_0_gt_0_cases (x `div` 10)%N) as [Hdiv|Hdiv].
  - rewrite Hdiv, pretty_N_go_0. cbn [readDigits]. rewrite Hdigit.
    do 2 f_equal. cbn [default]. lia.
  - rewrite IH by (by apply N.div_lt || done). cbn [readDigits].
    rewrite Hdigit. do 2 f_equal. cbn [default from_option]. unfold Datatypes.id. lia.
Qed.

(** X29: the year of a date string is read back: for a year [y] that a
    number holds exactly, [getYear] on the decimal numeral of [y] followed
    by a dash and anything else is [y]. *)
Theorem getYear_of_date (y : Z) (rest : string) :
  0 ≤ y < 2 ^ 53 →
  getYear (Some (pretty y +:+ "-" +:+ rest)) = Some y.
Proof.
  intros [Hy _]. destruct y as [|p|p]; [done| |lia].
  change (pretty (Z.pos p)) with (pretty_N_go (N.pos p) "").
  rewrite pretty_N_go_app. change ("" +:+ "-" +:+ rest) with (String "-" rest).
  destruct (pretty_N_go_head (N.pos p) ltac:(done) (String "-" rest))
    as (d & r & Hd & Hhead).
  unfold getYear. rewrite Hhead at 1. rewrite firstSegment_pretty.
  cbn [firstSegment]. change (Ascii.eqb "-" "-") with true. cbv iota.
  destruct (pretty_N_go_head (N.pos p) ltac:(done) "") as (d' & r' & Hd' & Hhead').
  destruct (pretty_N_char_digit _ Hd') as [_ Hparse].
  rewrite Hhead', Hparse, <- Hhead'.
  by rewrite readDigits_pretty.
Qed.

Lemma getYear_of_date_witness : getYear (Some "1994-07-06") = Some 1994.
Proof.
  apply (getYear_of_date 1994 "07-06"). split; [lia|reflexivity].
Defined.

End EstimatorMore.

(** ** Building and selecting figures *)

Section FiguresProps.
Import Tmdb Api Figures Spec SpecMore.

Lemma topWorksOf_spec knownFor :
  (length (topWorksOf knownFor) ≤ 3)%nat ∧
  ∀ s, s ∈ topWorksOf knownFor →
       s ≠ EmptyString ∧
       ∃ work, work ∈ knownFor ∧ (title work = Some s ∨ kf_name work = Some s).
Proof.
  unfold topWorksOf. split.
  - rewrite length_take. lia.
  - intros s Hs. apply (subseteq_take 3) in Hs.
    apply list_elem_of_omap in Hs as (work & Hwork & Hs).
    unfold orString in Hs.
    destruct (title work) as [[|c t]|] eqn:Ht;
      destruct (kf_name work) as [[|c' n]|] eqn:Hn; simplify_eq;
      (split; [done|]); exists work; rewrite ?Ht, ?Hn; auto.
Qed.

(** X5: a figure built from a person carries the person's id and name,
    the window the estimator gives for the known-for works (at least
    five years wide), between one and three top works, each the
    non-empty title or name of a known-for work, a non-empty occupation
    and a popularity score of at most 100, not negative when the
    popularity is not. *)
Theorem built_figure_well_formed currentYear person c :
  buildCelebrityFromPerson currentYear person = Some c →
  id c = p_id person ∧ name c = p_name person ∧
  (∃ knownFor, known_for person = Some knownFor ∧
     estimateRelevanceWindow currentYear knownFor = Some (relevance_window c) ∧
     ∀ s, s ∈ top_works c →
          s ≠ EmptyString ∧
          ∃ work, work ∈ knownFor ∧ (title work = Some s ∨ kf_name work = Some s)) ∧
  5 ≤ end_ (relevance_window c) - start (relevance_window c) ∧
  (1 ≤ length (top_works c) ≤ 3)%nat ∧
  occupation c ≠ EmptyString ∧
  popularity_score c ≤ 100 ∧
  ((0 <= popularity person)%Q → 0 ≤ popularity_score c).
Proof.
  unfold buildCelebrityFromPerson. intros Hc.
  destruct (known_for person) as [[|work rest]|] eqn:Hkf; [done| |done].
  destruct (estimateRelevanceWindow currentYear (work :: rest)) as [window|] eqn:Hw;
    [|done].
  case_bool_decide as Hlen; [done|]. injection Hc as <-.
  cbn [id name relevance_window top_works occupation popularity_score].
  destruct (topWorksOf_spec (work :: rest)) as [Hle Htop].
  split; [done|]. split; [done|]. split; [by exists (work :: rest)|].
  split; [by eapply estimateRelevanceWindow_span|]. split; [lia|]. split.
  { by destruct (known_for_department person). }
  split; [lia|]. intros Hpop.
  assert (0 ≤ mathRound (popularity person)); [|lia].
  pose proof (mathRound_nearest (popularity person)) as [Hlo _].
  assert (inject_Z (-1) < inject_Z (mathRound (popularity person)))%Q as Hlt.
  { change (inject_Z (-1)) with (-1 # 1)%Q. lra. }
  rewrite <- Zlt_Qlt in Hlt. lia.
Qed.

Lemma built_figure_well_formed_witness :
  ∃ c, buildCelebrityFromPerson 2024
         (Sample.person 7 (Some "/p.jpg") [Sample.movie "1994-09-23"]) = Some c ∧
       popularity_score c ≤ 100.
Proof.
  eexists. split; [vm_compute; reflexivity|].
  refine (proj1 (proj2 (proj2 (proj2 (proj2 (proj2 (proj2
            (built_figure_well_formed 2024
               (Sample.person 7 (Some "/p.jpg") [Sample.movie "1994-09-23"])
               _ _)))))))).
  vm_compute. reflexivity.
Defined.

(** X6: no figure is built exactly when the person has no known-for
    work, or the estimator gives no window for them, or no known-for work
    has a non-empty title or name. *)
Theorem built_figure_none_iff currentYear person :
  buildCelebrityFromPerson currentYear person = None ↔
  known_for person = None ∨ known_for person = Some [] ∨
  ∃ knownFor, known_for person = Some knownFor ∧
    (estimateRelevanceWindow currentYear knownFor = None ∨
     ∀ work, work ∈ knownFor →
             truthy (title work) = false ∧ truthy (kf_name work) = false).
Proof.
  unfold buildCelebrityFromPerson.
  destruct (known_for person) as [[|work rest]|] eqn:Hkf; [naive_solver..| |naive_solver].
  assert (length (topWorksOf (work :: rest)) = 0%nat ↔
          ∀ w, w ∈ work :: rest →
               truthy (title w) = false ∧ truthy (kf_name w) = false) as Htop.
  { unfold topWorksOf. rewrite length_take. split.
    - intros Hlen w Hw.
      destruct (omap _ (work :: rest)) as [|s l] eqn:E; [|simpl in Hlen; lia].
      destruct (title w) as [[|c t]|] eqn:Ht;
        destruct (kf_name w) as [[|c' n]|] eqn:Hn; try done;
        exfalso; eapply (not_elem_of_nil (A:=string)); rewrite <- E;
        apply list_elem_of_omap; exists w; (split; [done|]);
        unfold orString; rewrite Ht, ?Hn; done.
    - intros Hall.
      destruct (omap _ (work :: rest)) as [|s l] eqn:E; [done|]. exfalso.
      assert (s ∈ omap (λ w, match orString (title w) (kf_name w) with
                             | Some EmptyString | None => None
                             | Some s => Some s
                             end) (work :: rest)) as Hs by (rewrite E; by left).
      apply list_elem_of_omap in Hs as (w & Hw & Hs).
      destruct (Hall w Hw) as [Ht Hn]. unfold orString in Hs.
      destruct (title w) as [[|c t]|]; destruct (kf_name w) as [[|c' n]|];
        simplify_eq. }
  destruct (estimateRelevanceWindow currentYear (work :: rest)) as [window|] eqn:Hw.
  - case_bool_decide as Hlen.
    + split; [|done]. intros _. right; right. exists (work :: rest).
      split; [done|]. right. by apply Htop.
    + split; [done|]. intros [?|[?|(knownFor & Hk & Hcase)]]; [done..|].
      injection Hk as <-. destruct Hcase as [?|Hall]; [congruence|].
      destruct Hlen. apply Htop. exact Hall.
  - split; [|done]. intros _. right; right. exists (work :: rest). auto.
Qed.

Lemma floor_index (r : Q) (n : Z) :
  0 < n → (0 <= r < 1)%Q → 0 ≤ Qfloor (r * inject_Z n) < n.
Proof.
  intros Hn [Hr0 Hr1].
  assert (inject_Z 0 < inject_Z n)%Q as Hpos by (rewrite <- Zlt_Qlt; lia).
  change (inject_Z 0) with 0%Q in Hpos.
  pose proof (Qfloor_le (r * inject_Z n)) as Hle.
  pose proof (Qlt_floor (r * inject_Z n)) as Hlt.
  assert (inject_Z (Qfloor (r * inject_Z n)) < inject_Z n)%Q as Hup by nra.
  assert (inject_Z 0 < inject_Z (Qfloor (r * inject_Z n) + 1))%Q as Hlow.
  { change (inject_Z 0) with 0%Q. nra. }
  rewrite <- Zlt_Qlt in Hup, Hlow. lia.
Qed.

Lemma swap_Some {T : Type} (result : list T) (i j : nat) :
  (i < length result)%nat → (j < length result)%nat →
  ∃ result', swap result i j = Some result' ∧
             result' ≡ₚ result ∧ length result' = length result.
Proof.
  intros Hi Hj. unfold swap.
  destruct (lookup_lt_is_Some_2 result i Hi) as [a Ha].
  destruct (lookup_lt_is_Some_2 result j Hj) as [b Hb].
  rewrite Ha, Hb. eexists. split; [done|]. split.
  - by apply Permutation_insert_swap.
  - by rewrite !length_insert.
Qed.

Lemma shuffleLoop_spec {T : Type} (rand : nat → Q) :
  (∀ k, (0 <= rand k < 1)%Q) →
  ∀ (i calls : nat) (result : list T),
    (i < length result ∨ i = 0)%nat →
    ∃ result', shuffleLoop rand calls i result = Some result' ∧ result' ≡ₚ result.
Proof.
  intros Hrand. induction i as [|i IH]; intros calls result Hi.
  - by exists result.
  - destruct Hi as [Hi|?]; [|lia]. cbn [shuffleLoop].
    pose proof (floor_index (rand calls) (Z.of_nat (S i) + 1) ltac:(lia) (Hrand calls))
      as Hj.
    rewrite (proj2 (Z.leb_le _ _) (proj1 Hj)).
    destruct (swap_Some result (S i)
                (Z.to_nat (Qfloor (rand calls * inject_Z (Z.of_nat (S i) + 1)))))
      as (result1 & -> & Hperm & Hlen); [done|lia|].
    cbn [mbind option_bind].
    destruct (IH (S calls) result1) as (result' & -> & Hperm'); [lia|].
    exists result'. split; [done|]. by rewrite Hperm'.
Qed.

Lemma shuffle_spec {T : Type} (rand : nat → Q) (array : list T) :
  (∀ k, (0 <= rand k < 1)%Q) →
  ∃ result, shuffle rand array = Some result ∧ result ≡ₚ array.
Proof.
  intros Hrand. unfold shuffle. apply shuffleLoop_spec; [done|].
  destruct array; simpl; lia.
Qed.

(** X7: given random numbers of [[0, 1)], [shuffle] returns a permutation
    of its argument. *)
Theorem shuffle_permutation {T : Type} (rand : nat → Q) (array : list T) :
  (∀ k, (0 <= rand k < 1)%Q) →
  ∃ result, shuffle rand array = Some result ∧ result ≡ₚ array.
Proof.
  apply shuffle_spec.
Qed.

Lemma shuffle_permutation_witness :
  ∃ result, shuffle (λ _, 1 # 2) [1; 2; 3; 4] = Some result ∧ result ≡ₚ [1; 2; 3; 4].
Proof.
  apply shuffle_permutation. intros k.
  split; [vm_compute; discriminate|vm_compute; reflexivity].
Defined.

Lemma selectCelebritiesForSession_spec (rand : nat → Q) (celebrities : list Celebrity)
    (count : nat) :
  (∀ k, (0 <= rand k < 1)%Q) →
  ∃ selected,
    selectCelebritiesForSession rand celebrities count = Some selected ∧
    length selected = Nat.min count (length celebrities) ∧
    selected ⊆+ celebrities ∧
    (NoDup (id <$> celebrities) → NoDup (id <$> selected)).
Proof.
  intros Hrand. unfold selectCelebritiesForSession.
  destruct (shuffle_spec rand celebrities Hrand) as (shuffled & -> & Hperm).
  cbn [mbind option_bind]. eexists. split; [done|].
  assert (take (Nat.min count (length shuffled)) shuffled ⊆+ celebrities) as Hsub.
  { rewrite <- Hperm. apply submseteq_take. }
  split; [|split; [done|]].
  - rewrite length_take, (Permutation_length Hperm). lia.
  - intros Hnodup. rewrite <- Hperm in Hnodup. rewrite fmap_take.
    rewrite <- (take_drop (Nat.min count (length shuffled)) (id <$> shuffled))
      in Hnodup.
    by apply NoDup_app in Hnodup as [? _].
Qed.

(** X8: given random numbers of [[0, 1)], the selection returns
    [min(count, n)] of the [n] figures of the pool, each at most as often
    as the pool has it; so it has no two figures of the same id when the
    pool has none. *)
Theorem selection_from_pool (rand : nat → Q) (celebrities : list Celebrity)
    (count : nat) :
  (∀ k, (0 <= rand k < 1)%Q) →
  ∃ selected,
    selectCelebritiesForSession rand celebrities count = Some selected ∧
    length selected = Nat.min count (length celebrities) ∧
    selected ⊆+ celebrities ∧
    (NoDup (id <$> celebrities) → NoDup (id <$> selected)).
Proof.
  apply selectCelebritiesForSession_spec.
Qed.

Lemma selection_from_pool_witness :
  ∃ selected,
    selectCelebritiesForSession (λ _, 1 # 2) Sample.five 3 = Some selected ∧
    length selected = 3%nat.
Proof.
  destruct (selection_from_pool (λ _, 1 # 2) Sample.five 3)
    as (selected & Hsel & Hlen & _).
  - intros k. split; [vm_compute; discriminate|vm_compute; reflexivity].
  - exists selected. exact (conj Hsel Hlen).
Defined.

End FiguresProps.

(** ** The session routes *)

Section RoutesProps.
Import Tmdb Api Figures Routes Spec SpecMore.

Lemma shuffleLoop_Permutation {T : Type} (rand : nat → Q) :
  ∀ (i calls : nat) (result result' : list T),
    shuffleLoop rand calls i result = Some result' → result' ≡ₚ result.
Proof.
  induction i as [|i IH]; intros calls result result' Hloop.
  - by injection Hloop as <-.
  - cbn [shuffleLoop] in Hloop.
    destruct (0 <=? Qfloor (rand calls * inject_Z (Z.of_nat (S i) + 1))); [|done].
    destruct (swap result (S i) _) as [result1|] eqn:Hswap; [|done].
    cbn [mbind option_bind] in Hloop. apply IH in Hloop. rewrite Hloop.
    unfold swap in Hswap.
    destruct (result !! S i) as [a|] eqn:Ha; [|done].
    destruct (result !! Z.to_nat _) as [b|] eqn:Hb; [|done].
    injection Hswap as <-. by apply Permutation_insert_swap.
Qed.

Lemma selection_Some rand celebrities count selected :
  selectCelebritiesForSession rand celebrities count = Some selected →
  length selected = Nat.min count (length celebrities) ∧ selected ⊆+ celebrities.
Proof.
  unfold selectCelebritiesForSession, shuffle. intros Hsel.
  destruct (shuffleLoop rand 0 (length celebrities - 1) celebrities)
    as [shuffled|] eqn:Hshuffle; [|done].
  apply shuffleLoop_Permutation in Hshuffle. injection Hsel as <-. split.
  - rewrite length_take, (Permutation_length Hshuffle). lia.
  - rewrite <- Hshuffle. apply submseteq_take.
Qed.

(** X9: when [start] answers with a session, the id was not yet a key
    of the table, and the table gains under it a fresh row (status
    playing, index 0, no response) of between 5 and 40 figures, each built
    from a fetched person with a profile path and taken at most as often
    as such persons give it; no other row changes and the reply
    describes the new row. *)
Theorem start_creates_session currentYear fetched rand uuid
    (db db' : gmap string Session) body :
  start currentYear fetched rand uuid db = Some (Json body, db') →
  ∃ pages selected,
    fetched = Some pages ∧
    db !! uuid = None ∧
    db' = <[uuid := newSession selected]> db ∧
    stored (newSession selected) ∧
    (5 ≤ length selected ≤ 40)%nat ∧
    selected ⊆+ omap (buildCelebrityFromPerson currentYear) (popularPeople pages) ∧
    sb_sessionId body = uuid ∧
    totalCelebrities body = length selected ∧
    sb_currentIndex body = 0%nat ∧
    celebrity body = selected !! 0%nat ∧
    (∀ other, other ≠ uuid → db' !! other = db !! other).
Proof.
  unfold start. intros Hstart. destruct fetched as [pages|]; [|done].
  destruct (selectCelebritiesForSession rand _ 40) as [selected|] eqn:Hsel; [|done].
  cbn [mbind option_bind] in Hstart.
  case_bool_decide as Hfive; [done|].
  destruct (db !! uuid) eqn:Huuid; [done|].
  injection Hstart as <- <-.
  apply selection_Some in Hsel as [Hlen Hsub].
  exists pages, selected. split; [done|]. split; [done|]. split; [done|].
  split; [apply stored_start; lia|]. split; [lia|]. split; [done|].
  do 4 (split; [done|]). intros other Hother. by apply lookup_insert_ne.
Qed.

Lemma start_creates_session_witness :
  ∃ body db',
    start 2024
      (Some [[Sample.person 1 (Some "/a.jpg") [Sample.movie "1994-09-23"];
              Sample.person 2 (Some "/b.jpg") [Sample.movie "1999-03-31"];
              Sample.person 3 None [Sample.movie "2001-01-01"];
              Sample.person 4 (Some "/d.jpg") [Sample.movie "2005-05-05"]];
             [Sample.person 5 (Some "/e.jpg") [Sample.movie "2010-07-16"];
              Sample.person 6 (Some "/f.jpg") [Sample.movie "2014-11-07"];
              Sample.person 7 (Some "/g.jpg") [Sample.movie "2019-04-26"]]])
      (λ _, 1 # 2) "u1" ∅ = Some (Json body, db') ∧
    (5 ≤ totalCelebrities body ≤ 40)%nat.
Proof.
  eassert (∃ body db', start 2024 _ (λ _, 1 # 2) "u1" ∅ = Some (Json body, db'))
    as (body & db' & Hstart).
  2: { exists body, db'. split; [exact Hstart|].
       destruct (start_creates_session _ _ _ _ _ _ _ Hstart)
         as (pages & selected & _ & _ & _ & _ & Hlen & _ & _ & Htotal & _).
       rewrite Htotal. exact Hlen. }
  eexists. eexists. vm_compute. reflexivity.
Defined.

(** X10: when [start] answers with an error the table is unchanged, and
    once the people are fetched and the random numbers are of [[0, 1)],
    the error is "Not enough celebrity data available" exactly when
    fewer than five figures can be built from the fetched persons with a
    profile path. *)
Theorem start_not_enough currentYear fetched rand uuid (db : gmap string Session) :
  (∀ code message db',
     start currentYear fetched rand uuid db = Some (Error code message, db') →
     db' = db ∧ code = 500) ∧
  (∀ pages, fetched = Some pages → (∀ k, (0 <= rand k < 1)%Q) →
     (length (omap (buildCelebrityFromPerson currentYear) (popularPeople pages)) < 5)%nat
     ↔ start currentYear fetched rand uuid db
       = Some (Error 500 "Not enough celebrity data available", db)).
Proof.
  split.
  - unfold start. intros code message db' Hstart.
    destruct fetched as [pages|]; [|by injection Hstart as <- <- <-].
    destruct (selectCelebritiesForSession rand _ 40) as [selected|]; [|done].
    cbn [mbind option_bind] in Hstart.
    case_bool_decide; [by injection Hstart as <- <- <-|].
    destruct (db !! uuid); [by injection Hstart as <- <- <-|done].
  - intros pages -> Hrand. unfold start.
    destruct (selectCelebritiesForSession_spec rand
                (omap (buildCelebrityFromPerson currentYear) (popularPeople pages))
                40 Hrand) as (selected & -> & Hlen & _).
    cbn [mbind option_bind]. case_bool_decide as Hfive.
    + split; [done|]. intros _. lia.
    + split; [lia|]. destruct (db !! uuid); intros [=].
Qed.

Lemma start_not_enough_witness :
  start 2024 (Some [[Sample.person 1 (Some "/a.jpg") [Sample.movie "1994-09-23"]]])
        (λ _, 1 # 2) "u1" ∅
  = Some (Error 500 "Not enough celebrity data available", ∅).
Proof.
  apply (proj2 (start_not_enough 2024 _ (λ _, 1 # 2) "u1" ∅) _ eq_refl).
  - intros k. split; [vm_compute; discriminate|vm_compute; reflexivity].
  - vm_compute. lia.
Defined.

(** Rows reached by a run of answers from a row the server can hold are
    rows the server can hold. *)
Lemma stored_respondAll now sessionId (answers : list bool) :
  ∀ (db : gmap string Session) s,
    db !! sessionId = Some s → stored s →
    ∃ s', respondAll now db sessionId answers !! sessionId = Some s' ∧ stored s'.
Proof.
  induction answers as [|recognized answers IH]; intros db s Hs Hst.
  - exists s. done.
  - assert (is_Some ((respond now db sessionId recognized).2 !! sessionId))
      as [s1 Hs1].
    { destruct (decide (length (celebrities s) ≤ current_index s)%nat) as [Hfull|Hgo].
      - rewrite (respond_complete _ _ _ _ s Hs Hfull). by eexists.
      - destruct (lookup_lt_is_Some_2 (celebrities s) (current_index s)) as [c Hc];
          [lia|].
        rewrite (respond_record _ _ _ _ s c Hs Hc), lookup_insert_eq. by eexists. }
    apply (IH _ s1 Hs1). by eapply stored_respond.
Qed.

(** X11: in every row the server can hold, the responses are one per
    figure already passed, in the order of the figures: the response ids
    are the ids of the first [current_index] figures; and the completion
    time is set exactly when the status is results. *)
Theorem stored_responses_follow_figures s :
  stored s →
  celebrityId <$> responses s = id <$> take (current_index s) (celebrities s) ∧
  length (responses s) = current_index s ∧
  (is_Some (completed_at s) ↔ status s = Results).
Proof.
  induction 1 as [selected Hfive|now db sessionId recognized s s' Hst IH Hs Hs'].
  - simpl. split; [done|]. split; [done|]. split; [by intros [? ?]|done].
  - destruct IH as (Hids & Hlen & Hdone).
    destruct (decide (length (celebrities s) ≤ current_index s)%nat) as [Hfull|Hgo].
    + rewrite (respond_complete _ _ _ _ s Hs Hfull) in Hs'. simpl in Hs'.
      by simplify_eq.
    + destruct (lookup_lt_is_Some_2 (celebrities s) (current_index s)) as [c Hc];
        [lia|].
      rewrite (respond_record _ _ _ _ s c Hs Hc), lookup_insert_eq in Hs'.
      injection Hs' as <-. cbn [responses current_index celebrities status completed_at].
      split; [|split].
      * rewrite fmap_app, Hids. replace (current_index s + 1)%nat
          with (S (current_index s)) by lia.
        by rewrite (take_S_r _ _ c Hc), fmap_app.
      * rewrite length_app. simpl. lia.
      * case_bool_decide; split; try done; by intros [? ?].
Qed.

Lemma stored_responses_follow_figures_witness :
  ∃ s', respondAll "2024-01-02T00:00:00.000Z" Sample.db0 "s1"
          [true; false; true; true; false] !! "s1" = Some s' ∧
        celebrityId <$> responses s' = [1; 2; 3; 4; 5] ∧
        length (responses s') = 5%nat ∧
        is_Some (completed_at s').
Proof.
  destruct (stored_respondAll "2024-01-02T00:00:00.000Z" "s1"
              [true; false; true; true; false] Sample.db0
              (newSession Sample.five) eq_refl)
    as (s' & Hs' & Hstored).
  { apply stored_start. simpl. lia. }
  exists s'. split; [exact Hs'|].
  destruct (stored_responses_follow_figures s' Hstored) as (Hids & Hlen & Hdone).
  vm_compute in Hs'. apply (inj Some) in Hs'. subst s'.
  split; [exact Hids|]. split; [exact Hlen|].
  apply (proj2 Hdone). reflexivity.
Defined.

(** What the table holds after a run of answers that stays within the
    figures. *)
Lemma respondAll_spec now sessionId (answers : list bool) :
  ∀ (db : gmap string Session) s,
    db !! sessionId = Some s →
    (current_index s + length answers ≤ length (celebrities s))%nat →
    ∃ s', respondAll now db sessionId answers !! sessionId = Some s' ∧
          celebrities s' = celebrities s ∧
          current_index s' = (current_index s + length answers)%nat ∧
          responses s' = responses s ++
                         zip_with (responseFor now)
                                  (drop (current_index s) (celebrities s)) answers ∧
          (answers ≠ [] →
           status s' = if bool_decide (current_index s' = length (celebrities s))
                       then Results else Playing).
Proof.
  induction answers as [|b answers IH]; intros db s Hs Hlen.
  - exists s. simpl. split; [done|]. split; [done|]. split; [lia|].
    split; [|done]. destruct (drop _ _); by rewrite app_nil_r.
  - simpl in Hlen.
    destruct (lookup_lt_is_Some_2 (celebrities s) (current_index s)) as [c Hc];
      [lia|].
    simpl. unfold respondAll in IH.
    pose proof (respond_record now db sessionId b s c Hs Hc) as Hrec.
    rewrite Hrec. clear Hrec.
    match goal with
    | |- context [<[sessionId := ?row]> db] => set (s1 := row)
    end.
    destruct (IH (<[sessionId := s1]> db) s1)
      as (s' & Hs' & Hcs & Hidx & Hresp & Hstatus).
    { apply lookup_insert_eq. }
    { simpl. lia. }
    simpl in Hcs, Hidx, Hresp, Hstatus.
    exists s'. split; [exact Hs'|]. split; [done|]. split; [lia|]. split.
    + rewrite Hresp, <- app_assoc. f_equal.
      rewrite (drop_S _ c _ Hc). simpl. unfold responseFor at 2.
      by replace (current_index s + 1)%nat with (S (current_index s)) by lia.
    + intros _. destruct answers as [|b' answers].
      * simpl in Hs'. rewrite lookup_insert_eq in Hs'. injection Hs' as <-. simpl.
        repeat case_bool_decide; done || lia.
      * by apply Hstatus.
Qed.

(** X12: answering every figure of a fresh session in turn completes
    it: the status is results, the index is the number of figures, the
    figures are unchanged, there is one response per figure in the order
    of the figures with the answers given, and any further submission is
    rejected and changes nothing. *)
Theorem play_through now sessionId (db : gmap string Session) selected
    (answers : list bool) :
  db !! sessionId = Some (newSession selected) →
  selected ≠ [] →
  length answers = length selected →
  let db' := respondAll now db sessionId answers in
  ∃ s', db' !! sessionId = Some s' ∧
        status s' = Results ∧
        current_index s' = length selected ∧
        celebrities s' = selected ∧
        responses s' = zip_with (responseFor now) selected answers ∧
        ∀ now' recognized,
          respond now' db' sessionId recognized
          = (Error 400 "Session already complete", db').
Proof.
  intros Hs Hne Hlen db'.
  destruct (respondAll_spec now sessionId answers db (newSession selected) Hs)
    as (s' & Hs' & Hcs & Hidx & Hresp & Hstatus).
  { simpl. lia. }
  simpl in Hcs, Hidx, Hresp, Hstatus.
  exists s'. split; [exact Hs'|]. split.
  { rewrite Hstatus; [by rewrite bool_decide_eq_true_2 by lia|].
    intros ->. destruct selected; simpl in Hlen; done. }
  split; [lia|]. split; [done|]. split; [done|].
  intros now' recognized. apply (respond_complete _ _ _ _ s' Hs').
  rewrite Hcs, Hidx. simpl. lia.
Qed.

Lemma play_through_witness :
  ∃ s', respondAll "2024-01-02T00:00:00.000Z" Sample.db0 "s1"
          [true; false; true; true; false] !! "s1" = Some s' ∧
        status s' = Results.
Proof.
  destruct (play_through "2024-01-02T00:00:00.000Z" "s1" Sample.db0 Sample.five
              [true; false; true; true; false])
    as (s' & Hs' & Hstatus & _).
  - reflexivity.
  - discriminate.
  - reflexivity.
  - exists s'. exact (conj Hs' Hstatus).
Defined.

(** X13: after an accepted submission, reading the session gives the
    index, the status and the next figure that the reply to the
    submission announced (no figure when the session is complete), and
    the responses with the new one at the end. *)
Theorem session_after_respond now (db db' : gmap string Session) sessionId
    recognized s body :
  db !! sessionId = Some s →
  respond now db sessionId recognized = (Json body, db') →
  getSession db' sessionId
  = Json {| gs_sessionId := sessionId;
            gs_status := if isComplete body then Results else Playing;
            gs_totalCelebrities := length (celebrities s);
            gs_currentIndex := nextIndex body;
            gs_celebrity := nextCelebrity body;
            gs_responses := responses s ++
                            [responseFor now (revealed body) recognized] |}.
Proof.
  intros Hs Hrespond. unfold respond in Hrespond. rewrite Hs in Hrespond.
  case_bool_decide as Hfull; [done|].
  destruct (celebrities s !! current_index s) as [c|] eqn:Hc; [|done].
  injection Hrespond as <- <-. unfold getSession. rewrite lookup_insert_eq.
  cbn. f_equal. f_equal.
  repeat case_bool_decide; done || lia.
Qed.

Lemma session_after_respond_witness :
  ∃ body, getSession (respond "2024-01-02T00:00:00.000Z" Sample.db0 "s1" true).2 "s1"
          = Json body ∧ gs_currentIndex body = 1%nat.
Proof.
  eexists. split.
  - apply (session_after_respond "2024-01-02T00:00:00.000Z" Sample.db0 _ "s1" true
             (newSession Sample.five)); reflexivity.
  - reflexivity.
Defined.

(** X30: [respond] never changes the row of another session; when it
    answers with an error the table is unchanged, and the error is 404
    for an id that is no key of the table or 400 for a session whose
    index has reached the number of its figures, never 500. *)
Theorem respond_errors_and_frame now (db : gmap string Session) sessionId recognized :
  (∀ other, other ≠ sessionId →
            (respond now db sessionId recognized).2 !! other = db !! other) ∧
  (∀ code message,
     (respond now db sessionId recognized).1 = Error code message →
     (respond now db sessionId recognized).2 = db ∧
     ((code = 404 ∧ message = "Session not found" ∧ db !! sessionId = None) ∨
      (code = 400 ∧ message = "Session already complete" ∧
       ∃ s, db !! sessionId = Some s ∧
            (length (celebrities s) ≤ current_index s)%nat))).
Proof.
  unfold respond. destruct (db !! sessionId) as [s|] eqn:Hrow.
  - case_bool_decide as Hdone.
    + split; [done|]. intros code message [= <- <-]. split; [done|].
      right. eauto.
    + destruct (lookup_lt_is_Some_2 (celebrities s) (current_index s)) as [c ->];
        [lia|].
      cbn [fst snd]. split; [|done].
      intros other Hother. by rewrite lookup_insert_ne.
  - split; [done|]. intros code message [= <- <-]. split; [done|]. by left.
Qed.

End RoutesProps.

(** ** The tally in closed form *)

Section TallyMore.
Import Tmdb Api Spec SpecMore.

Lemma tallyResponse_closed celebrities (yearScores : list (Z * Score)) response :
  tallyResponse celebrities yearScores response
  = (λ e, if attributed celebrities e.1 response
          then count1 (recognized response) e else e) <$> yearScores.
Proof.
  unfold tallyResponse, attributed.
  destruct (List.find _ celebrities) as [celeb|].
  - rewrite foldl_bump_window. apply list_fmap_ext. intros _ e _.
    case_bool_decide as Hin.
    + by rewrite (proj2 (Z.leb_le _ _) (proj1 Hin)), (proj2 (Z.leb_le _ _) (proj2 Hin)).
    + destruct (Z.leb_spec (start (relevance_window celeb)) e.1);
        destruct (Z.leb_spec e.1 (end_ (relevance_window celeb))); try done.
      destruct Hin. lia.
  - symmetry. etrans; [|apply list_fmap_id]. by apply list_fmap_ext.
Qed.

Lemma counts_cons celebrities r responses y :
  totalAt celebrities (r :: responses) y
  = (if attributed celebrities y r then 1 else 0) + totalAt celebrities responses y ∧
  recognizedAt celebrities (r :: responses) y
  = (if attributed celebrities y r && recognized r then 1 else 0)
    + recognizedAt celebrities responses y.
Proof.
  unfold totalAt, recognizedAt. rewrite !filter_cons.
  destruct (attributed celebrities y r); destruct (recognized r);
    repeat case_decide; simpl; try lia; intuition discriminate.
Qed.

Lemma foldl_tally_closed celebrities responses :
  ∀ yearScores : list (Z * Score),
    foldl (tallyResponse celebrities) yearScores responses
    = (λ e, (e.1, {| sc_recognized := sc_recognized e.2
                                      + recognizedAt celebrities responses e.1;
                     sc_total := sc_total e.2
                                 + totalAt celebrities responses e.1 |}))
        <$> yearScores.
Proof.
  induction responses as [|r responses IH]; intros yearScores.
  - simpl. symmetry. etrans; [|apply list_fmap_id]. apply list_fmap_ext.
    intros _ [k [rec tot]] _. unfold totalAt, recognizedAt. simpl.
    by rewrite !Z.add_0_r.
  - simpl. rewrite IH, tallyResponse_closed, <- list_fmap_compose.
    apply list_fmap_ext. intros _ [k [rec tot]] _.
    destruct (counts_cons celebrities r responses k) as [Ht Hr].
    cbn [compose fst snd].
    destruct (attributed celebrities k r); destruct (recognized r);
      unfold count1; cbn [fst snd sc_recognized sc_total andb] in *;
      rewrite Ht, Hr; f_equal; f_equal; lia.
Qed.

Lemma tally_closed currentYear celebrities responses :
  tally currentYear celebrities responses
  = (λ y, (y, {| sc_recognized := recognizedAt celebrities responses y;
                 sc_total := totalAt celebrities responses y |}))
      <$> seqZ 1950 (currentYear - 1950 + 1).
Proof.
  unfold tally. rewrite foldl_tally_closed. unfold initYearScores.
  rewrite <- list_fmap_compose. by apply list_fmap_ext.
Qed.

(** X14: the tally has one entry per year of [[1950, currentYear]], in
    ascending order, holding the number of answers whose figure is found
    and whose relevance window contains the year, and the number of
    recognised ones among them. *)
Theorem tally_counts currentYear celebrities responses :
  tally currentYear celebrities responses
  = (λ y, (y, {| sc_recognized := recognizedAt celebrities responses y;
                 sc_total := totalAt celebrities responses y |}))
      <$> seqZ 1950 (currentYear - 1950 + 1).
Proof.
  apply tally_closed.
Qed.

(** X15: the raw distribution does not depend on the order of the
    answers. *)
Theorem distribution_order_independent currentYear celebrities responses responses' :
  responses ≡ₚ responses' →
  rawDistribution currentYear celebrities responses
  = rawDistribution currentYear celebrities responses'.
Proof.
  intros Hperm. unfold rawDistribution. rewrite !tally_closed. f_equal.
  apply list_fmap_ext. intros _ y _. unfold recognizedAt, totalAt.
  by rewrite Hperm.
Qed.

Lemma distribution_order_independent_witness :
  rawDistribution 2024 Sample.figures Sample.answers
  = rawDistribution 2024 Sample.figures (reverse Sample.answers).
Proof.
  apply distribution_order_independent. symmetry. apply reverse_Permutation.
Defined.

Lemma find_id_None (celebrities : list Celebrity) (i : Z) :
  List.find (λ c, id c =? i) celebrities = None ↔ i ∉ id <$> celebrities.
Proof.
  induction celebrities as [|c celebrities IH]; simpl.
  - split; [intros _; apply not_elem_of_nil|done].
  - rewrite not_elem_of_cons. destruct (Z.eqb_spec (id c) i) as [->|Hne].
    + split; [done|]. by intros [? _].
    + rewrite IH. split; [by intros ?; split|by intros [_ ?]].
Qed.

(** X16: answers whose id is the id of no figure of the session are
    ignored: the tally is that of the other answers. *)
Theorem unknown_answers_ignored currentYear celebrities responses :
  tally currentYear celebrities responses
  = tally currentYear celebrities
      (filter (λ r, celebrityId r ∈ id <$> celebrities) responses).
Proof.
  assert (∀ y r, attributed celebrities y r = true →
                 celebrityId r ∈ id <$> celebrities) as Hknown.
  { intros y r Hattr. unfold attributed in Hattr.
    destruct (List.find _ celebrities) eqn:Hfind; [|done].
    destruct (decide (celebrityId r ∈ id <$> celebrities)) as [|Hnot]; [done|].
    apply find_id_None in Hnot. congruence. }
  rewrite !tally_closed. apply list_fmap_ext. intros _ y _.
  unfold recognizedAt, totalAt. rewrite !list_filter_filter.
  f_equal; f_equal; f_equal; f_equal; apply list_filter_iff; intros r;
    intuition eauto.
Qed.

End TallyMore.

(** ** The distributions and the metrics *)

Section MetricsMore.
Import Tmdb Api Spec SpecMore.

Lemma pointsOf_cons e (yearScores : list (Z * Score)) :
  pointsOf (e :: yearScores)
  = (if 0 <? sc_total e.2
     then [{| year := e.1;
              rate := (inject_Z (sc_recognized e.2) / inject_Z (sc_total e.2))%Q;
              sampleSize := sc_total e.2 |}]
     else []) ++ pointsOf yearScores.
Proof. reflexivity. Qed.

Lemma pointsOf_sorted (yearScores : list (Z * Score)) :
  StronglySorted Z.lt yearScores.*1 →
  StronglySorted Z.lt (year <$> pointsOf yearScores).
Proof.
  induction yearScores as [|e yearScores IH]; intros Hsorted; [constructor|].
  rewrite fmap_cons in Hsorted. apply StronglySorted_inv in Hsorted as [Hrest Hlt].
  rewrite pointsOf_cons. destruct (0 <? sc_total e.2); [|by apply IH].
  simpl. constructor; [by apply IH|].
  apply Forall_fmap, Forall_forall. intros p Hp.
  apply elem_of_pointsOf in Hp as (e' & He' & _ & Hy & _). simpl. rewrite Hy.
  rewrite Forall_forall in Hlt. apply Hlt. apply list_elem_of_fmap. eauto.
Qed.

Lemma seqZ_sorted (n : nat) : ∀ m, StronglySorted Z.lt (seqZ m (Z.of_nat n)).
Proof.
  induction n as [|n IH]; intros m; [constructor|].
  rewrite seqZ_cons by lia. replace (Z.pred (Z.of_nat (S n))) with (Z.of_nat n) by lia.
  constructor; [apply IH|]. apply Forall_forall. intros k Hk.
  apply elem_of_seqZ in Hk. lia.
Qed.

(** X17: the raw distribution is in strictly ascending order of year
    (so no year occurs twice), and the smoothed distribution returned has
    the same years in the same order. *)
Theorem distribution_sorted_by_year currentYear celebrities responses :
  ∃ distribution r,
    rawDistribution currentYear celebrities responses = Some distribution ∧
    computeResults currentYear celebrities responses = Some r ∧
    StronglySorted Z.lt (year <$> distribution) ∧
    s_year <$> rs_distribution r = year <$> distribution.
Proof.
  destruct (computeResults_spec currentYear celebrities responses)
    as (r & Hr & Hs & _).
  cbv zeta in Hs. exists (pointsOf (tally currentYear celebrities responses)), r.
  split; [apply rawDistribution_eq|]. split; [done|]. split.
  - apply pointsOf_sorted. rewrite tally_keys.
    destruct (decide (0 ≤ currentYear - 1950 + 1)) as [Hn|Hn].
    + rewrite <- (Z2Nat.id _ Hn). apply seqZ_sorted.
    + rewrite seqZ_nil by lia. constructor.
  - destruct (smooth_spec (pointsOf (tally currentYear celebrities responses)))
      as (smoothed & Hs' & Hy & _).
    rewrite Hs in Hs'. by injection Hs' as <-.
Qed.

(** The window loop over [k] consecutive indices from [lo]. *)
Lemma window_fold_sum (distribution : list Point) (k : nat) :
  ∀ (lo : nat) (acc : Z * Q),
    (lo + k ≤ length distribution)%nat →
    ∃ acc', foldlM (windowStep distribution) acc (seqZ (Z.of_nat lo) (Z.of_nat k))
            = Some acc' ∧
            acc'.1 = acc.1 + Zsum (sampleSize <$> take k (drop lo distribution)) ∧
            (acc'.2 == acc.2 + Qsum (weight <$> take k (drop lo distribution)))%Q.
Proof.
  induction k as [|k IH]; intros lo acc Hlen.
  - exists acc. simpl. split; [done|]. unfold Zsum, Qsum. simpl. split; [lia|lra].
  - destruct (lookup_lt_is_Some_2 distribution lo) as [p Hp]; [lia|].
    rewrite seqZ_cons by lia.
    replace (Z.pred (Z.of_nat (S k))) with (Z.of_nat k) by lia.
    replace (Z.succ (Z.of_nat lo)) with (Z.of_nat (S lo)) by lia.
    assert (windowStep distribution acc (Z.of_nat lo)
            = Some (acc.1 + sampleSize p,
                    (acc.2 + rate p * inject_Z (sampleSize p))%Q)) as Hstep.
    { unfold windowStep. by rewrite Nat2Z.id, Hp. }
    rewrite foldlM_cons, Hstep. cbn [mbind option_bind].
    destruct (IH (S lo) (acc.1 + sampleSize p,
                         (acc.2 + rate p * inject_Z (sampleSize p))%Q))
      as (acc' & Hacc' & H1 & H2); [lia|].
    exists acc'. split; [exact Hacc'|].
    rewrite (drop_S _ p _ Hp). cbn [take fmap list_fmap].
    change (Zsum (sampleSize p :: ?l)) with (sampleSize p + Zsum l).
    change (Qsum (weight p :: ?l)) with (weight p + Qsum l)%Q.
    cbn [fst snd] in H1, H2. unfold weight at 1. split; [lia|]. rewrite H2. lra.
Qed.

(** X18: the smoothed rate at index [i] is the weighted mean of the raw
    rates at the indices [i − 2 .. i + 2] that exist, with the sample
    sizes as weights: [Σ rate × sampleSize / Σ sampleSize]; the weight sum
    is positive. *)
Theorem smoothed_rate_formula currentYear celebrities responses :
  ∃ distribution r,
    rawDistribution currentYear celebrities responses = Some distribution ∧
    computeResults currentYear celebrities responses = Some r ∧
    length (rs_distribution r) = length distribution ∧
    ∀ i q, rs_distribution r !! i = Some q →
      0 < Zsum (sampleSize <$> windowOf distribution i) ∧
      (s_rate q == Qsum (weight <$> windowOf distribution i)
                   / inject_Z (Zsum (sampleSize <$> windowOf distribution i)))%Q.
Proof.
  destruct (computeResults_spec currentYear celebrities responses)
    as (r & Hr & Hs & _).
  cbv zeta in Hs.
  pose proof (rawDistribution_ok currentYear celebrities responses) as Hok.
  set (distribution := pointsOf (tally currentYear celebrities responses)) in *.
  exists distribution, r.
  split; [apply rawDistribution_eq|]. split; [done|].
  apply smooth_lookup in Hs as [Hlen Hs]. split; [done|]. intros i q Hq.
  assert (i < length distribution)%nat as Hi
    by (rewrite <- Hlen; by eapply lookup_lt_Some).
  destruct (lookup_lt_is_Some_2 distribution i Hi) as [p Hp].
  pose proof (Hs i p q Hp Hq) as Hpoint. rewrite smoothPoint_unfold in Hpoint.
  replace (Z.max 0 (Z.of_nat i - 2)) with (Z.of_nat (i - 2)) in Hpoint by lia.
  replace (Z.min (Z.of_nat (length distribution) - 1) (Z.of_nat i + 2)
           - Z.of_nat (i - 2) + 1)
    with (Z.of_nat (Nat.min (length distribution - 1) (i + 2) - (i - 2) + 1))
    in Hpoint by lia.
  destruct (window_fold_sum distribution
              (Nat.min (length distribution - 1) (i + 2) - (i - 2) + 1)
              (i - 2) (0, 0%Q)) as (acc & Hacc & H1 & H2); [lia|].
  rewrite Hacc in Hpoint. cbn [mbind option_bind fst snd] in Hpoint, H1, H2.
  fold (windowOf distribution i) in H1, H2.
  assert (0 < Zsum (sampleSize <$> windowOf distribution i)) as Hpos.
  { assert (Forall (λ p, 0 < sampleSize p) (windowOf distribution i)) as Hsizes.
    { apply Forall_forall. intros p' Hp'. unfold windowOf in Hp'.
      apply (subseteq_take _ _) in Hp'. apply (subseteq_drop _ _) in Hp'.
      rewrite Forall_forall in Hok. by destruct (Hok p' Hp') as (_ & ? & _). }
    assert (windowOf distribution i ≠ []) as Hne.
    { intros Hnil. apply (f_equal length) in Hnil. unfold windowOf in Hnil.
      rewrite length_take, length_drop in Hnil. simpl in Hnil. lia. }
    destruct (windowOf distribution i) as [|p0 l]; [done|].
    inversion Hsizes as [|? ? Hp0 Hl]; subst. clear - Hp0 Hl.
    assert (0 ≤ Zsum (sampleSize <$> l)).
    { induction Hl as [|x l Hx _ IH]; [done|].
      rewrite fmap_cons. change (Zsum (?a :: ?l)) with (a + Zsum l). lia. }
    rewrite fmap_cons. change (Zsum (?a :: ?l)) with (a + Zsum l). lia. }
  split; [done|].
  rewrite H1, Z.add_0_l in Hpoint.
  rewrite (proj2 (Z.ltb_lt _ _) Hpos), jsdiv_inject_Z in Hpoint by done.
  cbn [mbind option_bind] in Hpoint. injection Hpoint as <-. cbn [s_rate].
  rewrite H2. by rewrite Qplus_0_l.
Qed.

Lemma mathRound_range (x : Q) (a b : Z) :
  (inject_Z a <= x <= inject_Z b)%Q → a ≤ mathRound x ≤ b.
Proof.
  intros [Ha Hb]. pose proof (mathRound_nearest x) as [Hlo Hhi].
  assert (inject_Z (a + -1) < inject_Z (mathRound x))%Q as H1.
  { rewrite inject_Z_plus. change (inject_Z (-1)) with (-1 # 1)%Q. lra. }
  assert (inject_Z (mathRound x) < inject_Z (b + 1))%Q as H2.
  { rewrite inject_Z_plus. change (inject_Z 1) with 1%Q. lra. }
  rewrite <- Zlt_Qlt in H1, H2. lia.
Qed.

Lemma weighted_sum_bounds currentYear distribution :
  Forall (pointOk currentYear) distribution →
  (inject_Z 1950 * totalWeightOf distribution <= weightedYearSumOf distribution)%Q ∧
  (weightedYearSumOf distribution
   <= inject_Z currentYear * totalWeightOf distribution)%Q.
Proof.
  induction 1 as [|p distribution ((Hy1 & Hy2) & Hn & Hr0 & _) _ [IH1 IH2]].
  - unfold totalWeightOf, weightedYearSumOf, Qsum. simpl. split; lra.
  - rewrite totalWeightOf_cons, weightedYearSumOf_cons.
    assert (0 <= weight p)%Q as Hw.
    { unfold weight.
      assert (inject_Z 0 <= inject_Z (sampleSize p))%Q as Hs
        by (rewrite <- Zle_Qle; lia).
      change (inject_Z 0) with 0%Q in Hs. nra. }
    assert (inject_Z 1950 <= inject_Z (year p))%Q as H1 by (by rewrite <- Zle_Qle).
    assert (inject_Z (year p) <= inject_Z currentYear)%Q as H2
      by (by rewrite <- Zle_Qle).
    split; nra.
Qed.

(** X19: the centre of gravity is [currentYear] when the total weight is
    0, and otherwise a year of [[1950, currentYear]]. *)
Theorem center_of_gravity_in_range currentYear celebrities responses :
  ∃ distribution r,
    rawDistribution currentYear celebrities responses = Some distribution ∧
    computeResults currentYear celebrities responses = Some r ∧
    ((totalWeightOf distribution == 0)%Q ∧ centerOfGravity (metrics r) = currentYear ∨
     (0 < totalWeightOf distribution)%Q ∧
     1950 ≤ centerOfGravity (metrics r) ≤ currentYear).
Proof.
  destruct (computeResults_spec currentYear celebrities responses)
    as (r & Hr & _ & _ & Hcog & _).
  cbv zeta in Hcog. rewrite centerOfGravityOf_spec in Hcog. injection Hcog as Hcog.
  pose proof (rawDistribution_ok currentYear celebrities responses) as Hok.
  set (distribution := pointsOf (tally currentYear celebrities responses)) in *.
  exists distribution, r. split; [apply rawDistribution_eq|]. split; [done|].
  pose proof (totalWeightOf_nonneg currentYear distribution Hok) as Hnonneg.
  destruct (weighted_sum_bounds currentYear distribution Hok) as [Hlo Hhi].
  destruct (Qltb 0 (totalWeightOf distribution)) eqn:Hpos.
  - apply Qltb_lt in Hpos. right. split; [done|]. rewrite <- Hcog.
    apply mathRound_range. split.
    + apply Qle_shift_div_l; [done|]. lra.
    + apply Qle_shift_div_r; [done|]. lra.
  - apply Qltb_ge in Hpos. left. split; [lra|done].
Qed.

(** X20: the breadth is not negative and at most [currentYear − 1950]
    (0 when the current year is before 1950). *)
Theorem breadth_in_range currentYear celebrities responses :
  ∃ r, computeResults currentYear celebrities responses = Some r ∧
       0 ≤ breadth (metrics r) ≤ Z.max 0 (currentYear - 1950).
Proof.
  destruct (computeResults_spec currentYear celebrities responses)
    as (r & Hr & _ & _ & _ & Hb & _).
  cbv zeta in Hb.
  pose proof (rawDistribution_ok currentYear celebrities responses) as Hok.
  set (distribution := pointsOf (tally currentYear celebrities responses)) in *.
  destruct (breadthOf_spec distribution)
    as (peakRate & b & Hb' & _ & _ & _ & _ & Hnone & Hsome).
  rewrite Hb in Hb'. injection Hb' as <-. exists r. split; [done|].
  destruct (decide (Exists (λ p, Qle_bool (peakRate * (1 # 2)) (rate p) = true)
                           distribution)) as [Hex|Hnex].
  - apply Exists_exists in Hex as (p0 & Hp0 & Hrate). apply Qle_bool_iff in Hrate.
    destruct (Hsome p0 (conj Hp0 Hrate)) as (lo & hi & Hlo & Hhi & Hbetween & ->).
    pose proof (Hbetween lo Hlo) as Hlohi.
    rewrite Forall_forall in Hok.
    destruct (Hok lo (proj1 Hlo)) as (Hylo & _). destruct (Hok hi (proj1 Hhi)) as (Hyhi & _).
    lia.
  - rewrite Hnone; [lia|]. intros p [Hp Hrate]. apply Hnex.
    apply Exists_exists. exists p. split; [done|]. by apply Qle_bool_iff.
Qed.

Lemma Qsum_zero (xs : list Q) : Forall (λ x, (x == 0)%Q) xs → (Qsum xs == 0)%Q.
Proof.
  induction 1 as [|x xs Hx _ IH]; [reflexivity|].
  change (Qsum (x :: xs)) with (x + Qsum xs)%Q. rewrite Hx, IH. lra.
Qed.

Lemma Qdiv_zero (b : Q) : (0 / b == 0)%Q.
Proof. unfold Qdiv. apply Qmult_0_l. Qed.

Lemma smoothPoint_zero distribution i point q :
  Forall (λ p, (rate p == 0)%Q) distribution →
  smoothPoint distribution i point = Some q → (s_rate q == 0)%Q.
Proof.
  intros Hzero. rewrite smoothPoint_unfold.
  destruct (window_fold_inv (λ a, (a.2 == 0)%Q) distribution _
              (window_indices (Z.of_nat (length distribution)) (Z.of_nat i)))
    with (acc := (0, 0%Q)) as (acc & -> & Hacc).
  - intros a p Ha Hp. cbn [snd] in *. rewrite Forall_forall in Hzero.
    rewrite Ha, (Hzero p Hp). lra.
  - reflexivity.
  - cbn [mbind option_bind]. destruct (Z.ltb_spec 0 acc.1) as [Hpos|_].
    + rewrite jsdiv_inject_Z by done. cbn [mbind option_bind]. intros [= <-].
      cbn [s_rate]. rewrite Hacc. apply Qdiv_zero.
    + cbn [mbind option_bind]. intros [= <-]. reflexivity.
Qed.

Lemma meanRate_zero (xs : list SPoint) m :
  Forall (λ q, (s_rate q == 0)%Q) xs → meanRate xs = Some m → (m == 0)%Q.
Proof.
  intros Hzero. unfold meanRate.
  assert (∀ a, (a == 0)%Q → (foldl (λ s d, (s + s_rate d)%Q) a xs == 0)%Q) as Hsum.
  { induction Hzero as [|x xs Hx _ IH]; intros a Ha; [done|].
    simpl. apply IH. rewrite Ha, Hx. lra. }
  destruct xs as [|x xs]; [by intros [= <-]|].
  cbn [Nat.ltb Nat.leb length]. rewrite jsdiv_inject_Z by lia. intros [= <-].
  rewrite (Hsum 0%Q) by reflexivity. apply Qdiv_zero.
Qed.

Lemma filter_none {A : Type} (P : A → Prop) `{∀ x, Decision (P x)} (l : list A) :
  Forall (λ x, ¬ P x) l → filter P l = [].
Proof.
  induction 1 as [|x l Hx _ IH]; [done|]. by rewrite filter_cons_False.
Qed.

(** X22: when no answer is a recognition, every raw and every smoothed
    rate is 0 and the metrics are the defaults: peak decade "1990s",
    centre of gravity [currentYear], breadth 0, overall rate 0 and
    nostalgia index 1. *)
Theorem nothing_recognized currentYear celebrities responses :
  Forall (λ a, recognized a = false) responses →
  ∃ distribution r,
    rawDistribution currentYear celebrities responses = Some distribution ∧
    computeResults currentYear celebrities responses = Some r ∧
    Forall (λ p, (rate p == 0)%Q) distribution ∧
    Forall (λ q, (s_rate q == 0)%Q) (rs_distribution r) ∧
    peakDecade (metrics r) = "1990s" ∧
    centerOfGravity (metrics r) = currentYear ∧
    breadth (metrics r) = 0 ∧
    overallRate (metrics r) = 0 ∧
    (nostalgiaIndex (metrics r) == 1)%Q.
Proof.
  intros Hfalse.
  destruct (computeResults_spec currentYear celebrities responses)
    as (r & Hr & Hs & Hpeak & Hcog & Hb & (o & Ho & Hrate) & (n & Hn & Hnost)).
  cbv zeta in Hs, Hcog, Hb.
  set (distribution := pointsOf (tally currentYear celebrities responses)) in *.
  exists distribution, r. split; [apply rawDistribution_eq|]. split; [done|].
  assert (Forall (λ p, (rate p == 0)%Q) distribution) as Hraw.
  { apply Forall_forall. intros p Hp.
    apply elem_of_pointsOf in Hp as (e & He & _ & _ & _ & ->).
    rewrite tally_closed in He. apply list_elem_of_fmap in He as (y & -> & _).
    cbn [snd sc_recognized]. unfold recognizedAt. rewrite filter_none.
    - apply Qdiv_zero.
    - eapply Forall_impl; [exact Hfalse|]. intros a Ha [_ Hrec]. congruence. }
  assert (Forall (λ q, (s_rate q == 0)%Q) (rs_distribution r)) as Hsmooth.
  { apply smooth_lookup in Hs as [Hlen Hs]. apply Forall_lookup. intros i q Hq.
    destruct (lookup_lt_is_Some_2 distribution i) as [p Hp].
    { rewrite <- Hlen. by eapply lookup_lt_Some. }
    by apply (smoothPoint_zero distribution i p q Hraw), Hs. }
  split; [done|]. split; [done|]. split; [|split; [|split; [|split]]].
  - destruct (peakDecadeOf_spec (rs_distribution r)) as (decade & Hd & Hdefault & _).
    rewrite Hpeak in Hd. injection Hd as <-. apply Hdefault. intros q _.
    unfold decadeMean. rewrite Qsum_zero; [by rewrite Qdiv_zero|].
    apply Forall_fmap, Forall_forall. intros q' Hq'.
    apply list_elem_of_filter in Hq' as [_ Hq'].
    rewrite Forall_forall in Hsmooth. by apply Hsmooth.
  - rewrite centerOfGravityOf_spec in Hcog. injection Hcog as <-.
    rewrite (proj2 (Qltb_ge _ _)); [done|].
    unfold totalWeightOf. rewrite Qsum_zero; [lra|].
    apply Forall_fmap. eapply Forall_impl; [exact Hraw|].
    intros p Hp. simpl. unfold weight. rewrite Hp. lra.
  - destruct (breadthOf_spec distribution)
      as (peakRate & b & Hb' & _ & Hfloor & _ & _ & Hnone & _).
    rewrite Hb in Hb'. injection Hb' as <-. apply Hnone. intros p [Hp Habove].
    rewrite Forall_forall in Hraw. pose proof (Hraw p Hp). lra.
  - rewrite Hrate. assert (o == 0)%Q as ->; [|by vm_compute].
    unfold overallRateOf in Ho. rewrite filter_none in Ho.
    + destruct responses; [by injection Ho as <-|].
      cbn [Nat.ltb Nat.leb length] in Ho. rewrite jsdiv_inject_Z in Ho by lia.
      injection Ho as <-. apply Qdiv_zero.
    + eapply Forall_impl; [exact Hfalse|]. intros a Ha. congruence.
  - rewrite Hnost.
    destruct (meanRate_is_Some (filter (λ d, 2000 ≤ s_year d) (rs_distribution r)))
      as [post Hpost].
    assert (post == 0)%Q as Hzero.
    { apply (meanRate_zero _ post) in Hpost; [done|].
      apply Forall_forall. intros q Hq. apply list_elem_of_filter in Hq as [_ Hq].
      rewrite Forall_forall in Hsmooth. by apply Hsmooth. }
    rewrite (nostalgia_fallback _ post Hpost) in Hn by lra.
    injection Hn as <-. by vm_compute.
Qed.

Lemma nothing_recognized_witness :
  ∃ r, computeResults 2024 Sample.figures
         [Sample.answer 1 false; Sample.answer 2 false; Sample.answer 3 false]
       = Some r ∧ centerOfGravity (metrics r) = 2024.
Proof.
  destruct (nothing_recognized 2024 Sample.figures
              [Sample.answer 1 false; Sample.answer 2 false; Sample.answer 3 false])
    as (distribution & r & _ & Hr & _ & _ & _ & Hcog & _).
  - repeat constructor.
  - exists r. exact (conj Hr Hcog).
Defined.

End MetricsMore.

(** ** The client's navigation *)

Section ClientProps.
Import Tmdb Spec SpecMore.
Import App.

Lemma showFigure_ok c index celeb :
  (∀ k, is_Some (localResponses c !! k) → k ∈ id <$> celebrities (state c)) →
  celebrities (state c) !! index = Some celeb →
  clientOk (showFigure c index celeb).
Proof.
  intros Hanswers Hceleb. split; [by exists celeb|]. exact Hanswers.
Qed.

(** X23: the client keeps showing a figure of its session.  A started
    client with at least one figure shows the first one; from a client
    that shows the figure at its index, [submitResponse] and
    [changeAnswer] stay on it, [nextCelebrity] hands over to
    [completeGame] exactly on the last figure and otherwise moves to the
    next one, [goBack] stays at index 0 and otherwise moves to the
    previous one, neither throws, and none changes the figures. *)
Theorem client_shows_session_figure :
  (∀ dataSessionId dataCelebrities,
     dataCelebrities ≠ [] → clientOk (startedClient dataSessionId dataCelebrities)) ∧
  (∀ c, clientOk c →
     (∀ recognized,
        clientOk (submitResponse recognized c) ∧
        celebrities (state (submitResponse recognized c)) = celebrities (state c) ∧
        currentIndex (state (submitResponse recognized c)) = currentIndex (state c)) ∧
     (clientOk (changeAnswer c) ∧
      celebrities (state (changeAnswer c)) = celebrities (state c) ∧
      currentIndex (state (changeAnswer c)) = currentIndex (state c)) ∧
     (if bool_decide (currentIndex (state c) + 1 = length (celebrities (state c)))%nat
      then nextCelebrity c = CompleteGame
      else ∃ c', nextCelebrity c = Done c' ∧ clientOk c' ∧
                 celebrities (state c') = celebrities (state c) ∧
                 currentIndex (state c') = (currentIndex (state c) + 1)%nat) ∧
     (∃ c', goBack c = Done c' ∧ clientOk c' ∧
            celebrities (state c') = celebrities (state c) ∧
            currentIndex (state c') = (currentIndex (state c) - 1)%nat)).
Proof.
  split.
  - intros dataSessionId [|celeb rest] Hne; [done|]. split; [by exists celeb|].
    intros k [b Hb]. unfold startedClient in Hb. cbn [localResponses] in Hb.
    by rewrite lookup_empty in Hb.
  - intros c [(celeb & Hcur & Hat) Hanswers].
    apply lookup_lt_Some in Hat as Hlt. split; [|split; [|split]].
    + intros recognized. unfold submitResponse. rewrite Hcur. simpl.
      split; [|done]. split; [by exists celeb|]. simpl. intros k Hk.
      destruct (decide (k = id celeb)) as [->|Hne].
      * apply list_elem_of_fmap. exists celeb. split; [done|].
        by eapply list_elem_of_lookup_2.
      * rewrite lookup_insert_ne in Hk by done. by apply Hanswers.
    + split; [|done]. split; [by exists celeb|]. exact Hanswers.
    + unfold nextCelebrity. case_bool_decide as Hlast.
      * by rewrite bool_decide_eq_true_2 by lia.
      * rewrite bool_decide_eq_false_2 by lia.
        destruct (lookup_lt_is_Some_2 (celebrities (state c))
                    (currentIndex (state c) + 1)) as [next Hnext]; [lia|].
        rewrite Hnext. eexists. split; [done|].
        split; [by apply showFigure_ok|done].
    + unfold goBack. case_bool_decide as Hzero.
      * exists c. split; [done|]. split; [|split; [done|lia]].
        split; [by exists celeb|exact Hanswers].
      * destruct (lookup_lt_is_Some_2 (celebrities (state c))
                    (currentIndex (state c) - 1)) as [prev Hprev]; [lia|].
        rewrite Hprev. eexists. split; [done|].
        split; [by apply showFigure_ok|done].
Qed.

Lemma client_shows_session_figure_witness :
  clientOk (submitResponse true (startedClient "s1" Sample.five)).
Proof.
  refine (proj1 (proj1 (proj2 client_shows_session_figure
                          (startedClient "s1" Sample.five) _) true)).
  apply (proj1 client_shows_session_figure). discriminate.
Defined.

(** X24: answering, going on to the next figure and coming back leads
    to exactly the state after the answer: the reveal of the same figure
    with the answer given. *)
Theorem answer_next_back recognized c :
  clientOk c →
  (currentIndex (state c) + 1 < length (celebrities (state c)))%nat →
  ∃ c', nextCelebrity (submitResponse recognized c) = Done c' ∧
        goBack c' = Done (submitResponse recognized c).
Proof.
  intros [(celeb & Hcur & Hat) Hanswers] Hmore.
  unfold submitResponse. rewrite Hcur.
  destruct (lookup_lt_is_Some_2 (celebrities (state c))
              (currentIndex (state c) + 1)) as [next Hnext]; [lia|].
  unfold nextCelebrity. cbn [state celebrities currentIndex].
  rewrite bool_decide_eq_false_2 by lia. rewrite Hnext.
  eexists. split; [done|]. unfold goBack, showFigure.
  cbn [state celebrities currentIndex localResponses sessionId responses].
  rewrite bool_decide_eq_false_2 by lia.
  replace (currentIndex (state c) + 1 - 1)%nat with (currentIndex (state c)) by lia.
  rewrite Hat. cbn [state celebrities currentIndex localResponses sessionId responses].
  by rewrite lookup_insert_eq.
Qed.

Lemma answer_next_back_witness :
  ∃ c', nextCelebrity (submitResponse true Sample.client0) = Done c' ∧
        goBack c' = Done (submitResponse true Sample.client0).
Proof.
  apply answer_next_back.
  - split; [by exists (Sample.celeb 1 1975 1985)|].
    intros k [b Hb]. unfold Sample.client0 in Hb. cbn [localResponses] in Hb.
    by rewrite lookup_empty in Hb.
  - simpl. lia.
Defined.

(** X25: the responses [completeGame] sends are one per figure, in the
    order of the figures; for a client without answers all are
    "not recognised"; and in a session without two figures of the same
    id, an answer changes exactly the entry at the current index, to the
    answer given. *)
Theorem sent_responses :
  (∀ c, lr_celebrityId <$> buildResponses c = id <$> celebrities (state c)) ∧
  (∀ dataSessionId dataCelebrities,
     Forall (λ r, lr_recognized r = false)
            (buildResponses (startedClient dataSessionId dataCelebrities))) ∧
  (∀ c celeb recognized,
     currentCelebrity (state c) = Some celeb →
     celebrities (state c) !! currentIndex (state c) = Some celeb →
     NoDup (id <$> celebrities (state c)) →
     buildResponses (submitResponse recognized c)
     = <[currentIndex (state c) := {| lr_celebrityId := id celeb;
                                      lr_recognized := recognized |}]>
         (buildResponses c)).
Proof.
  split; [|split].
  - intros c. unfold buildResponses. rewrite <- list_fmap_compose.
    by apply list_fmap_ext.
  - intros dataSessionId dataCelebrities. unfold buildResponses. simpl.
    apply Forall_fmap, Forall_true. intros celeb. simpl. by rewrite lookup_empty.
  - intros c celeb recognized Hcur Hat Hnodup. unfold submitResponse. rewrite Hcur.
    unfold buildResponses. cbn [state celebrities localResponses].
    apply list_eq. intros i.
    destruct (decide (i = currentIndex (state c))) as [->|Hne].
    + rewrite list_lookup_insert_eq
        by (rewrite length_fmap; by eapply lookup_lt_Some).
      rewrite list_lookup_fmap, Hat. simpl. by rewrite lookup_insert_eq.
    + rewrite list_lookup_insert_ne by done. rewrite !list_lookup_fmap.
      destruct (celebrities (state c) !! i) as [other|] eqn:Hother; [|done].
      simpl. rewrite lookup_insert_ne; [done|]. intros Heq. apply Hne. symmetry.
      eapply (NoDup_lookup _ _ _ (id celeb) Hnodup);
        rewrite list_lookup_fmap; [by rewrite Hat|by rewrite Hother, Heq].
Qed.

Lemma sent_responses_witness :
  buildResponses (submitResponse true Sample.client0)
  = <[0%nat := {| lr_celebrityId := 1; lr_recognized := true |}]>
      (buildResponses Sample.client0).
Proof.
  apply (proj2 (proj2 sent_responses) Sample.client0 (Sample.celeb 1 1975 1985) true).
  - reflexivity.
  - reflexivity.
  - apply (bool_decide_unpack (NoDup (id <$> celebrities (state Sample.client0)))).
    vm_compute. exact I.
Defined.

End ClientProps.

(** ** The decade chart *)

Section ChartProps.
Import Tmdb Api Spec SpecMore Chart.

Lemma mapM_total {A B : Type} (f : A → option B) (g : A → B) (l : list A) :
  (∀ x, x ∈ l → f x = Some (g x)) → mapM f l = Some (g <$> l).
Proof.
  intros Hf. apply mapM_Some_2. apply Forall2_fmap_r, Forall_Forall2_diag.
  by apply Forall_forall.
Qed.

Lemma Qmax_spec (a b : Q) :
  (a <= Qmax a b)%Q ∧ (b <= Qmax a b)%Q ∧ (Qmax a b = a ∨ Qmax a b = b).
Proof.
  unfold Qmax. destruct (Qle_bool a b) eqn:E.
  - apply Qle_bool_iff in E. split; [done|]. split; [lra|by right].
  - split; [lra|]. split; [|by left].
    apply Qlt_le_weak, Qnot_le_lt. intros Hc. apply Qle_bool_iff in Hc. congruence.
Qed.

(** The height of a bar for the average [avg] when the largest average,
    floored at 0.1, is [maxRate]. *)
Lemma bar_height_range (avg maxRate : Q) :
  (0 < maxRate)%Q → (avg <= maxRate)%Q →
  (4 <= Qmax (avg / maxRate * 100) 4 <= 100)%Q.
Proof.
  intros Hpos Hle. destruct (Qmax_spec (avg / maxRate * 100) 4) as (H1 & H2 & Hcase).
  split; [done|]. destruct Hcase as [->| ->]; [|lra].
  assert (avg / maxRate <= 1)%Q by (apply Qle_shift_div_r; [done|lra]). lra.
Qed.

Lemma bar_height_mono (avg avg' maxRate : Q) :
  (0 < maxRate)%Q → (avg <= avg')%Q →
  (Qmax (avg / maxRate * 100) 4 <= Qmax (avg' / maxRate * 100) 4)%Q.
Proof.
  intros Hpos Hle.
  destruct (Qmax_spec (avg / maxRate * 100) 4) as (_ & _ & Hcase).
  destruct (Qmax_spec (avg' / maxRate * 100) 4) as (H1 & H2 & _).
  destruct Hcase as [->| ->]; [|done].
  assert (avg / maxRate <= avg' / maxRate)%Q.
  { unfold Qdiv. apply Qmult_le_compat_r; [done|].
    apply Qlt_le_weak, Qinv_lt_0_compat. done. }
  lra.
Qed.

(** The bar heights for any list of averages. *)
Lemma calculateBarHeights_spec (averages : list Q) :
  ∃ maxRate,
    mathMaxQ (averages ++ [1 # 10]%Q) = Some maxRate ∧
    (1 # 10 <= maxRate)%Q ∧
    Forall (λ avg, (avg <= maxRate)%Q) averages ∧
    (maxRate = (1 # 10)%Q ∨ maxRate ∈ averages) ∧
    calculateBarHeights averages
    = Some ((λ avg, Qmax (avg / maxRate * 100) 4) <$> averages).
Proof.
  unfold calculateBarHeights.
  destruct (averages ++ [1 # 10]%Q) as [|x xs] eqn:E.
  { by apply app_nil in E as [_ ?]. }
  simpl mathMaxQ. cbn [mbind option_bind].
  destruct (foldl_Qmax_spec xs x) as (Hin & Hx & Hall). cbv zeta in *.
  set (maxRate := foldl Qmax x xs) in *.
  assert (maxRate ∈ averages ++ [1 # 10]%Q) as Hmem.
  { rewrite E. destruct Hin as [Heq|Hin]; [rewrite Heq; by left|by right]. }
  assert (Forall (λ y, (y <= maxRate)%Q) (averages ++ [1 # 10]%Q)) as Hmax
    by (rewrite E; by constructor).
  destruct (proj1 (Forall_app _ _ _) Hmax) as [Havg Hfloor'].
  pose proof (proj1 (Forall_singleton _ _) Hfloor') as Hfloor.
  exists maxRate. split; [done|]. split; [done|]. split; [done|]. split.
  { apply elem_of_app in Hmem as [?|Hm]; [by right|].
    apply list_elem_of_singleton in Hm. by left. }
  assert (0 < maxRate)%Q as Hpos
    by (eapply Qlt_le_trans; [|exact Hfloor]; reflexivity).
  apply mapM_total. intros avg _.
  rewrite jsdiv_Some by (apply Qnot_eq_sym, Qlt_not_eq, Hpos). done.
Qed.

(** X26: the bar heights are computed for every list of decade
    averages, one per average; each height is between 4 and 100, a
    larger average never gets a lower bar, an average that is not
    positive gets the minimum 4, and the largest average gets 100 when
    it is at least 0.1. *)
Theorem bar_heights_in_range (averages : list Q) :
  ∃ heights,
    calculateBarHeights averages = Some heights ∧
    length heights = length averages ∧
    ∀ i avg h, averages !! i = Some avg → heights !! i = Some h →
      (4 <= h <= 100)%Q ∧
      ((avg <= 0)%Q → h = 4%Q) ∧
      ((1 # 10 <= avg)%Q → Forall (λ a, (a <= avg)%Q) averages → (h == 100)%Q) ∧
      (∀ j avg' h', averages !! j = Some avg' → heights !! j = Some h' →
                    (avg' <= avg)%Q → (h' <= h)%Q).
Proof.
  destruct (calculateBarHeights_spec averages)
    as (maxRate & _ & Hfloor & Hmax & Hmem & ->).
  eexists. split; [done|]. split; [by rewrite length_fmap|].
  intros i avg h Havg Hh. rewrite list_lookup_fmap, Havg in Hh.
  injection Hh as <-. rewrite Forall_forall in Hmax.
  assert (avg <= maxRate)%Q as Hle by (eapply Hmax, list_elem_of_lookup_2, Havg).
  split; [apply bar_height_range; [lra|done]|]. split; [|split].
  - intros Hneg. destruct (Qmax_spec (avg / maxRate * 100) 4) as (_ & H2 & [Heq|Heq]);
      [|done].
    assert (avg / maxRate <= 0)%Q by (apply Qle_shift_div_r; lra).
    rewrite Heq in H2. lra.
  - intros Hbig Hall.
    assert (maxRate == avg)%Q as Heq.
    { destruct Hmem as [->|Hm]; [lra|].
      rewrite Forall_forall in Hall. pose proof (Hall _ Hm). lra. }
    assert (avg / maxRate * 100 == 100)%Q as Hfull.
    { rewrite Heq. field. lra. }
    destruct (Qmax_spec (avg / maxRate * 100) 4) as (H1 & H2 & [->| Hc]); [done|].
    rewrite Hc in H1. lra.
  - intros j avg' h' Havg' Hh' Hle'. rewrite list_lookup_fmap, Havg' in Hh'.
    injection Hh' as <-. apply bar_height_mono; [lra|done].
Qed.

Lemma find_key_fmap {V : Type} (upd : string * V → string * V) (d : string)
    (entries : list (string * V)) :
  (∀ e, (upd e).1 = e.1) →
  List.find (λ e, String.eqb e.1 d) (upd <$> entries)
  = upd <$> List.find (λ e, String.eqb e.1 d) entries.
Proof.
  intros Hkey. induction entries as [|e entries IH]; [done|].
  simpl. rewrite Hkey. by destruct (String.eqb e.1 d).
Qed.

Lemma find_key_app {V : Type} (d : string) (l1 l2 : list (string * V)) :
  List.find (λ e, String.eqb e.1 d) (l1 ++ l2)
  = match List.find (λ e, String.eqb e.1 d) l1 with
    | Some e => Some e
    | None => List.find (λ e, String.eqb e.1 d) l2
    end.
Proof.
  induction l1 as [|e l1 IH]; [done|]. simpl. by destruct (String.eqb e.1 d).
Qed.

Lemma find_key_spec {V : Type} (d : string) (entries : list (string * V)) :
  match List.find (λ e, String.eqb e.1 d) entries with
  | Some e => e.1 = d ∧ e ∈ entries
  | None => d ∉ entries.*1
  end.
Proof.
  induction entries as [|e entries IH]; simpl; [apply not_elem_of_nil|].
  destruct (String.eqb_spec e.1 d) as [Heq|Hne].
  - split; [done|by left].
  - destruct (List.find _ entries) as [e'|].
    + destruct IH. split; [done|by right].
    + apply not_elem_of_cons. split; [by intros ->|done].
Qed.

Lemma ratesOf_addRate (decadeData : list (string * list Q)) point d :
  ratesOf (addRate decadeData point) d
  = ratesOf decadeData d
    ++ (if decide (decadeLabel (s_year point) = d) then [s_rate point] else []).
Proof.
  unfold addRate, ratesOf. set (decade := decadeLabel (s_year point)).
  set (upd := λ e : string * list Q,
         if String.eqb e.1 decade then (e.1, e.2 ++ [s_rate point]) else e).
  assert (∀ e, (upd e).1 = e.1) as Hkey.
  { intros e. unfold upd. by destruct (String.eqb e.1 decade). }
  rewrite (find_key_fmap upd d _ Hkey).
  pose proof (find_key_spec d decadeData) as Hfind.
  case_bool_decide as Hin.
  - destruct (List.find _ decadeData) as [e|]; simpl.
    + destruct Hfind as [<- _]. unfold upd.
      destruct (String.eqb_spec e.1 decade) as [Heq|Hne].
      * by rewrite decide_True.
      * rewrite decide_False by done. by rewrite app_nil_r.
    + rewrite decide_False; [done|]. by intros <-.
  - rewrite find_key_app.
    destruct (List.find _ decadeData) as [e|]; simpl.
    + destruct Hfind as [<- He]. unfold upd.
      assert (e.1 ≠ decade) as Hne.
      { intros Heq. apply Hin. rewrite <- Heq. apply list_elem_of_fmap. eauto. }
      destruct (String.eqb_spec e.1 decade); [done|].
      rewrite decide_False by done. by rewrite app_nil_r.
    + destruct (String.eqb_spec decade d) as [Heq|Hne]; simpl.
      * unfold upd. simpl. rewrite String.eqb_refl. simpl. by rewrite decide_True.
      * by rewrite decide_False.
Qed.

Lemma ratesOf_decadeDataOf (distribution : list SPoint) (d : string) :
  ratesOf (decadeDataOf distribution) d = s_rate <$> decadePoints d distribution.
Proof.
  induction distribution as [|point distribution IH] using rev_ind; [done|].
  unfold decadeDataOf. rewrite foldl_app. simpl. fold (decadeDataOf distribution).
  rewrite ratesOf_addRate, IH, decadePoints_snoc, fmap_app.
  by destruct (decide (decadeLabel (s_year point) = d)).
Qed.

Lemma foldl_Qplus (xs : list Q) : ∀ a, (foldl Qplus a xs == a + Qsum xs)%Q.
Proof.
  induction xs as [|x xs IH]; intros a; simpl.
  - unfold Qsum. simpl. lra.
  - rewrite IH. change (Qsum (x :: xs)) with (x + Qsum xs)%Q. lra.
Qed.

Lemma average_spec (rates : list Q) :
  ∃ a, average rates = Some a ∧
       (rates = [] → a = 0%Q) ∧
       (rates ≠ [] → (a == Qsum rates / inject_Z (Z.of_nat (length rates)))%Q).
Proof.
  unfold average. destruct rates as [|x rates].
  - exists 0%Q. done.
  - cbn [Nat.ltb Nat.leb length]. rewrite jsdiv_inject_Z by lia.
    eexists. split; [done|]. split; [done|]. intros _.
    by rewrite foldl_Qplus, Qplus_0_l.
Qed.

Lemma decadeAverages_spec (distribution : list SPoint) :
  ∃ averages,
    decadeAverages distribution = Some averages ∧
    length averages = 7%nat ∧
    ∀ i d a, decades !! i = Some d → averages !! i = Some a →
      (decadePoints d distribution = [] → a = 0%Q) ∧
      (decadePoints d distribution ≠ [] → (a == decadeMean d distribution)%Q).
Proof.
  unfold decadeAverages.
  destruct (mapM (λ d, average (ratesOf (decadeDataOf distribution) d)) decades)
    as [averages|] eqn:Havg.
  - exists averages. split; [done|]. apply mapM_Some_1 in Havg.
    split; [by rewrite <- (Forall2_length _ _ _ Havg)|].
    intros i d a Hd Ha.
    pose proof (Forall2_lookup_lr _ _ _ _ _ _ Havg Hd Ha) as Hda. simpl in Hda.
    rewrite ratesOf_decadeDataOf in Hda.
    destruct (average_spec (s_rate <$> decadePoints d distribution))
      as (a' & Ha' & Hempty & Hmean).
    rewrite Hda in Ha'. injection Ha' as <-. split.
    + intros Hnil. apply Hempty. by rewrite Hnil.
    + intros Hne. unfold decadeMean. rewrite Hmean; [by rewrite length_fmap|].
      intros Hnil. by apply fmap_nil_inv in Hnil.
  - apply mapM_None_1, Exists_exists in Havg as (d & _ & Hd).
    destruct (average_spec (ratesOf (decadeDataOf distribution) d)) as (a & Ha & _).
    congruence.
Qed.

(** X27: the chart computes one average for each of the seven decades
    it shows, from the 1960s to the 2020s: 0 for a decade without a point
    of the distribution, and otherwise the mean rate of the points of the
    decade, the same mean the server compares for the peak decade. *)
Theorem chart_averages (distribution : list SPoint) :
  ∃ averages,
    decadeAverages distribution = Some averages ∧
    length averages = 7%nat ∧
    ∀ i d a, decades !! i = Some d → averages !! i = Some a →
      (decadePoints d distribution = [] → a = 0%Q) ∧
      (decadePoints d distribution ≠ [] → (a == decadeMean d distribution)%Q).
Proof.
  apply decadeAverages_spec.
Qed.

Lemma Qsum_nonneg (xs : list Q) : Forall (λ x, (0 <= x)%Q) xs → (0 <= Qsum xs)%Q.
Proof.
  induction 1 as [|x xs Hx _ IH]; [unfold Qsum; simpl; lra|].
  change (Qsum (x :: xs)) with (x + Qsum xs)%Q. lra.
Qed.

Lemma decadeMean_nonneg (d : string) (distribution : list SPoint) :
  Forall (λ q, (0 <= s_rate q)%Q) distribution →
  (0 <= decadeMean d distribution)%Q.
Proof.
  intros Hnonneg. unfold decadeMean.
  assert (0 <= Qsum (s_rate <$> decadePoints d distribution))%Q as Hsum.
  { apply Qsum_nonneg, Forall_fmap, Forall_forall. intros q Hq.
    apply list_elem_of_filter in Hq as [_ Hq].
    rewrite Forall_forall in Hnonneg. by apply Hnonneg. }
  destruct (decadePoints d distribution) as [|q l] eqn:E.
  - by vm_compute.
  - apply Qle_shift_div_l; [|lra].
    change 0%Q with (inject_Z 0). rewrite <- Zlt_Qlt. simpl. lia.
Qed.

(** X28: on the results of a session the bar of the peak decade the
    server reports, when it is one of the seven decades shown, is at
    least as high as every other bar. *)
Theorem peak_bar_is_tallest currentYear celebrities responses :
  ∃ r averages heights,
    computeResults currentYear celebrities responses = Some r ∧
    decadeAverages (rs_distribution r) = Some averages ∧
    calculateBarHeights averages = Some heights ∧
    ∀ i h, decades !! i = Some (peakDecade (metrics r)) → heights !! i = Some h →
           Forall (λ h', (h' <= h)%Q) heights.
Proof.
  destruct (computeResults_spec currentYear celebrities responses)
    as (r & Hr & Hs & Hpeak & _).
  cbv zeta in Hs.
  assert (Forall (λ q, (0 <= s_rate q)%Q) (rs_distribution r)) as Hnonneg.
  { destruct (smooth_spec (pointsOf (tally currentYear celebrities responses)))
      as (smoothed & Hs' & _ & Hrates).
    rewrite Hs in Hs'. injection Hs' as <-.
    eapply Forall_impl; [apply Hrates|by intros q [? _]].
    eapply Forall_impl; [apply rawDistribution_ok|].
    intros p (_ & ? & ?). split; [lia|done]. }
  set (smoothed := rs_distribution r) in *.
  destruct (decadeAverages_spec smoothed) as (averages & Havg & Hlen & Hchart).
  destruct (calculateBarHeights_spec averages)
    as (maxRate & _ & Hfloor & _ & _ & Hheights).
  destruct (peakDecadeOf_spec smoothed) as (decade & Hdecade & _ & Hfirst).
  rewrite Hpeak in Hdecade. injection Hdecade as Hdecade. subst decade.
  eexists r, averages, _. split; [done|]. split; [done|]. split; [exact Hheights|].
  intros i h Hi Hh. rewrite list_lookup_fmap in Hh.
  destruct (averages !! i) as [a|] eqn:Ha; [|done]. injection Hh as <-.
  destruct (Hchart i _ a Hi Ha) as [Hempty Hmean].
  assert (0 <= a)%Q as Hanonneg.
  { destruct (decadePoints (peakDecade (metrics r)) smoothed) eqn:E.
    - rewrite Hempty by done. lra.
    - rewrite Hmean by done. by apply decadeMean_nonneg. }
  apply Forall_fmap, Forall_lookup. intros j a' Ha'. simpl.
  apply bar_height_mono; [lra|].
  destruct (lookup_lt_is_Some_2 decades j) as [d' Hd'].
  { apply lookup_lt_Some in Ha'. rewrite Hlen in Ha'. exact Ha'. }
  destruct (Hchart j d' a' Hd' Ha') as [Hempty' Hmean'].
  destruct (decadePoints d' smoothed) as [|q' l] eqn:E'.
  { rewrite Hempty' by done. done. }
  rewrite Hmean' by done.
  destruct (Qlt_le_dec 0 (decadeMean d' smoothed)) as [Hpos|Hnonpos]; [|lra].
  assert (q' ∈ decadePoints d' smoothed) as Hq' by (rewrite E'; by left).
  apply list_elem_of_filter in Hq' as [Hlabel Hq'].
  destruct Hfirst as (s1 & q & s2 & Hsplit & Hq & _ & Hall & _).
  { exists q'. split; [done|]. by rewrite Hlabel. }
  assert (q ∈ decadePoints (peakDecade (metrics r)) smoothed) as Hqin.
  { apply list_elem_of_filter. split; [done|].
    rewrite Hsplit. apply elem_of_app. right. by left. }
  rewrite Hmean by (intros Hnil; rewrite Hnil in Hqin; by apply not_elem_of_nil in Hqin).
  specialize (Hall q' Hq'). rewrite Hlabel in Hall. exact Hall.
Qed.

End ChartProps.

(** * The metrics in binary64 arithmetic *)

(** ** Rounding *)

Section Rounding.
Import Tmdb Api Spec Binary64.

Lemma roundHalfEven_floor (y : Q) :
  Qfloor y ≤ roundHalfEven y ≤ Qfloor y + 1.
Proof.
  unfold roundHalfEven. repeat case_match; lia.
Qed.

Lemma roundHalfEven_ge (y : Q) (K : Z) :
  (inject_Z K <= y)%Q → K ≤ roundHalfEven y.
Proof.
  intros Hy. pose proof (roundHalfEven_floor y).
  apply Qfloor_resp_le in Hy. rewrite Qfloor_Z in Hy. lia.
Qed.

Lemma roundHalfEven_le (y : Q) (K : Z) :
  (y <= inject_Z K)%Q → roundHalfEven y ≤ K.
Proof.
  intros Hy. pose proof (roundHalfEven_floor y) as Hf.
  pose proof (Qfloor_resp_le _ _ Hy) as HK. rewrite Qfloor_Z in HK.
  destruct (decide (Qfloor y = K)) as [Heq|Hne]; [|lia].
  unfold roundHalfEven. rewrite Heq.
  assert (Qltb (y - inject_Z K) (1 # 2) = true) as ->; [|done].
  apply Qltb_lt. lra.
Qed.

Lemma pow2_inject (n : Z) : 0 ≤ n → (inject_Z (2 ^ n) == 2 ^ n)%Q.
Proof. intros Hn. by rewrite Zpower_Qpower. Qed.

Lemma ilog2_lower (x : Q) : (0 < x)%Q → (2 ^ ilog2 x <= x)%Q.
Proof.
  intros Hx. unfold ilog2.
  destruct (Qle_bool (2 ^ _) x) eqn:Htest; [by apply Qle_bool_iff|].
  destruct x as [n d]. cbn [Qnum Qden] in *.
  assert (0 < n) as Hn by (unfold Qlt in Hx; simpl in Hx; lia).
  pose proof (Z.log2_spec n Hn) as [Hlo _].
  pose proof (Z.log2_spec (Z.pos d) ltac:(lia)) as [_ Hhi].
  pose proof (Z.log2_nonneg n). pose proof (Z.log2_nonneg (Z.pos d)).
  replace (Z.log2 n - Z.log2 (Z.pos d) - 1)
    with (Z.log2 n - (Z.log2 (Z.pos d) + 1)) by lia.
  rewrite Qpower_minus by done.
  rewrite <- !pow2_inject by lia. rewrite (Qmake_Qdiv n d).
  set (a := 2 ^ Z.log2 n) in *. set (b := 2 ^ (Z.log2 (Z.pos d) + 1)) in *.
  assert (0 < a) by (apply Z.pow_pos_nonneg; lia).
  assert (inject_Z 0 < inject_Z a)%Q as Ha by (rewrite <- Zlt_Qlt; lia).
  assert (inject_Z a <= inject_Z n)%Q as Han by (rewrite <- Zle_Qle; lia).
  assert (inject_Z 0 < inject_Z (Z.pos d))%Q as Hd by (rewrite <- Zlt_Qlt; lia).
  assert (inject_Z (Z.pos d) <= inject_Z b)%Q as Hdb by (rewrite <- Zle_Qle; lia).
  change (inject_Z 0) with 0%Q in *.
  apply Qle_shift_div_l; [done|].
  unfold Qdiv. rewrite <- Qmult_assoc, (Qmult_comm (/ inject_Z b)), Qmult_assoc.
  apply Qle_shift_div_r; [lra|]. nra.
Qed.


Lemma fl_between (a b : Z) (x : Q) :
  0 ≤ a → b < 2 ^ 53 → (inject_Z a <= x <= inject_Z b)%Q →
  (inject_Z a <= fl x <= inject_Z b)%Q.
Proof.
  intros Ha Hb [Hax Hxb].
  assert (inject_Z 0 <= inject_Z a)%Q as Ha' by (by rewrite <- Zle_Qle).
  change (inject_Z 0) with 0%Q in Ha'.
  unfold fl. destruct (Qeq_bool x 0) eqn:Hzero.
  { apply Qeq_bool_iff in Hzero. split; lra. }
  apply Qeq_bool_neq in Hzero. cbv zeta.
  assert (0 < x)%Q as Hpos by lra.
  assert (ilog2 (Qabs x) < 53) as Hlog.
  { assert (Qabs x == x)%Q as Habs by (apply Qabs_pos; lra).
    pose proof (ilog2_lower (Qabs x) ltac:(lra)) as Hlo.
    assert (inject_Z b < inject_Z (2 ^ 53))%Q as Hb' by (by rewrite <- Zlt_Qlt).
    rewrite pow2_inject in Hb' by lia.
    apply (Qpower_lt_compat_l_inv 2); [|reflexivity].
    apply Qle_lt_trans with (Qabs x); [done|]. lra. }
  set (e := Z.max _ _). assert (e ≤ 0) as He by lia.
  assert (2 ^ e == / inject_Z (2 ^ (- e)))%Q as Hpow.
  { rewrite pow2_inject by lia. rewrite <- Qpower_opp. by rewrite Z.opp_involutive. }
  set (p := 2 ^ (- e)) in *.
  assert (0 < p) as Hp by (apply Z.pow_pos_nonneg; lia).
  assert (inject_Z 0 < inject_Z p)%Q as Hp' by (by rewrite <- Zlt_Qlt).
  change (inject_Z 0) with 0%Q in Hp'.
  assert (x / 2 ^ e == x * inject_Z p)%Q as Hy.
  { rewrite Hpow. unfold Qdiv. by rewrite Qinv_involutive. }
  assert (inject_Z (a * p) <= x / 2 ^ e)%Q as Hlo.
  { rewrite Hy, inject_Z_mult. nra. }
  assert (x / 2 ^ e <= inject_Z (b * p))%Q as Hhi.
  { rewrite Hy, inject_Z_mult. nra. }
  apply roundHalfEven_ge in Hlo. apply roundHalfEven_le in Hhi.
  set (m := roundHalfEven (x / 2 ^ e)) in *.
  assert (inject_Z (a * p) <= inject_Z m <= inject_Z (b * p))%Q as [H1 H2]
    by (rewrite <- !Zle_Qle; lia).
  rewrite inject_Z_mult in H1, H2. rewrite Hpow.
  split.
  - apply Qle_shift_div_l; [done|]. lra.
  - apply Qle_shift_div_r; [done|]. lra.
Qed.

Lemma div_inject_Z (a : Q) (z : Z) :
  0 < z → div a (inject_Z z) = Some (fl (a / inject_Z z)).
Proof.
  intros Hz. unfold div.
  destruct (Qeq_bool (inject_Z z) 0) eqn:E; [|done].
  apply Qeq_bool_iff in E. by apply inject_Z_nonzero in E; [|lia].
Qed.


End Rounding.

(** ** The raw and the smoothed distribution *)

Section Binary64Distribution.
Import Tmdb Api Spec SpecBinary64.

Lemma b64_toDistribution_acc (yearScores : list (Z * Score)) :
  ∀ acc : list Point,
    foldlM (λ distribution e,
              let scores := e.2 in
              if 0 <? sc_total scores then
                r ← Binary64.div (inject_Z (sc_recognized scores))
                                 (inject_Z (sc_total scores));
                Some (distribution ++
                        [{| year := e.1; rate := r; sampleSize := sc_total scores |}])
              else Some distribution)
           acc yearScores
    = Some (acc ++ computedPointsOf yearScores).
Proof.
  induction yearScores as [|e yearScores IH]; intros acc.
  - simpl. by rewrite app_nil_r.
  - unfold computedPointsOf. simpl. fold (computedPointsOf yearScores).
    destruct (Z.ltb_spec 0 (sc_total e.2)) as [Hpos|Hzero].
    + rewrite div_inject_Z by done. simpl. rewrite IH.
      by rewrite <- app_assoc.
    + simpl. by rewrite IH.
Qed.

Lemma b64_rawDistribution_eq currentYear celebrities responses :
  Binary64.rawDistribution currentYear celebrities responses
  = Some (computedPointsOf (tally currentYear celebrities responses)).
Proof.
  unfold Binary64.rawDistribution, Binary64.toDistribution.
  by rewrite b64_toDistribution_acc.
Qed.



Lemma b64_window_fold (distribution : list Point) (js : list Z) :
  Forall (λ j, 0 ≤ j < Z.of_nat (length distribution)) js →
  ∀ acc : Z * Q,
    is_Some (foldlM (λ (acc : Z * Q) j,
                       d ← distribution !! Z.to_nat j;
                       let weight := sampleSize d in
                       Some (acc.1 + weight,
                             Binary64.add acc.2
                               (Binary64.mul (rate d) (inject_Z weight))))
                    acc js).
Proof.
  induction 1 as [|j js Hj _ IH]; intros acc; [by eexists|].
  destruct (lookup_lt_is_Some_2 distribution (Z.to_nat j)) as [p Hp]; [lia|].
  rewrite foldlM_cons, Hp. apply IH.
Qed.

Lemma b64_smoothPoint_unfold distribution i point :
  Binary64.smoothPoint distribution i point =
  (acc ← foldlM (λ (acc : Z * Q) j,
                   d ← distribution !! Z.to_nat j;
                   let weight := sampleSize d in
                   Some (acc.1 + weight,
                         Binary64.add acc.2
                           (Binary64.mul (rate d) (inject_Z weight))))
           (0, 0%Q)
           (seqZ (Z.max 0 (Z.of_nat i - 2))
                 (Z.min (Z.of_nat (length distribution) - 1) (Z.of_nat i + 2)
                  - Z.max 0 (Z.of_nat i - 2) + 1));
   r ← (if 0 <? acc.1 then Binary64.div acc.2 (inject_Z acc.1) else Some 0%Q);
   Some {| s_year := year point; s_rate := r |}).
Proof. reflexivity. Qed.

Lemma b64_smoothPoint_Some distribution i point :
  is_Some (Binary64.smoothPoint distribution i point).
Proof.
  rewrite b64_smoothPoint_unfold.
  destruct (b64_window_fold distribution _
              (window_indices (Z.of_nat (length distribution)) (Z.of_nat i))
              (0, 0%Q)) as [acc ->].
  cbn [mbind option_bind].
  destruct (Z.ltb_spec 0 acc.1) as [Hpos|Hnonpos]; [|by eexists].
  rewrite div_inject_Z by done. by eexists.
Qed.

Lemma b64_smooth_is_Some distribution : is_Some (Binary64.smooth distribution).
Proof.
  unfold Binary64.smooth. apply mapM_is_Some_2, Forall_forall. intros [i p] _.
  apply b64_smoothPoint_Some.
Qed.

Lemma b64_smoothedDistribution_is_Some currentYear celebrities responses :
  is_Some (Binary64.smoothedDistribution currentYear celebrities responses).
Proof.
  unfold Binary64.smoothedDistribution. rewrite b64_rawDistribution_eq.
  apply b64_smooth_is_Some.
Qed.

End Binary64Distribution.

(** ** The centre of gravity *)

Section Binary64CenterOfGravity.
Import Tmdb Api Spec SpecBinary64.

Lemma sumInOrder_snoc (xs : list Q) (x : Q) :
  sumInOrder (xs ++ [x]) = Binary64.add (sumInOrder xs) x.
Proof. unfold sumInOrder. by rewrite foldl_app. Qed.








End Binary64CenterOfGravity.

(** ** The peak decade *)

Section Binary64PeakDecade.
Import Tmdb Api Spec SpecBinary64.

(** The peak loop on the rounded means. *)
Lemma b64_peak_fold_spec (decadeRates : list (string * DecadeStats)) :
  ∀ init : string * Q,
    ∃ res, foldlM Binary64.peakStep init decadeRates = Some res ∧
      (init.2 <= res.2)%Q ∧
      (∀ e, e ∈ decadeRates → (computedEntryMean e <= res.2)%Q) ∧
      (res = init ∨
       ∃ i e, decadeRates !! i = Some e ∧ res = (e.1, computedEntryMean e) ∧
              (init.2 < computedEntryMean e)%Q ∧
              ∀ j e', (j < i)%nat → decadeRates !! j = Some e' →
                      (computedEntryMean e' < computedEntryMean e)%Q).
Proof.
  induction decadeRates as [|e0 decadeRates IH]; intros init.
  - exists init. split; [done|]. split; [lra|]. split; [|by left].
    intros e He%not_elem_of_nil. done.
  - assert (Binary64.peakStep init e0
            = Some (if Qltb init.2 (computedEntryMean e0)
                    then (e0.1, computedEntryMean e0) else init))
      as Hstep.
    { unfold Binary64.peakStep, computedEntryMean.
      destruct (Z.ltb_spec 0 (d_total e0.2)); [|done].
      by rewrite div_inject_Z. }
    rewrite foldlM_cons, Hstep. cbn [mbind option_bind].
    set (init' := if Qltb init.2 (computedEntryMean e0)
                  then (e0.1, computedEntryMean e0) else init).
    assert ((init.2 <= init'.2)%Q ∧ (computedEntryMean e0 <= init'.2)%Q ∧
            (init' = init ∨
             (init' = (e0.1, computedEntryMean e0) ∧
              (init.2 < computedEntryMean e0)%Q)))
      as (Hmono & He0 & Hinit').
    { unfold init'. destruct (Qltb init.2 (computedEntryMean e0)) eqn:E.
      - apply Qltb_lt in E. cbn [snd]. split; [lra|]. split; [lra|]. by right.
      - apply Qltb_ge in E. split; [lra|]. split; [done|]. by left. }
    destruct (IH init') as (res & Hres & Hle & Hall & Hcase).
    exists res. split; [done|]. split; [lra|]. split.
    { intros e He. apply elem_of_cons in He as [->|He]; [lra|by apply Hall]. }
    destruct Hcase as [->|(i & e & Hi & -> & Hlt & Hbefore)].
    + destruct Hinit' as [->|[-> Hlt]]; [by left|].
      right. exists 0%nat, e0. split; [done|]. split; [done|]. split; [done|].
      intros j e' Hj. lia.
    + right. exists (S i), e. split; [done|]. split; [done|]. split; [lra|].
      intros [|j] e' Hj He'.
      * simpl in He'. injection He' as <-. lra.
      * simpl in He'. apply (Hbefore j); [lia|done].
Qed.

Lemma computedDecadeInv_nil : computedDecadeInv [] [].
Proof.
  split; [|split].
  - intros q Hq. by apply not_elem_of_nil in Hq.
  - intros e He. by apply not_elem_of_nil in He.
  - intros i e Hi. done.
Qed.

(** Adding one more point keeps [decadeRates] as described, the sum of
    each decade being the one accumulated in the order of the points. *)
Lemma b64_addToDecade_inv smoothed decadeRates point :
  computedDecadeInv smoothed decadeRates →
  computedDecadeInv (smoothed ++ [point]) (Binary64.addToDecade decadeRates point).
Proof.
  intros (Hkeys & Hstats & Horder). unfold Binary64.addToDecade.
  set (decade := decadeLabel (s_year point)).
  set (upd := λ e : string * DecadeStats,
         if String.eqb e.1 decade
         then (e.1, {| d_total := d_total e.2 + 1;
                       d_sum := Binary64.add (d_sum e.2) (s_rate point) |})
         else e).
  set (fresh := (decade, {| d_total := 0; d_sum := 0 |})).
  set (rates := if bool_decide (decade ∈ decadeRates.*1) then decadeRates
                else decadeRates ++ [fresh]).
  assert (∀ e, (upd e).1 = e.1) as Hupd_key.
  { intros e. unfold upd. by destruct (String.eqb e.1 decade). }
  assert (∀ e, e.1 ≠ decade → upd e = e) as Hupd_ne.
  { intros e Hne. unfold upd. by destruct (String.eqb_spec e.1 decade). }
  assert (∀ e, e.1 = decade →
               upd e = (e.1, {| d_total := d_total e.2 + 1;
                                d_sum := Binary64.add (d_sum e.2) (s_rate point) |}))
    as Hupd_eq.
  { intros e Heq. unfold upd. by destruct (String.eqb_spec e.1 decade). }
  assert ((upd <$> rates).*1 = rates.*1) as Hfst.
  { rewrite <- list_fmap_compose. apply list_fmap_ext. intros _ e _. apply Hupd_key. }
  assert (∀ i e, decadeRates !! i = Some e → rates !! i = Some e) as Hold.
  { intros i e Hi. unfold rates. case_bool_decide; [done|].
    by apply lookup_app_l_Some. }
  assert (∀ i e, rates !! i = Some e →
                 decadeRates !! i = Some e ∨
                 ((decade ∉ decadeRates.*1) ∧ i = length decadeRates ∧ e = fresh))
    as Hcases.
  { intros i e Hi. unfold rates in Hi. case_bool_decide as Hin; [by left|].
    apply lookup_app_Some in Hi as [Hi|[Hge Hi]]; [by left|]. right.
    apply list_lookup_singleton_Some in Hi as [Hi ->].
    split; [done|]. split; [lia|done]. }
  assert (decade ∈ rates.*1) as Hdecade.
  { unfold rates. case_bool_decide; [done|].
    rewrite fmap_app. apply elem_of_app. right. by left. }
  assert (∀ k, k ∈ decadeRates.*1 → k ∈ rates.*1) as Hsub.
  { intros k Hk. apply list_elem_of_fmap in Hk as (e & -> & He).
    apply list_elem_of_lookup in He as [i Hi].
    apply list_elem_of_fmap. exists e. split; [done|].
    apply list_elem_of_lookup. exists i. by apply Hold. }
  split; [|split].
  - intros q Hq. rewrite Hfst. apply elem_of_app in Hq as [Hq|Hq].
    + by apply Hsub, Hkeys.
    + apply list_elem_of_singleton in Hq as ->. done.
  - intros e' He'. apply list_elem_of_fmap in He' as (e & -> & He).
    apply list_elem_of_lookup in He as [i Hi].
    rewrite Hupd_key, decadePoints_snoc.
    destruct (Hcases i e Hi) as [Hi'|(Hnew & _ & ->)].
    + destruct (Hstats e) as (Hpos & Htotal & Hsum);
        [by eapply list_elem_of_lookup_2|].
      destruct (decide (decadeLabel (s_year point) = e.1)) as [Heq|Hne].
      * rewrite Hupd_eq by done. cbn [fst snd d_total d_sum].
        rewrite length_app, fmap_app. cbn [fmap list_fmap length].
        split; [lia|]. split; [lia|]. by rewrite sumInOrder_snoc, Hsum.
      * rewrite Hupd_ne by (intros Heq; by apply Hne). rewrite !app_nil_r. done.
    + assert (decadePoints decade smoothed = []) as Hnone.
      { destruct (decadePoints decade smoothed) as [|q rest] eqn:E; [done|].
        assert (q ∈ decadePoints decade smoothed) as Hq by (rewrite E; by left).
        apply list_elem_of_filter in Hq as [Hlabel Hq].
        destruct Hnew. rewrite <- Hlabel. by apply Hkeys. }
      rewrite Hupd_eq by done. cbn [fst snd d_total d_sum fresh].
      rewrite decide_True by done. rewrite Hnone.
      split; [done|]. split; [done|]. done.
  - intros i e' Hi. apply list_lookup_fmap_Some in Hi as (e & -> & Hi).
    rewrite Hupd_key.
    destruct (Hcases i e Hi) as [Hi'|(Hnew & -> & ->)].
    + destruct (Horder i e Hi') as (s1 & q & s2 & -> & Hq & Hbefore).
      exists s1, q, (s2 ++ [point]). split; [by rewrite <- app_assoc|].
      split; [done|]. intros q' Hq'.
      destruct (Hbefore q' Hq') as (j & e' & Hj & Hj' & Hkey).
      exists j, (upd e'). split; [done|]. split; [|by rewrite Hupd_key].
      rewrite list_lookup_fmap, (Hold j e' Hj'). done.
    + exists smoothed, point, []. split; [done|]. split; [done|].
      intros q' Hq'. pose proof (Hkeys q' Hq') as Hk.
      apply list_elem_of_fmap in Hk as (e' & Hkey & He').
      apply list_elem_of_lookup in He' as [j Hj].
      exists j, (upd e'). split; [by eapply lookup_lt_Some|].
      split; [|by rewrite Hupd_key].
      rewrite list_lookup_fmap, (Hold j e' Hj). done.
Qed.

Lemma b64_decadeRatesOf_inv smoothed :
  computedDecadeInv smoothed (Binary64.decadeRatesOf smoothed).
Proof.
  induction smoothed as [|point smoothed IH] using rev_ind.
  - apply computedDecadeInv_nil.
  - unfold Binary64.decadeRatesOf. rewrite foldl_app. simpl.
    by apply b64_addToDecade_inv.
Qed.

Lemma computedEntryMean_decadeMean smoothed decadeRates e :
  computedDecadeInv smoothed decadeRates → e ∈ decadeRates →
  computedEntryMean e = computedDecadeMean e.1 smoothed.
Proof.
  intros (_ & Hstats & _) He. destruct (Hstats e He) as (Hpos & Htotal & Hsum).
  unfold computedEntryMean, computedDecadeMean.
  rewrite (proj2 (Z.ltb_lt _ _) Hpos). by rewrite Hsum, Htotal.
Qed.

(** The peak decade of any smoothed series. *)
Lemma b64_peakDecadeOf_spec (smoothed : list SPoint) :
  ∃ decade, Binary64.peakDecadeOf smoothed = Some decade ∧
    ((∀ q, q ∈ smoothed →
           (computedDecadeMean (decadeLabel (s_year q)) smoothed <= 0)%Q) →
     decade = "1990s") ∧
    ((∃ q, q ∈ smoothed ∧
           (0 < computedDecadeMean (decadeLabel (s_year q)) smoothed)%Q) →
     ∃ s1 q s2,
       smoothed = s1 ++ q :: s2 ∧ decade = decadeLabel (s_year q) ∧
       (0 < computedDecadeMean decade smoothed)%Q ∧
       (∀ q', q' ∈ smoothed →
              (computedDecadeMean (decadeLabel (s_year q')) smoothed
               <= computedDecadeMean decade smoothed)%Q) ∧
       (∀ q', q' ∈ s1 →
              (computedDecadeMean (decadeLabel (s_year q')) smoothed
               < computedDecadeMean decade smoothed)%Q)).
Proof.
  pose proof (b64_decadeRatesOf_inv smoothed) as Hinv.
  pose proof Hinv as (Hkeys & Hstats & Horder).
  assert (∀ q, q ∈ smoothed →
               ∃ e, e ∈ Binary64.decadeRatesOf smoothed ∧
                    e.1 = decadeLabel (s_year q) ∧
                    computedEntryMean e
                    = computedDecadeMean (decadeLabel (s_year q)) smoothed)
    as Hentry.
  { intros q Hq. pose proof (Hkeys q Hq) as Hk.
    apply list_elem_of_fmap in Hk as (e & Hkey & He). exists e.
    split; [done|]. split; [done|]. rewrite Hkey.
    by apply (computedEntryMean_decadeMean smoothed (Binary64.decadeRatesOf smoothed)). }
  unfold Binary64.peakDecadeOf.
  destruct (b64_peak_fold_spec (Binary64.decadeRatesOf smoothed) ("1990s", 0%Q))
    as (res & -> & Hle & Hall & Hcase).
  exists res.1. split; [done|]. cbn [snd] in Hle. split.
  - intros Hnone. destruct Hcase as [->|(i & e & Hi & -> & Hlt & _)]; [done|].
    cbn [snd] in Hlt.
    destruct (Horder i e Hi) as (s1 & q & s2 & Hsplit & Hq & _).
    assert (q ∈ smoothed) as Hin
      by (rewrite Hsplit; apply elem_of_app; right; by left).
    specialize (Hnone q Hin). rewrite Hq in Hnone.
    rewrite <- (computedEntryMean_decadeMean smoothed
                  (Binary64.decadeRatesOf smoothed) e Hinv) in Hnone
      by (by eapply list_elem_of_lookup_2).
    lra.
  - intros (q0 & Hq0 & Hpos0).
    destruct (Hentry q0 Hq0) as (e0 & He0 & _ & Hmean0).
    pose proof (Hall e0 He0) as Hle0.
    destruct Hcase as [->|(i & e & Hi & -> & Hlt & Hbefore)].
    { cbn [snd] in Hle0. rewrite Hmean0 in Hle0. lra. }
    cbn [fst snd] in *.
    assert (e ∈ Binary64.decadeRatesOf smoothed) as He
      by (by eapply list_elem_of_lookup_2).
    pose proof (computedEntryMean_decadeMean smoothed _ e Hinv He) as Hmean.
    destruct (Horder i e Hi) as (s1 & q & s2 & Hsplit & Hq & Hs1).
    exists s1, q, s2. split; [done|]. split; [done|].
    rewrite <- Hmean.
    split; [lra|]. split.
    + intros q' Hq'. destruct (Hentry q' Hq') as (e' & He' & _ & Hmean').
      pose proof (Hall e' He'). rewrite <- Hmean'. done.
    + intros q' Hq'. destruct (Hs1 q' Hq') as (j & e' & Hj & Hj' & Hkey).
      rewrite <- Hkey.
      pose proof (computedEntryMean_decadeMean smoothed
                    (Binary64.decadeRatesOf smoothed) e' Hinv
                    ltac:(by eapply list_elem_of_lookup_2)) as Hmean'.
      pose proof (Hbefore j e' Hj Hj'). rewrite <- Hmean'. done.
Qed.

Lemma Forall_by_bool {A : Type} (P : A → Prop) (f : A → bool) (l : list A) :
  (∀ x, f x = true → P x) → forallb f l = true → Forall P l.
Proof.
  intros Hf. induction l as [|x l IH]; [constructor|].
  cbn [forallb]. intros [Hx Hl]%andb_prop. constructor; auto.
Qed.

(** C10, as stated, fails: for three figures around the 1950s and
    their mirror images around the 2000s, the smoothed series starts in
    the 1950s, its 1950s hold the same five rates as its 2000s in the
    opposite order, so the two decades have the same mean smoothed rate,
    and no decade has a larger one: the first-encountered decade of
    maximal mean is the 1950s.  The route returns the "2000s", whose
    sum, rounded after each addition, comes out larger. *)
Lemma peak_decade_not_first_of_tied :
  ∃ smoothed decade q,
    Binary64.smoothedDistribution 2024 Sample.mirrored Sample.mirroredAnswers
      = Some smoothed ∧
    Binary64.peakDecade 2024 Sample.mirrored Sample.mirroredAnswers
      = Some decade ∧
    decade = "2000s" ∧
    head smoothed = Some q ∧ decadeLabel (s_year q) = "1950s" ∧
    Qred <$> (s_rate <$> decadePoints "1950s" smoothed)
      = reverse (Qred <$> (s_rate <$> decadePoints "2000s" smoothed)) ∧
    (decadeMean "1950s" smoothed == decadeMean "2000s" smoothed)%Q ∧
    Forall (λ q', (decadeMean (decadeLabel (s_year q')) smoothed
                   <= decadeMean "1950s" smoothed)%Q) smoothed ∧
    decade ≠ decadeLabel (s_year q).
Proof.
  eexists. eexists. eexists.
  split; [vm_compute; reflexivity|]. split; [vm_compute; reflexivity|].
  split; [reflexivity|]. split; [reflexivity|].
  split; [vm_compute; reflexivity|]. split; [vm_compute; reflexivity|].
  split; [apply Qeq_bool_iff; vm_compute; reflexivity|].
  split; [|vm_compute; discriminate].
  eapply Forall_by_bool; [intros x Hx; apply Qle_bool_iff; exact Hx|].
  vm_compute. reflexivity.
Qed.

(** C10: the peak decade is the default "1990s" when the smoothed
    distribution is empty or no decade has a computed mean smoothed rate
    above 0; otherwise it is the first-encountered decade whose computed
    mean is maximal: the decade of a point of the series such that no
    decade has a larger computed mean and every decade met before that
    point has a strictly smaller one.  The computed mean of a decade is
    the one the route compares: the smoothed rates of the decade added in
    the order of the years, each sum rounded to binary64, then divided by
    their number and rounded. *)
Theorem peak_decade_first_maximal_computed currentYear celebrities responses :
  ∃ smoothed decade,
    Binary64.smoothedDistribution currentYear celebrities responses
      = Some smoothed ∧
    Binary64.peakDecade currentYear celebrities responses = Some decade ∧
    (smoothed = [] → decade = "1990s") ∧
    ((∀ q, q ∈ smoothed →
           (computedDecadeMean (decadeLabel (s_year q)) smoothed <= 0)%Q) →
     decade = "1990s") ∧
    ((∃ q, q ∈ smoothed ∧
           (0 < computedDecadeMean (decadeLabel (s_year q)) smoothed)%Q) →
     ∃ s1 q s2,
       smoothed = s1 ++ q :: s2 ∧ decade = decadeLabel (s_year q) ∧
       (0 < computedDecadeMean decade smoothed)%Q ∧
       (∀ q', q' ∈ smoothed →
              (computedDecadeMean (decadeLabel (s_year q')) smoothed
               <= computedDecadeMean decade smoothed)%Q) ∧
       (∀ q', q' ∈ s1 →
              (computedDecadeMean (decadeLabel (s_year q')) smoothed
               < computedDecadeMean decade smoothed)%Q)).
Proof.
  destruct (b64_smoothedDistribution_is_Some currentYear celebrities responses)
    as [smoothed Hs].
  destruct (b64_peakDecadeOf_spec smoothed) as (decade & Hdecade & Hdefault & Hfirst).
  exists smoothed, decade. split; [done|]. split.
  { unfold Binary64.peakDecade. by rewrite Hs. }
  split; [|split; [exact Hdefault|exact Hfirst]].
  intros Hempty. apply Hdefault. intros q Hq. rewrite Hempty in Hq.
  by apply not_elem_of_nil in Hq.
Qed.

(** At the mirrored session the theorem gives the "2000s": their
    computed mean is the largest, and that of the 1950s, met first, is
    strictly smaller. *)
Lemma peak_decade_first_maximal_computed_witness :
  ∃ smoothed,
    Binary64.smoothedDistribution 2024 Sample.mirrored Sample.mirroredAnswers
      = Some smoothed ∧
    Binary64.peakDecade 2024 Sample.mirrored Sample.mirroredAnswers
      = Some "2000s" ∧
    (computedDecadeMean "1950s" smoothed < computedDecadeMean "2000s" smoothed)%Q.
Proof.
  destruct (peak_decade_first_maximal_computed 2024 Sample.mirrored
              Sample.mirroredAnswers)
    as (smoothed & decade & Hs & Hpeak & _ & _ & Hfirst).
  pose proof Hpeak as Hpeak'. vm_compute in Hpeak'. apply (inj Some) in Hpeak'.
  subst decade.
  pose proof Hs as Hs'. vm_compute in Hs'. apply (inj Some) in Hs'.
  exists smoothed. split; [exact Hs|]. split; [exact Hpeak|].
  destruct Hfirst as (s1 & q & s2 & Hsplit & Hq & _ & _ & Hbefore).
  { rewrite <- Hs'. eexists. split; [apply list_elem_of_here|].
    vm_compute. reflexivity. }
  assert (∃ q0, head smoothed = Some q0 ∧ decadeLabel (s_year q0) = "1950s")
    as (q0 & Hhead & Hlabel).
  { rewrite <- Hs'. eexists. split; [reflexivity|]. vm_compute. reflexivity. }
  rewrite Hsplit in Hhead. destruct s1 as [|q1 s1].
  - cbn [app head] in Hhead. apply (inj Some) in Hhead. subst q0.
    rewrite Hlabel in Hq. discriminate Hq.
  - cbn [app head] in Hhead. apply (inj Some) in Hhead. subst q1.
    specialize (Hbefore q0 (list_elem_of_here q0 s1)).
    rewrite Hlabel in Hbefore. exact Hbefore.
Defined.

End Binary64PeakDecade.

(** ** The overall rate *)

Section Binary64OverallRate.
Import Tmdb Api Spec SpecBinary64.

(** The rounded percentage of a share that lies between two of the
    integers 0 and 1 lies between their hundredfolds. *)
Lemma percent_between (a b : Z) (share : Q) :
  0 ≤ a → b ≤ 1 → (inject_Z a <= share <= inject_Z b)%Q →
  100 * a ≤ mathRound (Binary64.mul (Binary64.fl share) 100) ≤ 100 * b.
Proof.
  intros Ha Hb Hshare.
  destruct (fl_between a b share Ha ltac:(lia) Hshare) as [H1 H2].
  apply mathRound_range, fl_between; [lia|lia|].
  rewrite !inject_Z_mult. change (inject_Z 100) with 100%Q. split; lra.
Qed.

(** 23 recognised answers of 40: the double product is
    [57.49999999999999], so the route returns 57, where the exact
    percentage 57.5 would round to 58. *)
Example overall_rate_23_of_40 :
  Binary64.overallRate ((λ i, Sample.answer i (i <=? 23)) <$> seqZ 1 40) = Some 57 ∧
  mathRound ((23 # 40) * 100) = 58.
Proof. split; vm_compute; reflexivity. Qed.

(** X21: the overall rate returned is a whole number of [[0, 100]]: 0
    when no answer is a recognition (so also when there is no answer),
    100 when there are answers and every one is a recognition, and in
    general [Math.round] of the binary64 product by 100 of the binary64
    quotient of the number of recognised answers by the number of
    answers. *)
Theorem overall_rate_in_range responses :
  ∃ overallRate,
    Binary64.overallRate responses = Some overallRate ∧
    0 ≤ overallRate ≤ 100 ∧
    (recognizedCount responses = 0 → overallRate = 0) ∧
    (responses ≠ [] → recognizedCount responses = Z.of_nat (length responses) →
     overallRate = 100) ∧
    (responses ≠ [] →
     overallRate
     = mathRound (Binary64.mul
                    (Binary64.fl (inject_Z (recognizedCount responses)
                                  / inject_Z (Z.of_nat (length responses))))
                    100)).
Proof.
  unfold Binary64.overallRate, Binary64.overallRateOf.
  pose proof (length_filter (λ a, recognized a = true) responses) as Hle.
  fold (recognizedCount responses).
  destruct responses as [|a responses].
  - exists 0. split; [reflexivity|]. split; [lia|]. split; [done|]. split; done.
  - set (all := a :: responses) in *.
    assert (0 < Z.of_nat (length all)) as Hn by (unfold all; simpl; lia).
    assert (0 ≤ recognizedCount all ≤ Z.of_nat (length all)) as Hk
      by (unfold recognizedCount; lia).
    replace (0 <? length all)%nat with true
      by (symmetry; apply Nat.ltb_lt; lia).
    change (Z.of_nat (length (filter (λ r, recognized r = true) all)))
      with (recognizedCount all).
    rewrite div_inject_Z by done. cbn [mbind option_bind].
    eexists. split; [reflexivity|].
    set (share := (inject_Z (recognizedCount all) / inject_Z (Z.of_nat (length all)))%Q).
    pose proof (rate_in_unit _ _ Hk Hn) as Hshare. fold share in Hshare.
    assert (inject_Z 0 < inject_Z (Z.of_nat (length all)))%Q as Hn'
      by (by rewrite <- Zlt_Qlt).
    change (inject_Z 0) with 0%Q in Hn'.
    split; [|split; [|split]].
    + pose proof (percent_between 0 1 share ltac:(lia) ltac:(lia) Hshare). lia.
    + intros Hzero.
      assert (share == 0)%Q as Hs
        by (unfold share; rewrite Hzero; apply Qdiv_zero).
      pose proof (percent_between 0 0 share ltac:(lia) ltac:(lia)) as Hp.
      change (inject_Z 0) with 0%Q in Hp.
      assert (0 <= share <= 0)%Q as Hnone by (rewrite Hs; lra).
      specialize (Hp Hnone). lia.
    + intros _ Hall.
      assert (share == 1)%Q as Hs.
      { unfold share. rewrite Hall. field. lra. }
      pose proof (percent_between 1 1 share ltac:(lia) ltac:(lia)) as Hp.
      change (inject_Z 1) with 1%Q in Hp.
      assert (1 <= share <= 1)%Q as Hone by (rewrite Hs; lra).
      specialize (Hp Hone). lia.
    + intros _. reflexivity.
Qed.

End Binary64OverallRate.
